(** * Caption alignment and timing synthesis (server/services/srt-parser.js)

    A shallow embedding of the alignment engine of html-to-video: text
    normalisation, the similarity score, the forward-only beat aligner, the
    two-pass segment matcher and the two timing interpolators, followed by
    the properties the specification states about them.

    Conventions of the embedding.
    - A JavaScript string is a list of code units.  Code units are taken in
      the range U+0000..U+00FF (type [ascii], read as Latin-1); the regular
      expression classes [\w] and [\s], [toLowerCase] and [trim] are written
      out for that range.
    - A JavaScript number is an exact rational ([Q]); IEEE rounding is not
      modelled.  Where the source can produce [NaN] or an infinity
      ([timeToSeconds]) the result type [jsnum] carries them.
    - [null] is [None].
    - The cue list is the result of [parseSrt]; the third-party SRT reader
      used by [parseSrt] is outside the repository, so every function
      below takes the parsed cue list where the source takes the raw text. *)

From Stdlib Require Import Ascii String ZArith QArith Qround Qminmax Lia Lqa Bool.
From Stdlib Require Import Sorted Permutation NArith List.
Import ListNotations.

(* ================================================================== *)
(** * Definitions *)
(* ================================================================== *)

(** ** Strings *)

Definition str := list ascii.

Definition lit (s : string) : str := list_ascii_of_string s.

Definition str_eq_dec : forall a b : str, {a = b} + {a <> b} :=
  list_eq_dec ascii_dec.

Definition str_eqb (a b : str) : bool :=
  if str_eq_dec a b then true else false.

Definition code (c : ascii) : N := N_of_ascii c.

Definition between (lo hi : N) (c : ascii) : bool :=
  ((lo <=? code c) && (code c <=? hi))%N.

Definition SP : ascii := " "%char.

(** [A-Z], and the upper-case letters of the Latin-1 block. *)
Definition isUpper (c : ascii) : bool :=
  between 65 90 c || (between 192 222 c && negb (code c =? 215)%N).

(** [String.prototype.toLowerCase], one code unit at a time. *)
Definition lowerChar (c : ascii) : ascii :=
  if isUpper c then ascii_of_N (code c + 32) else c.

Definition toLowerCase (s : str) : str := map lowerChar s.

Definition isDigit (c : ascii) : bool := between 48 57 c.

(** The class [\w]: [A-Za-z0-9_]. *)
Definition isWord (c : ascii) : bool :=
  between 65 90 c || between 97 122 c || isDigit c || (code c =? 95)%N.

(** The class [\s] (also the characters removed by [trim]):
    TAB, LF, VT, FF, CR, SPACE, NBSP. *)
Definition isSpace (c : ascii) : bool :=
  between 9 13 c || (code c =? 32)%N || (code c =? 160)%N.

(** [.replace(/[^\w\s]/g, ' ')] *)
Definition replaceNonWord (s : str) : str :=
  map (fun c => if isWord c || isSpace c then c else SP) s.

(** [.replace(/\s+/g, ' ')]: [inRun] tells that the previous code unit
    belonged to the white-space run being replaced. *)
Fixpoint collapseFrom (inRun : bool) (s : str) : str :=
  match s with
  | [] => []
  | c :: t =>
      if isSpace c
      then (if inRun then collapseFrom true t else SP :: collapseFrom true t)
      else c :: collapseFrom false t
  end.

Definition collapseSpaces (s : str) : str := collapseFrom false s.

Fixpoint dropWhile {A : Type} (p : A -> bool) (l : list A) : list A :=
  match l with
  | [] => []
  | x :: t => if p x then dropWhile p t else l
  end.

Definition trimStart (s : str) : str := dropWhile isSpace s.
Definition trimEnd (s : str) : str := rev (dropWhile isSpace (rev s)).

(** [String.prototype.trim] *)
Definition trim (s : str) : str := trimEnd (trimStart s).

(** [normalize(text)]; the argument is a string, so [text || ''] is [text]
    (the empty string is the only falsy string and is replaced by itself). *)
Definition normalize (text : str) : str :=
  trim (collapseSpaces (replaceNonWord (toLowerCase text))).

(** [a.includes(b)]: [b] occurs in [a] as a contiguous run. *)
Fixpoint startsWith (a b : str) : bool :=
  match b, a with
  | [], _ => true
  | _ :: _, [] => false
  | y :: b', x :: a' => if ascii_dec x y then startsWith a' b' else false
  end.

Fixpoint includes (a b : str) : bool :=
  startsWith a b ||
  match a with
  | [] => false
  | _ :: a' => includes a' b
  end.

(** [s.split(sep)] for a one-character separator: [cur] is the field being
    read, in reverse. *)
Fixpoint splitFrom (sep : ascii) (cur : str) (s : str) : list str :=
  match s with
  | [] => [rev cur]
  | c :: t =>
      if ascii_dec c sep then rev cur :: splitFrom sep [] t
      else splitFrom sep (c :: cur) t
  end.

(** An empty separator-free string splits into one empty field, as in
    JavaScript (["".split(":")] is [[""]]). *)
Definition split (sep : ascii) (s : str) : list str := splitFrom sep [] s.

Definition nonEmpty (s : str) : bool :=
  match s with [] => false | _ => true end.

(** [s.split(' ').filter(Boolean)] *)
Definition words (s : str) : list str := filter nonEmpty (split SP s).

(** [new Set(list)]: the distinct elements, each once. *)
Definition mkSet (l : list str) : list str := nodup str_eq_dec l.

Definition has (s : list str) (w : str) : bool :=
  if in_dec str_eq_dec w s then true else false.

(** The [for (const w of setA) if (setB.has(w)) overlap++] loops. *)
Definition countIn (sa sb : list str) : nat :=
  length (filter (has sb) sa).

(** [toBigrams(str)]: the set of the slices [str.slice(i, i + 2)] for
    [0 <= i < str.length - 1]. *)
Fixpoint bigramList (s : str) : list str :=
  match s with
  | c :: ((d :: _) as t) => [c; d] :: bigramList t
  | _ => []
  end.

Definition toBigrams (s : str) : list str := mkSet (bigramList s).

(** ** Numbers *)

Definition ofNat (n : nat) : Q := inject_Z (Z.of_nat n).

(** [n / Math.max(a, b)] on set sizes. *)
Definition ratio (n a b : nat) : Q := ofNat n / ofNat (Nat.max a b).

(** [similarity(a, b)] *)
Definition similarity (a b : str) : Q :=
  if negb (nonEmpty a) || negb (nonEmpty b) then 0
  else
    let wordsA := words a in
    let wordsB := words b in
    if (length wordsA =? 0)%nat || (length wordsB =? 0)%nat then 0
    else
      let setA := mkSet wordsA in
      let setB := mkSet wordsB in
      let overlap := countIn setA setB in
      let jaccard := ratio overlap (length setA) (length setB) in
      let substringBonus := if includes a b || includes b a then 3 # 10 else 0 in
      let bigramsA := toBigrams a in
      let bigramsB := toBigrams b in
      let bigramOverlap := countIn bigramsA bigramsB in
      let bigramScore :=
        if (0 <? length bigramsA)%nat
        then ratio bigramOverlap (length bigramsA) (length bigramsB)
        else 0 in
      Qmin 1 (Qmax jaccard bigramScore + substringBonus).

(** ** Shape of normalised text (used to state what [normalize] returns) *)

(** A code unit [normalize] can leave in its result: a lower-case word
    character or the space [U+0020]. *)
Definition normChar (c : ascii) : bool :=
  (isWord c && negb (isUpper c)) || (code c =? 32)%N.

(** No white space other than single [U+0020]s; [prevWs] tells that the
    code unit before [s] was white space. *)
Fixpoint sepOk (prevWs : bool) (s : str) : Prop :=
  match s with
  | [] => True
  | c :: t =>
      if isSpace c then c = SP /\ prevWs = false /\ sepOk true t
      else sepOk false t
  end.

Definition headOk (s : str) : Prop :=
  match s with
  | [] => True
  | c :: _ => isSpace c = false
  end.

(** ** Numbers, continued *)

Definition Qltb (a b : Q) : bool := negb (Qle_bool b a).

(** [Math.round(x)]: the nearest integer, halves upwards. *)
Definition mathRound (x : Q) : Z := Qfloor (x + (1 # 2)).

(** [Math.round(t * 1000) / 1000] *)
Definition roundMs (t : Q) : Q := inject_Z (mathRound (t * 1000)) / 1000.

(** ** Data model *)

(** One parsed subtitle entry, as built by [parseSrt]. *)
Record Cue := mkCue {
  index : str;
  startTime : Q;
  endTime : Q;
  text : str
}.

(** One entry of [mapping].  Fields that the source leaves out of an
    object ([cueId], [time], [skipped]) are [None], as is [null]. *)
Record BeatMatch := mkBeatMatch {
  beatIdx : nat;
  cueIdx : option nat;
  cueId : option str;
  score : Z;
  beatText : str;
  cueText : option str;
  time : option Q;
  skipped : option str
}.

(** The [opts] argument of [mapSrtToBeatsIntelligent]. *)
Record Opts := mkOpts {
  beatTypes : option (list str);
  segStart : option Q;
  segEnd : option Q
}.

Definition noOpts : Opts := mkOpts None None None.

(** The object returned by [mapSrtToBeatsIntelligent]. *)
Record BeatResult := mkBeatResult {
  beatTimes : list Q;
  cueCount : nat;
  beatCount : nat;
  matched : bool;
  matchedCount : option nat;
  cues : list Cue;
  mapping : option (list BeatMatch);
  method : str
}.

Definition noCue : Cue := mkCue [] 0 0 [].

(** [cues[i]]; the aligner only reads indices below [cues.length]. *)
Definition cueAt (cues : list Cue) (i : nat) : Cue := nth i cues noCue.

(** [cueTexts[i]] *)
Definition textAt (cueTexts : list str) (i : nat) : str := nth i cueTexts [].

(** ** Beat aligner *)

(** The containment floor: [if (t.includes(beatText) && beatText.length >= 3)
    s = Math.max(s, 0.25)]. *)
Definition withFloor (t beatText : str) (s : Q) : Q :=
  if includes t beatText && (3 <=? length beatText)%nat
  then Qmax s (1 # 4) else s.

(** The score of candidate [cueIdx]: the cue alone, with its next
    neighbour, and with its next two neighbours (lines 101-125). *)
Definition candidateScore (cueTexts : list str) (beatText : str)
    (cueIdx : nat) : Q :=
  let n := length cueTexts in
  let score := withFloor (textAt cueTexts cueIdx) beatText
                 (similarity beatText (textAt cueTexts cueIdx)) in
  let score :=
    if (cueIdx + 1 <? n)%nat then
      let combined2 :=
        textAt cueTexts cueIdx ++ SP :: textAt cueTexts (cueIdx + 1) in
      let combinedScore :=
        withFloor combined2 beatText (similarity beatText combined2) in
      Qmax score combinedScore
    else score in
  let score :=
    if (cueIdx + 2 <? n)%nat then
      let combined3 :=
        textAt cueTexts cueIdx ++ SP :: textAt cueTexts (cueIdx + 1)
          ++ SP :: textAt cueTexts (cueIdx + 2) in
      let combinedScore :=
        withFloor combined3 beatText (similarity beatText combined3) in
      Qmax score combinedScore
    else score in
  score.

(** The inner loop [for (cueIdx = searchStart; cueIdx < cues.length;
    cueIdx++)]: [fuel] is the number of iterations left, [best] the pair
    [(bestIdx, bestScore)]. *)
Fixpoint scanCues (cueTexts : list str) (beatText : str)
    (fuel cueIdx : nat) (best : Z * Q) : Z * Q :=
  match fuel with
  | O => best
  | S fuel' =>
      let score := candidateScore cueTexts beatText cueIdx in
      let best' :=
        if Qltb (snd best) score then (Z.of_nat cueIdx, score) else best in
      scanCues cueTexts beatText fuel' (S cueIdx) best'
  end.

(** [(bestIdx, bestScore)] after the inner loop, started at
    [(-1, 0)]. *)
Definition bestCandidate (cueTexts : list str) (beatText : str)
    (searchStart : nat) : Z * Q :=
  scanCues cueTexts beatText (length cueTexts - searchStart) searchStart
    ((-1)%Z, 0).

Definition isType (beatType : option str) (name : string) : bool :=
  match beatType with
  | Some t => str_eqb t (lit name)
  | None => false
  end.

(** [beatType === 'label' ? 0.08 : 0.15] *)
Definition threshold (beatType : option str) : Q :=
  if isType beatType "label" then 8 # 100 else 15 # 100.

Definition unmatchedBeat (beatIdx : nat) (beatText : str)
    (skipped : option str) : BeatMatch :=
  mkBeatMatch beatIdx None None 0 beatText None None skipped.

(** One iteration of the loop over the beats (lines 78-147): the new
    value of [searchStart] and the entry pushed on [mapping]. *)
Definition alignBeat (cues : list Cue) (cueTexts : list str)
    (beatType : option str) (beatIdx : nat) (rawText : str)
    (searchStart : nat) : nat * BeatMatch :=
  if isType beatType "silent" || isType beatType "data" then
    (searchStart, unmatchedBeat beatIdx rawText beatType)
  else
    let beatText := normalize rawText in
    if negb (nonEmpty beatText) then
      (searchStart, unmatchedBeat beatIdx rawText None)
    else
      let thr := threshold beatType in
      let '(bestIdx, bestScore) := bestCandidate cueTexts beatText searchStart in
      if Qle_bool thr bestScore && (0 <=? bestIdx)%Z then
        let k := Z.to_nat bestIdx in
        (S k,
         mkBeatMatch beatIdx (Some k) (Some (index (cueAt cues k)))
           (mathRound (bestScore * 100)) rawText
           (Some (text (cueAt cues k))) (Some (startTime (cueAt cues k)))
           None)
      else
        (searchStart, unmatchedBeat beatIdx rawText None).

(** [beatTypes ? beatTypes[beatIdx] : null] *)
Definition beatTypeAt (types : option (list str)) (beatIdx : nat) : option str :=
  match types with
  | Some l => nth_error l beatIdx
  | None => None
  end.

(** The loop over the beats: [rest] holds [beatTexts[beatIdx..]]; the
    result lists the entries pushed from [beatIdx] on, in push order. *)
Fixpoint alignLoop (cues : list Cue) (cueTexts : list str)
    (types : option (list str)) (rest : list str)
    (beatIdx searchStart : nat) : list BeatMatch :=
  match rest with
  | [] => []
  | rawText :: rest' =>
      let '(searchStart', m) :=
        alignBeat cues cueTexts (beatTypeAt types beatIdx) beatIdx rawText
          searchStart in
      m :: alignLoop cues cueTexts types rest' (S beatIdx) searchStart'
  end.

(** The [mapping] built by lines 72-147. *)
Definition buildMapping (cues : list Cue) (types : option (list str))
    (beatTexts : list str) : list BeatMatch :=
  alignLoop cues (map (fun c => normalize (text c)) cues) types beatTexts 0 0.

(** The value of [searchStart] after the beats [beatTexts] have been
    processed from [beatIdx] on. *)
Fixpoint cursorAfter (cues : list Cue) (cueTexts : list str)
    (types : option (list str)) (rest : list str)
    (beatIdx searchStart : nat) : nat :=
  match rest with
  | [] => searchStart
  | rawText :: rest' =>
      cursorAfter cues cueTexts types rest' (S beatIdx)
        (fst (alignBeat cues cueTexts (beatTypeAt types beatIdx) beatIdx
                rawText searchStart))
  end.

(** ** Beat-time interpolation *)

Definition isSome {A : Type} (o : option A) : bool :=
  match o with Some _ => true | None => false end.

(** [arr[i] = v] for [i < arr.length].  (Past the end JavaScript grows
    the array; the aligner never writes there, see [buildMapping_wf].) *)
Fixpoint setAt {A : Type} (i : nat) (v : A) (l : list A) : list A :=
  match l, i with
  | [], _ => []
  | _ :: t, O => v :: t
  | x :: t, S i' => x :: setAt i' v t
  end.

(** [times[i]] *)
Definition slot (times : list (option Q)) (i : nat) : option Q :=
  nth i times None.

(** [times[i]] read as an operand of arithmetic ([null] counts as [0]). *)
Definition numAt (times : list (option Q)) (i : Z) : Q :=
  match slot times (Z.to_nat i) with Some q => q | None => 0 end.

(** Lines 233-240: [new Array(mapping.length).fill(null)], then the
    matched times. *)
Definition fillMatched (mapping : list BeatMatch) : list (option Q) :=
  fold_left
    (fun times m =>
       match cueIdx m with
       | Some _ => setAt (beatIdx m) (time m) times
       | None => times
       end)
    mapping (repeat None (length mapping)).

(** [for (j = i - 1; j >= 0; j--) if (times[j] !== null) { prevIdx = j;
    break; }], with [prevIdx = -1] at the start. *)
Fixpoint findPrev (times : list (option Q)) (i : nat) : Z :=
  match i with
  | O => (-1)%Z
  | S j => if isSome (slot times j) then Z.of_nat j else findPrev times j
  end.

(** [for (j = ...; j < times.length; j++) if (times[j] !== null)
    { nextIdx = j; break; }]; [fuel] is [times.length - j]. *)
Fixpoint findNextFrom (times : list (option Q)) (fuel j : nat) : Z :=
  match fuel with
  | O => (-1)%Z
  | S fuel' =>
      if isSome (slot times j) then Z.of_nat j
      else findNextFrom times fuel' (S j)
  end.

Definition findNext (times : list (option Q)) (i : nat) : Z :=
  findNextFrom times (length times - S i) (S i).

(** Line 243 *)
Definition floorTimeOf (cues : list Cue) (segStart : option Q) : Q :=
  match segStart with
  | Some s => s
  | None => match cues with c :: _ => startTime c | [] => 0 end
  end.

(** Line 244 *)
Definition ceilTimeOf (cues : list Cue) (segEnd : option Q)
    (mappingLength : nat) : Q :=
  match segEnd with
  | Some e => e
  | None =>
      if (0 <? length cues)%nat then endTime (cueAt cues (length cues - 1))
      else ofNat mappingLength * 2
  end.

(** Lines 250-258: no anchor at all. *)
Definition spreadEvenly (floorTime ceilTime : Q) (total : nat)
    : list (option Q) :=
  map (fun i =>
         Some (if (total =? 1)%nat then (floorTime + ceilTime) / 2
               else floorTime
                    + (ofNat i / ofNat (total - 1)) * (ceilTime - floorTime)))
      (seq 0 total).

(** The body of the loop of lines 263-293 at index [i]; it reads the
    array it is filling. *)
Definition interpolateAt (floorTime ceilTime : Q)
    (times : list (option Q)) (i : nat) : list (option Q) :=
  if isSome (slot times i) then times
  else
    let prevIdx := findPrev times i in
    let nextIdx := findNext times i in
    let iz := Z.of_nat i in
    if (0 <=? prevIdx)%Z && (0 <=? nextIdx)%Z then
      let span := (nextIdx - prevIdx)%Z in
      let frac := inject_Z (iz - prevIdx) / inject_Z span in
      setAt i (Some (numAt times prevIdx
                     + frac * (numAt times nextIdx - numAt times prevIdx))) times
    else if (0 <=? prevIdx)%Z then
      let unmatchedAfter := (Z.of_nat (length times) - 1 - prevIdx)%Z in
      let availableTime := ceilTime - numAt times prevIdx in
      let step :=
        if (0 <? unmatchedAfter)%Z
        then availableTime / inject_Z unmatchedAfter else 0 in
      setAt i (Some (numAt times prevIdx + inject_Z (iz - prevIdx) * step)) times
    else if (0 <=? nextIdx)%Z then
      let unmatchedBefore := nextIdx in
      let availableTime := numAt times nextIdx - floorTime in
      let step :=
        if (0 <? unmatchedBefore)%Z
        then availableTime / inject_Z unmatchedBefore else 0 in
      setAt i (Some (Qmax floorTime
                       (numAt times nextIdx - inject_Z (nextIdx - iz) * step)))
        times
    else times.

(** [for (let i = 0; i < times.length; i++)]; [fuel] is
    [times.length - i]. *)
Fixpoint interpolateLoop (floorTime ceilTime : Q) (fuel i : nat)
    (times : list (option Q)) : list (option Q) :=
  match fuel with
  | O => times
  | S fuel' =>
      interpolateLoop floorTime ceilTime fuel' (S i)
        (interpolateAt floorTime ceilTime times i)
  end.

(** The array [times] of [interpolateMissing] just before the final
    [times.map(...)]. *)
Definition filledTimes (mapping : list BeatMatch) (cues : list Cue)
    (segStart segEnd : option Q) : list (option Q) :=
  let times := fillMatched mapping in
  let floorTime := floorTimeOf cues segStart in
  let ceilTime := ceilTimeOf cues segEnd (length mapping) in
  let hasAnchors := existsb isSome times in
  if negb hasAnchors then spreadEvenly floorTime ceilTime (length times)
  else interpolateLoop floorTime ceilTime (length times) 0 times.

(** [t => Math.round(t * 1000) / 1000]; a [null] operand counts as [0]. *)
Definition roundSlot (t : option Q) : Q :=
  roundMs (match t with Some q => q | None => 0 end).

(** [interpolateMissing(mapping, cues, segStart, segEnd)] *)
Definition interpolateMissing (mapping : list BeatMatch) (cues : list Cue)
    (segStart segEnd : option Q) : list Q :=
  map roundSlot (filledTimes mapping cues segStart segEnd).

(** [mapSrtToBeatsIntelligent], on the parsed cue list. *)
Definition mapSrtToBeatsIntelligent (cues : list Cue) (beatTexts : list str)
    (opts : Opts) : BeatResult :=
  if (length beatTexts =? 0)%nat then
    mkBeatResult (map startTime cues) (length cues) 0 false None cues None
      (lit "fallback")
  else
    let mapping := buildMapping cues (beatTypes opts) beatTexts in
    let beatTimes :=
      interpolateMissing mapping cues (segStart opts) (segEnd opts) in
    let matchedCount := length (filter (fun m => isSome (cueIdx m)) mapping) in
    mkBeatResult beatTimes (length cues) (length beatTexts)
      (matchedCount =? length beatTexts)%nat (Some matchedCount) cues
      (Some mapping) (lit "text-match").

(** The matched cue indices of a mapping, in beat order. *)
Fixpoint matchedCueIdxs (mapping : list BeatMatch) : list nat :=
  match mapping with
  | [] => []
  | m :: t =>
      match cueIdx m with
      | Some k => k :: matchedCueIdxs t
      | None => matchedCueIdxs t
      end
  end.

(** A mapping as the aligner builds it: entry [i] is about beat [i], and
    a matched entry carries the start time of its cue. *)
Fixpoint wfMappingFrom (i : nat) (mapping : list BeatMatch) : Prop :=
  match mapping with
  | [] => True
  | m :: t =>
      beatIdx m = i /\ (isSome (cueIdx m) = isSome (time m)) /\
      wfMappingFrom (S i) t
  end.

Definition wfMapping (mapping : list BeatMatch) : Prop :=
  wfMappingFrom 0 mapping.

(** ** Sample data (the cue list of the scenarios of the specification) *)

Definition demoCues : list Cue :=
  [ mkCue (lit "1") 0 3 (lit "Let's talk apples");
    mkCue (lit "2") 3 6 (lit "Now bananas");
    mkCue (lit "3") 6 9 (lit "Finally cherries") ].

(** ** Statements about the time array *)

(** The times of the matched entries of a mapping, in beat order. *)
Fixpoint matchedTimes (mapping : list BeatMatch) : list Q :=
  match mapping with
  | [] => []
  | m :: t =>
      match cueIdx m, time m with
      | Some _, Some q => q :: matchedTimes t
      | _, _ => matchedTimes t
      end
  end.

(** The non-null entries of [times] never decrease from left to right. *)
Definition anchorsSorted (times : list (option Q)) : Prop :=
  forall j k a b, (j < k)%nat ->
    slot times j = Some a -> slot times k = Some b -> a <= b.

(** The non-null entries of [times] lie between [lo] and [hi]. *)
Definition anchorsWithin (lo hi : Q) (times : list (option Q)) : Prop :=
  forall j a, slot times j = Some a -> lo <= a <= hi.

(** [time[i] <= time[i+1]] for every [i]. *)
Definition nonDecreasing (l : list Q) : Prop :=
  forall i, (S i < length l)%nat -> nth i l 0 <= nth (S i) l 0.

(** The matched times of a mapping, by beat position ([None] where the
    beat has no cue). *)
Definition anchorsOf (mapping : list BeatMatch) : list (option Q) :=
  map (fun m => if isSome (cueIdx m) then time m else None) mapping.

(** ** Segment matcher ([mapSrtToSegments]) *)

Module Segments.

(** The cue fields, under names that the fields of [SegmentMatch] do not
    hide. *)
Definition cueStartTime (c : Cue) : Q := startTime c.
Definition cueEndTime (c : Cue) : Q := endTime c.

(** One element of the [segments] argument. *)
Record Segment := mkSegment {
  segNum : Z;
  script : str;
  segFiles : list str
}.

(** One element of [rawMatches] and of [segmentMatches]; the two time
    fields are absent ([None]) in [rawMatches]. *)
Record SegmentMatch := mkSegmentMatch {
  num : Z;
  matched : bool;
  confidence : Z;
  startCueIdx : option nat;
  endCueIdx : option nat;
  startTime : option Q;
  endTime : option Q;
  htmlFiles : list str
}.

(** A cue range [{ start, end }] held in [assigned]. *)
Record Range := mkRange {
  start : option nat;
  end_ : option nat
}.

(** An index used as an operand of a comparison ([null] counts as [0]). *)
Definition idxNum (o : option nat) : nat :=
  match o with Some k => k | None => 0%nat end.

(** A time used as an operand of arithmetic ([null] counts as [0]). *)
Definition timeNum (o : option Q) : Q :=
  match o with Some q => q | None => 0 end.

Definition stopWords : list str :=
  map lit
    [ "the"; "a"; "an"; "is"; "it"; "in"; "on"; "to"; "of"; "and"; "or"; "but";
      "that"; "this"; "with"; "for"; "not"; "are"; "was"; "be"; "has"; "had";
      "do"; "does"; "did"; "will"; "would"; "could"; "should"; "can"; "may";
      "i"; "you"; "he"; "she"; "we"; "they"; "my"; "your"; "his"; "her"; "our";
      "their"; "its"; "if"; "so"; "at"; "by"; "from"; "up"; "out"; "no"; "yes";
      "just"; "all"; "more"; "some"; "than"; "then"; "when"; "what"; "how";
      "about"; "into"; "over"; "after"; "before"; "between"; "through" ]%string.

(** [w.length > 2 && !stopWords.has(w)] *)
Definition isContentWord (w : str) : bool :=
  (2 <? length w)%nat && negb (has stopWords w).

(** [contentWords(wordSet)] *)
Definition contentWords (wordSet : list str) : list str :=
  filter isContentWord wordSet.

(** [set.add(w)] *)
Definition setAdd (s : list str) (w : str) : list str :=
  if has s w then s else s ++ [w].

(** [cueWordSets[i]] *)
Definition wordSetAt (cueWordSets : list (list str)) (i : nat) : list str :=
  nth i cueWordSets [].

(** The state of the search of Pass 1 for one segment:
    [(bestScore, bestStart, bestEnd)]. *)
Definition Best := (Q * Z * Z)%type.

(** The inner loop [for (end = start; end < cues.length && end < start +
    40; end++)] (lines 388-433).  [fuel] is the number of iterations left
    before the loop condition fails; the [break] returns at once. *)
Fixpoint growWindow (cueWordSets : list (list str))
    (scriptWordsFull scriptWordsContent : list str) (start_ : nat)
    (fuel end' : nat) (windowWords windowContentWords : list str)
    (peakScore : Q) (noImprovementCount : nat) (best : Best) : Best :=
  match fuel with
  | O => best
  | S fuel' =>
      let ws := wordSetAt cueWordSets end' in
      let windowWords := fold_left setAdd ws windowWords in
      let windowContentWords :=
        fold_left (fun s w => if isContentWord w then setAdd s w else s)
          ws windowContentWords in
      if (length windowContentWords =? 0)%nat then
        growWindow cueWordSets scriptWordsFull scriptWordsContent start_
          fuel' (S end') windowWords windowContentWords peakScore
          noImprovementCount best
      else
        let srtCoveredByScript := countIn windowContentWords scriptWordsFull in
        let srtCoverage :=
          ofNat srtCoveredByScript / ofNat (length windowContentWords) in
        let scriptCoveredBySrt := countIn scriptWordsContent windowWords in
        let scriptCoverage :=
          if (0 <? length scriptWordsContent)%nat
          then ofNat scriptCoveredBySrt / ofNat (length scriptWordsContent)
          else 0 in
        let score_ := srtCoverage * (6 # 10) + scriptCoverage * (4 # 10) in
        let '(peakScore, noImprovementCount) :=
          if Qltb peakScore score_ then (score_, 0%nat)
          else (peakScore, S noImprovementCount) in
        let best :=
          let '(bestScore, _, _) := best in
          if Qltb bestScore score_
          then (score_, Z.of_nat start_, Z.of_nat end') else best in
        if (10 <? noImprovementCount)%nat then best
        else
          growWindow cueWordSets scriptWordsFull scriptWordsContent start_
            fuel' (S end') windowWords windowContentWords peakScore
            noImprovementCount best
  end.

(** The outer loop [for (start = 0; start < cues.length; start++)]. *)
Fixpoint scanStarts (cueWordSets : list (list str))
    (scriptWordsFull scriptWordsContent : list str)
    (fuel start_ : nat) (best : Best) : Best :=
  match fuel with
  | O => best
  | S fuel' =>
      let n := length cueWordSets in
      let best :=
        growWindow cueWordSets scriptWordsFull scriptWordsContent start_
          (Nat.min n (start_ + 40) - start_) start_ [] [] 0 0 best in
      scanStarts cueWordSets scriptWordsFull scriptWordsContent fuel'
        (S start_) best
  end.

Definition unmatchedRaw (seg : Segment) (confidence : Z) : SegmentMatch :=
  mkSegmentMatch (segNum seg) false confidence None None None None
    (segFiles seg).

(** Pass 1 for one segment (the body of the loop of lines 359-445). *)
Definition bestWindow (cueWordSets : list (list str)) (seg : Segment)
    : SegmentMatch :=
  let scriptNorm := normalize (script seg) in
  if negb (nonEmpty scriptNorm) || (length scriptNorm <? 10)%nat then
    unmatchedRaw seg 0
  else
    let scriptWordsFull := mkSet (words scriptNorm) in
    let scriptWordsContent := contentWords scriptWordsFull in
    let '(bestScore, bestStart, bestEnd) :=
      scanStarts cueWordSets scriptWordsFull scriptWordsContent
        (length cueWordSets) 0 (0, (-1)%Z, (-1)%Z) in
    let isMatched := Qle_bool (25 # 100) bestScore && (0 <=? bestStart)%Z in
    mkSegmentMatch (segNum seg) isMatched (mathRound (bestScore * 100))
      (if isMatched then Some (Z.to_nat bestStart) else None)
      (if isMatched then Some (Z.to_nat bestEnd) else None)
      None None (segFiles seg).

(** Pass 1: [rawMatches]. *)
Definition pass1 (cues : list Cue) (segments : list Segment)
    : list SegmentMatch :=
  let cueTextsNorm := map (fun c => normalize (text c)) cues in
  let cueWordSets := map (fun t => mkSet (words t)) cueTextsNorm in
  map (bestWindow cueWordSets) segments.

(** Pass 2.  [.sort((a, b) => b.confidence - a.confidence)]: a stable
    sort by decreasing confidence, here by insertion. *)
Fixpoint insertDesc (x : nat * SegmentMatch) (l : list (nat * SegmentMatch))
    : list (nat * SegmentMatch) :=
  match l with
  | [] => [x]
  | y :: t =>
      if (confidence (snd x) <? confidence (snd y))%Z
      then y :: insertDesc x t
      else x :: l
  end.

Definition sortDesc (l : list (nat * SegmentMatch))
    : list (nat * SegmentMatch) :=
  fold_right insertDesc [] l.

(** [rawMatches.map((m, i) => ({ idx: i, ...m })).filter(m => m.matched)
    .sort(...)]; an entry is the pair of [idx] and a copy of the match. *)
Definition matchedIdxs (rawMatches : list SegmentMatch)
    : list (nat * SegmentMatch) :=
  sortDesc
    (filter (fun p => matched (snd p))
            (combine (seq 0 (length rawMatches)) rawMatches)).

(** The check of lines 464-474 against the ranges assigned so far;
    [i] is the position of the head of [assigned]. *)
Fixpoint validAgainst (assigned : list (option Range)) (i idx : nat)
    (range : Range) : bool :=
  match assigned with
  | [] => true
  | None :: t => validAgainst t (S i) idx range
  | Some r :: t =>
      if (i <? idx)%nat then
        if (idxNum (start range) <=? idxNum (end_ r))%nat then false
        else validAgainst t (S i) idx range
      else if (idx <? i)%nat then
        if (idxNum (start r) <=? idxNum (end_ range))%nat then false
        else validAgainst t (S i) idx range
      else validAgainst t (S i) idx range
  end.

(** [rawMatches[idx].matched = false; .startCueIdx = null; .endCueIdx =
    null] *)
Definition demote (m : SegmentMatch) : SegmentMatch :=
  mkSegmentMatch (num m) false (confidence m) None None (startTime m)
    (endTime m) (htmlFiles m).

Definition updateAt {A : Type} (i : nat) (f : A -> A) (l : list A) : list A :=
  match nth_error l i with
  | Some x => setAt i (f x) l
  | None => l
  end.

(** The loop [for (const m of matchedIdxs)] (lines 459-483) on the pair
    of [assigned] and [rawMatches]. *)
Fixpoint resolve (todo : list (nat * SegmentMatch))
    (assigned : list (option Range)) (rawMatches : list SegmentMatch)
    : list (option Range) * list SegmentMatch :=
  match todo with
  | [] => (assigned, rawMatches)
  | (idx, m) :: todo' =>
      let range := mkRange (startCueIdx m) (endCueIdx m) in
      if validAgainst assigned 0 idx range
      then resolve todo' (setAt idx (Some range) assigned) rawMatches
      else resolve todo' assigned (updateAt idx demote rawMatches)
  end.

(** Pass 2: [rawMatches] after conflict resolution.  [assigned] has one
    slot per segment, and there is one raw match per segment. *)
Definition pass2 (rawMatches : list SegmentMatch) : list SegmentMatch :=
  snd (resolve (matchedIdxs rawMatches)
         (repeat None (length rawMatches)) rawMatches).

(** Lines 487-496: the cue range turned into times. *)
Definition withTimes (cues : list Cue) (m : SegmentMatch) : SegmentMatch :=
  mkSegmentMatch (num m) (matched m) (confidence m) (startCueIdx m)
    (endCueIdx m)
    (option_map (fun k => cueStartTime (cueAt cues k)) (startCueIdx m))
    (option_map (fun k => cueEndTime (cueAt cues k)) (endCueIdx m))
    (htmlFiles m).

Definition setTimes (m : SegmentMatch) (s e : Q) : SegmentMatch :=
  mkSegmentMatch (num m) (matched m) (confidence m) (startCueIdx m)
    (endCueIdx m) (Some s) (Some e) (htmlFiles m).

(** [matches[i]] ; absent entries are never read. *)
Definition matchAt (matches : list SegmentMatch) (i : Z) : SegmentMatch :=
  nth (Z.to_nat i) matches (mkSegmentMatch 0 false 0 None None None None []).

(** The body of the loop of [interpolateSegmentTiming] at index [i]; it
    reads the list it is filling. *)
Definition interpolateSegmentAt (matches : list SegmentMatch) (i : nat)
    : list SegmentMatch :=
  let starts := map startTime matches in
  if isSome (slot starts i) then matches
  else
    let prevIdx := findPrev starts i in
    let nextIdx := findNext starts i in
    let iz := Z.of_nat i in
    let this := matchAt matches iz in
    if (0 <=? prevIdx)%Z && (0 <=? nextIdx)%Z then
      let span := (nextIdx - prevIdx)%Z in
      let frac := inject_Z (iz - prevIdx) / inject_Z span in
      let prevEnd := timeNum (endTime (matchAt matches prevIdx)) in
      let nextStart := timeNum (startTime (matchAt matches nextIdx)) in
      setAt i
        (setTimes this
           (prevEnd + frac * (nextStart - prevEnd))
           (prevEnd
            + (inject_Z (iz - prevIdx + 1) / inject_Z span)
              * (nextStart - prevEnd)))
        matches
    else if (0 <=? prevIdx)%Z then
      let gap := 3 in
      let s :=
        timeNum (endTime (matchAt matches prevIdx))
        + inject_Z (iz - prevIdx) * gap in
      setAt i (setTimes this s (s + gap)) matches
    else if (0 <=? nextIdx)%Z then
      let gap := 3 in
      let s :=
        Qmax 0 (timeNum (startTime (matchAt matches nextIdx))
                - inject_Z (nextIdx - iz) * gap) in
      setAt i (setTimes this s (s + gap)) matches
    else
      setAt i (setTimes this (inject_Z iz * 3) (inject_Z (iz + 1) * 3)) matches.

Fixpoint interpolateSegmentLoop (fuel i : nat) (matches : list SegmentMatch)
    : list SegmentMatch :=
  match fuel with
  | O => matches
  | S fuel' =>
      interpolateSegmentLoop fuel' (S i) (interpolateSegmentAt matches i)
  end.

(** [interpolateSegmentTiming(matches)]: the list after the in-place
    update. *)
Definition interpolateSegmentTiming (matches : list SegmentMatch)
    : list SegmentMatch :=
  interpolateSegmentLoop (length matches) 0 matches.

(** The object returned by [mapSrtToSegments]. *)
Record SegmentResult := mkSegmentResult {
  segmentMatches : list SegmentMatch;
  matchedCount : nat;
  totalSegments : nat;
  cueCount : nat;
  cues : list Cue
}.

(** [mapSrtToSegments], on the parsed cue list. *)
Definition mapSrtToSegments (cueList : list Cue) (segments : list Segment)
    : SegmentResult :=
  let rawMatches := pass2 (pass1 cueList segments) in
  let segmentMatches :=
    interpolateSegmentTiming (map (withTimes cueList) rawMatches) in
  mkSegmentResult segmentMatches
    (length (filter matched segmentMatches))
    (length segments) (length cueList) cueList.

(** A segment list without any match, as [rawMatches.map(...)] builds
    it when no segment is matched. *)
Definition blank (n : Z) : SegmentMatch :=
  mkSegmentMatch n false 0 None None None None [].

End Segments.

(** ** Statements about segment matches *)

(** The shape in which [mapSrtToSegments] hands its list to
    [interpolateSegmentTiming]: an entry with a start time has an end
    time. *)
Definition timesPaired (m : Segments.SegmentMatch) : Prop :=
  isSome (Segments.startTime m) = true -> isSome (Segments.endTime m) = true.

(** Both times are set. *)
Definition timesSet (m : Segments.SegmentMatch) : Prop :=
  isSome (Segments.startTime m) = true /\ isSome (Segments.endTime m) = true.

(** The range that the loop of [interpolateSegmentTiming] gives to
    position [i] of a list without any matched segment. *)
Definition spacedRange (i : nat) (m : Segments.SegmentMatch) : Prop :=
  exists s e,
    Segments.startTime m = Some s /\ Segments.endTime m = Some e /\
    s == inject_Z (6 * Z.of_nat i) /\ e == inject_Z (6 * Z.of_nat i + 3).

(** ** Statements about conflict resolution *)

(** [{ start: m.startCueIdx, end: m.endCueIdx }] *)
Definition rangeOf (m : Segments.SegmentMatch) : Segments.Range :=
  Segments.mkRange (Segments.startCueIdx m) (Segments.endCueIdx m).

(** The assigned ranges follow the order of the segments: an earlier
    position owns a range that ends before the range of a later position
    starts. *)
Definition rangesOrdered (assigned : list (option Segments.Range)) : Prop :=
  forall i j ri rj, (i < j)%nat ->
    nth i assigned None = Some ri -> nth j assigned None = Some rj ->
    (Segments.idxNum (Segments.end_ ri) < Segments.idxNum (Segments.start rj))%nat.

(** The state of the loop of Pass 2, with [orig] the list [rawMatches]
    as Pass 1 left it and [todo] the entries still to visit. *)
Record resolveInv (orig : list Segments.SegmentMatch)
    (todo : list (nat * Segments.SegmentMatch))
    (assigned : list (option Segments.Range))
    (raw : list Segments.SegmentMatch) : Prop := mkResolveInv {
  inv_todo : forall idx m, In (idx, m) todo -> nth_error orig idx = Some m;
  inv_len_assigned : length assigned = length orig;
  inv_len_raw : length raw = length orig;
  inv_ordered : rangesOrdered assigned;
  inv_range : forall k r, nth k assigned None = Some r ->
                exists m, nth_error orig k = Some m /\ r = rangeOf m;
  inv_kept : forall k m, nth_error raw k = Some m ->
               Segments.matched m = true -> nth_error orig k = Some m;
  inv_pending : forall k m, nth_error raw k = Some m ->
                  Segments.matched m = true ->
                  nth k assigned None <> None \/ In (k, m) todo
}.

(** A search state of Pass 1 holds no window or a window with its start
    at or before its end. *)
Definition goodBest (b : Segments.Best) : Prop :=
  let '(_, bestStart, bestEnd) := b in
  (bestStart = (-1)%Z) \/ (0 <= bestStart <= bestEnd)%Z.

(** A raw match of Pass 1: matched entries carry a proper cue range. *)
Definition properRange (m : Segments.SegmentMatch) : Prop :=
  Segments.matched m = true ->
  exists s e, Segments.startCueIdx m = Some s /\
              Segments.endCueIdx m = Some e /\ (s <= e)%nat.

(** The fields of a segment match that the time steps leave alone. *)
Definition matchKey (m : Segments.SegmentMatch) : bool * option nat * option nat :=
  (Segments.matched m, Segments.startCueIdx m, Segments.endCueIdx m).

(** Sample data: four cues; three segment scripts whose best windows
    come in the wrong order (the first reads like cue 3, the last like
    cue 2); and three scripts in the order of the cues. *)
Definition talkCues : list Cue :=
  [ mkCue (lit "1") 0 3 (lit "Welcome everyone to the quarterly revenue presentation");
    mkCue (lit "2") 3 6 (lit "Revenue increased twenty percent this quarter");
    mkCue (lit "3") 6 9 (lit "Customers loved the redesigned dashboard experience");
    mkCue (lit "4") 9 12 (lit "Thanks for watching goodbye") ].

Definition talkSegments : list Segments.Segment :=
  [ Segments.mkSegment 1
      (lit "Customers loved the redesigned dashboard experience") [];
    Segments.mkSegment 2 (lit "short") [];
    Segments.mkSegment 3
      (lit "Revenue increased twenty percent this quarter, thanks for watching") [] ].

Definition orderedSegments : list Segments.Segment :=
  [ Segments.mkSegment 1
      (lit "Welcome everyone to the quarterly revenue presentation") [];
    Segments.mkSegment 2 (lit "short") [];
    Segments.mkSegment 3
      (lit "Customers loved the redesigned dashboard experience") [] ].

(** ** Timestamps ([timeToSeconds]) *)

(** The values a JavaScript number can take here: [NaN], the two
    infinities, or a finite number. *)
Inductive jsnum : Type :=
| NaN
| PosInf
| NegInf
| Num (q : Q).

Definition Qsign (q : Q) : Z := Z.sgn (Qnum q).

(** [a * b] *)
Definition jsMul (a b : jsnum) : jsnum :=
  let inf (positive : bool) := if positive then PosInf else NegInf in
  let infTimes (positive : bool) (q : Q) :=
    match Qsign q with
    | Z0 => NaN
    | Zpos _ => inf positive
    | Zneg _ => inf (negb positive)
    end in
  match a, b with
  | NaN, _ | _, NaN => NaN
  | Num x, Num y => Num (x * y)
  | PosInf, PosInf | NegInf, NegInf => PosInf
  | PosInf, NegInf | NegInf, PosInf => NegInf
  | PosInf, Num y | Num y, PosInf => infTimes true y
  | NegInf, Num y | Num y, NegInf => infTimes false y
  end.

(** [a + b] *)
Definition jsAdd (a b : jsnum) : jsnum :=
  match a, b with
  | NaN, _ | _, NaN => NaN
  | Num x, Num y => Num (x + y)
  | PosInf, NegInf | NegInf, PosInf => NaN
  | PosInf, _ | _, PosInf => PosInf
  | NegInf, _ | _, NegInf => NegInf
  end.

(** [x || 0] on a number: [NaN] and zero are the falsy numbers. *)
Definition orZero (x : jsnum) : jsnum :=
  match x with
  | NaN => Num 0
  | Num q => if Qeq_bool q 0 then Num 0 else Num q
  | _ => x
  end.

(** The longest prefix of [l] whose elements satisfy [p], and the rest. *)
Fixpoint span {A : Type} (p : A -> bool) (l : list A) : list A * list A :=
  match l with
  | [] => ([], [])
  | x :: t =>
      if p x then let '(a, b) := span p t in (x :: a, b) else ([], l)
  end.

Definition digitVal (c : ascii) : Z := (Z.of_N (code c) - 48)%Z.

(** The value of a run of decimal digits. *)
Definition digitsVal (ds : str) : Z :=
  fold_left (fun acc c => (acc * 10 + digitVal c)%Z) ds 0%Z.

(** An optional sign: whether it is [-], and what follows. *)
Definition stripSign (s : str) : bool * str :=
  match s with
  | c :: t =>
      if ascii_dec c "-" then (true, t)
      else if ascii_dec c "+" then (false, t)
      else (false, s)
  | [] => (false, s)
  end.

Definition signed (neg : bool) (z : Z) : Z := if neg then (- z)%Z else z.

(** [parseInt(s, 10)]: leading white space, an optional sign, then the
    longest run of decimal digits; [NaN] when there is none. *)
Definition parseInt10 (s : str) : jsnum :=
  let '(neg, r) := stripSign (trimStart s) in
  let '(ds, _) := span isDigit r in
  match ds with
  | [] => NaN
  | _ => Num (inject_Z (signed neg (digitsVal ds)))
  end.

(** The exponent read from an [ExponentPart] at the head of [s] ([e] or
    [E], an optional sign, at least one digit), [0] when [s] starts with
    none. *)
Definition exponentPart (s : str) : Z :=
  match s with
  | c :: t =>
      if Ascii.eqb c "e" || Ascii.eqb c "E" then
        let '(neg, r) := stripSign t in
        let '(ds, _) := span isDigit r in
        match ds with
        | [] => 0%Z
        | _ => signed neg (digitsVal ds)
        end
      else 0%Z
  | [] => 0%Z
  end.

(** [parseFloat(s)]: leading white space, then the longest prefix that
    is a decimal literal ([Infinity], digits with an optional fraction
    and exponent, or a fraction that starts with the point); [NaN] when
    there is none. *)
Definition parseFloat (s : str) : jsnum :=
  let '(neg, r) := stripSign (trimStart s) in
  if startsWith r (lit "Infinity") then (if neg then NegInf else PosInf)
  else
    let '(intDs, r1) := span isDigit r in
    let '(fracDs, r2) :=
      match r1 with
      | c :: t => if ascii_dec c "." then span isDigit t else ([], r1)
      | [] => ([], r1)
      end in
    match intDs, fracDs with
    | [], [] => NaN
    | _, _ =>
        let mantissa :=
          inject_Z (digitsVal intDs)
          + inject_Z (digitsVal fracDs)
            / inject_Z (10 ^ Z.of_nat (length fracDs)) in
        let v := mantissa * Qpower 10 (exponentPart r2) in
        Num (if neg then - v else v)
    end.

(** [s.replace(a, b)] with a one-character pattern: the first occurrence
    only. *)
Fixpoint replaceFirst (a b : ascii) (s : str) : str :=
  match s with
  | [] => []
  | c :: t => if ascii_dec c a then b :: t else c :: replaceFirst a b t
  end.

(** [timeToSeconds(timeStr)] *)
Definition timeToSeconds (timeStr : str) : jsnum :=
  if negb (nonEmpty timeStr) then Num 0
  else
    let clean := replaceFirst "," "." timeStr in
    let parts := split ":" clean in
    match parts with
    | [p0; p1; p2] =>
        let hours := parseInt10 p0 in
        let minutes := parseInt10 p1 in
        let seconds := parseFloat p2 in
        jsAdd (jsAdd (jsMul hours (Num 3600)) (jsMul minutes (Num 60))) seconds
    | _ => orZero (parseFloat clean)
    end.

(** A finite result in lowest terms, to compare results. *)
Definition normal (x : jsnum) : jsnum :=
  match x with
  | Num q => Num (Qred q)
  | _ => x
  end.

(** The shape [HH:MM:SS,mmm] or [HH:MM:SS.mmm] of a well-formed
    timestamp. *)
Definition isTimestamp (s : str) : bool :=
  match s with
  | [h1; h2; c1; m1; m2; c2; s1; s2; sep; f1; f2; f3] =>
      forallb isDigit [h1; h2; m1; m2; s1; s2; f1; f2; f3]
      && Ascii.eqb c1 ":" && Ascii.eqb c2 ":"
      && (Ascii.eqb sep "," || Ascii.eqb sep ".")
  | _ => false
  end.

(** The first character after the leading white space of [s] can begin
    a decimal literal (a digit, a sign, the point, the comma that
    [timeToSeconds] turns into a point, or the [I] of [Infinity]). *)
Definition numericStart (s : str) : bool :=
  match trimStart s with
  | c :: _ =>
      isDigit c
      || existsb (Ascii.eqb c) ["+"; "-"; "."; ","; "I"]%char
  | [] => false
  end.

(** ** Statements about the cue list *)

(** The cues are in time order, and none starts after the last one
    ends. *)
Definition cuesInOrder (cues : list Cue) : Prop :=
  (forall i j, (i <= j < length cues)%nat ->
     startTime (cueAt cues i) <= startTime (cueAt cues j)) /\
  (forall i, (i < length cues)%nat ->
     startTime (cueAt cues i) <= endTime (cueAt cues (length cues - 1))).

(** ** Further statements *)

(** The alphabet of normalised text: [a-z], [0-9], [_] and the space. *)
Definition normalAlphabet (c : ascii) : bool :=
  between 97 122 c || isDigit c || (code c =? 95)%N || (code c =? 32)%N.

(** What an entry of the mapping records about beat [pos] with text
    [rawText]: a matched entry points at an existing cue and carries that
    cue's id, text and start time; an unmatched entry carries none. *)
Definition entryOk (cueList : list Cue) (pos : nat) (rawText : str)
    (m : BeatMatch) : Prop :=
  beatIdx m = pos /\ beatText m = rawText /\
  match cueIdx m with
  | Some k =>
      (k < length cueList)%nat /\
      cueId m = Some (index (cueAt cueList k)) /\
      cueText m = Some (text (cueAt cueList k)) /\
      time m = Some (startTime (cueAt cueList k)) /\
      (8 <= score m <= 100)%Z /\ skipped m = None
  | None =>
      score m = 0%Z /\ cueId m = None /\ cueText m = None /\ time m = None
  end.

(** A search state of Pass 1 over [n] cues: a score between 0 and 1, and
    no window or a window inside the cue list that spans at most 40
    cues. *)
Definition windowOk (n : nat) (b : Segments.Best) : Prop :=
  let '(bestScore, bestStart, bestEnd) := b in
  0 <= bestScore <= 1 /\
  (bestStart = (-1)%Z \/
   (0 <= bestStart <= bestEnd /\ bestEnd < Z.of_nat n /\
    bestEnd < bestStart + 40)%Z).

(** What Pass 1 reports for a segment over [n] cues. *)
Definition rawMatchOk (n : nat) (seg : Segments.Segment)
    (m : Segments.SegmentMatch) : Prop :=
  Segments.num m = Segments.segNum seg /\
  Segments.htmlFiles m = Segments.segFiles seg /\
  Segments.startTime m = None /\ Segments.endTime m = None /\
  (0 <= Segments.confidence m <= 100)%Z /\
  (Segments.matched m = true ->
     exists s e,
       Segments.startCueIdx m = Some s /\ Segments.endCueIdx m = Some e /\
       (s <= e < n)%nat /\ (e < s + 40)%nat /\
       (25 <= Segments.confidence m)%Z /\
       (10 <= length (normalize (Segments.script seg)))%nat) /\
  (Segments.matched m = false ->
     Segments.startCueIdx m = None /\ Segments.endCueIdx m = None).

(** What [mapSrtToSegments] returns for a segment, over the cue list
    [cueList]. *)
Definition segmentMatchOk (cueList : list Cue) (seg : Segments.Segment)
    (m : Segments.SegmentMatch) : Prop :=
  Segments.num m = Segments.segNum seg /\
  Segments.htmlFiles m = Segments.segFiles seg /\
  (0 <= Segments.confidence m <= 100)%Z /\
  timesSet m /\
  (Segments.matched m = true ->
     exists s e,
       Segments.startCueIdx m = Some s /\ Segments.endCueIdx m = Some e /\
       (s <= e < length cueList)%nat /\ (e < s + 40)%nat /\
       (25 <= Segments.confidence m)%Z /\
       (10 <= length (normalize (Segments.script seg)))%nat /\
       Segments.startTime m = Some (startTime (cueAt cueList s)) /\
       Segments.endTime m = Some (endTime (cueAt cueList e))) /\
  (Segments.matched m = false ->
     Segments.startCueIdx m = None /\ Segments.endCueIdx m = None).

(** No cue starts before an earlier cue has ended. *)
Definition cuesSequential (cueList : list Cue) : Prop :=
  forall a b, (a < b < length cueList)%nat ->
    endTime (cueAt cueList a) <= startTime (cueAt cueList b).

(** ** Writing timestamps ([secondsToSrtTime], services/beat-remap.js) *)

(** The decimal digit of a number below ten. *)
Definition digitChar (d : N) : ascii := ascii_of_N (48 + d).

(** The decimal digits of [n], most significant first, in front of
    [acc]; [fuel] bounds the number of digits. *)
Fixpoint digitsFuel (fuel : nat) (n : N) (acc : str) : str :=
  match fuel with
  | O => acc
  | S fuel' =>
      let acc' := digitChar (n mod 10) :: acc in
      if (n / 10 =? 0)%N then acc' else digitsFuel fuel' (n / 10) acc'
  end.

(** [String(n)] for an integer [n]. *)
Definition intToString (z : Z) : str :=
  let digits (n : N) := digitsFuel (S (N.to_nat (N.log2 n))) n [] in
  if (z <? 0)%Z then "-"%char :: digits (Z.to_N (- z)) else digits (Z.to_N z).

(** [s.padStart(n, '0')] *)
Definition padStart0 (n : nat) (s : str) : str :=
  repeat "0"%char (n - length s) ++ s.

(** [Math.floor(x)] *)
Definition mathFloor (x : Q) : Z := Qfloor x.

(** The integer part of [x], towards zero. *)
Definition truncate (x : Q) : Z :=
  if Qle_bool 0 x then Qfloor x else Qceiling x.

(** [x % y] on numbers: the remainder takes the sign of [x]. *)
Definition jsRem (x y : Q) : Q := x - y * inject_Z (truncate (x / y)).

(** [secondsToSrtTime(seconds)] *)
Definition secondsToSrtTime (seconds : Q) : str :=
  let h := mathFloor (seconds / 3600) in
  let m := mathFloor (jsRem seconds 3600 / 60) in
  let s := jsRem seconds 60 in
  let ms := mathRound ((s - inject_Z (mathFloor s)) * 1000) in
  padStart0 2 (intToString h) ++ ":"%char
    :: padStart0 2 (intToString m) ++ ":"%char
    :: padStart0 2 (intToString (mathFloor s)) ++ ","%char
    :: padStart0 3 (intToString ms).

(** The value of a timestamp made of three runs of digits and a run of
    fraction digits. *)
Definition clockValue (hs ms ss fs : str) : Q :=
  inject_Z (digitsVal hs) * 3600 + inject_Z (digitsVal ms) * 60
  + (inject_Z (digitsVal ss)
     + inject_Z (digitsVal fs) / inject_Z (10 ^ Z.of_nat (length fs))).

(** The value written in a timestamp of the form [HH:MM:SS,mmm]. *)
Definition timestampValue (s : str) : Q :=
  match s with
  | [h1; h2; _; m1; m2; _; s1; s2; _; f1; f2; f3] =>
      clockValue [h1; h2] [m1; m2] [s1; s2] [f1; f2; f3]
  | _ => 0
  end.


(** ** Beat times of a segment (routes/import.js) *)

(** The beat times that [POST /match-srt] gives to an HTML file of a
    segment with times [startTime] and [endTime]: [beatCount] beats spread
    evenly over the segment ([beatCount] is [analysis.beatCount || 0], and
    [0] without an analysis). *)
Definition distributeBeats (startTime endTime : Q) (beatCount : nat) : list Q :=
  if (0 <? beatCount)%nat then
    let duration := endTime - startTime in
    let beatTimes :=
      map (fun i => roundMs (startTime
                             + (ofNat i / Qmax 1 (ofNat beatCount - 1)) * duration))
          (seq 0 beatCount) in
    if (beatCount =? 1)%nat then [roundMs startTime] else beatTimes
  else [roundMs startTime].

(** The beat times that [POST /rematch-segment] writes for the new range
    of a segment ([beatCount] is [analysis.beatCount || 1], and [1]
    without an analysis). *)
Definition redistributeBeats (startTime newEndTime : Q) (beatCount : nat)
    : list Q :=
  let duration := newEndTime - startTime in
  if (1 <? beatCount)%nat then
    map (fun i => roundMs (startTime
                           + (ofNat i / (ofNat beatCount - 1)) * duration))
        (seq 0 beatCount)
  else [roundMs startTime].

(** [Math.abs(x)] *)
Definition mathAbs (x : Q) : Q := if Qle_bool 0 x then x else - x.

(** The callback of the [reduce] in [POST /rematch-segment]. *)
Definition closerCue (newStartTime : Q) (best c : Cue) : Cue :=
  if Qltb (mathAbs (startTime c - newStartTime))
          (mathAbs (startTime best - newStartTime))
  then c else best.

(** [allCues.reduce(..., allCues[0])]: the cue at or closest to
    [newStartTime]; [None] is the [undefined] that an empty cue list
    gives. *)
Definition closestCue (allCues : list Cue) (newStartTime : Q) : option Cue :=
  match allCues with
  | [] => None
  | c0 :: _ => Some (fold_left (closerCue newStartTime) allCues c0)
  end.

(** ** The frame schedule ([captureFrames], services/puppeteer-capture.js) *)

(** [config.FPS] *)
Definition FPS : Q := 30.

(** [x] put into the ascending list [l], after the elements that are
    not greater. *)
Fixpoint insertAsc (x : Q) (l : list Q) : list Q :=
  match l with
  | [] => [x]
  | y :: r => if Qltb x y then x :: l else y :: insertAsc x r
  end.

(** [[...beatTimes].sort((a, b) => a - b)] *)
Definition sortAsc (l : list Q) : list Q :=
  fold_left (fun acc x => insertAsc x acc) l [].

(** What a frame of the output is: a fresh screenshot of the page, or the
    last captured frame again. *)
Inductive Shot : Type := Screenshot | Reuse.

(** The variables of the frame loop: the next beat to click, the time of
    the last click ([None] is [-Infinity]) and whether a frame has been
    captured. *)
Record Capture : Type := {
  nextBeatIdx : nat;
  clickedAt : option Q;
  lastFrame : bool
}.

(** What the loop does at one frame: the beat whose click it sends to the
    page, if any, and the frame it yields. *)
Record FrameEvent : Type := {
  clicked : option nat;
  shot : Shot
}.

(** The body of the frame loop at frame [f] (the render is not
    cancelled). *)
Definition captureStep (localBeats : list Q) (transitionMs : Q)
    (st : Capture) (f : nat) : Capture * FrameEvent :=
  let frameIntervalMs := 1000 / FPS in
  let currentTimeMs := ofNat f * frameIntervalMs in
  let currentTimeSec := currentTimeMs / 1000 in
  let justClicked :=
    match nth_error localBeats (nextBeatIdx st) with
    | Some beat => Qle_bool beat currentTimeSec
    | None => false
    end in
  let clickedAt' := if justClicked then Some currentTimeMs else clickedAt st in
  let nextBeatIdx' :=
    if justClicked then S (nextBeatIdx st) else nextBeatIdx st in
  let inTransition :=
    match clickedAt' with
    | Some c =>
        Qle_bool 0 (currentTimeMs - c) && Qle_bool (currentTimeMs - c) transitionMs
    | None => false
    end in
  let shot_ :=
    if inTransition then Screenshot
    else if lastFrame st then Reuse else Screenshot in
  ({| nextBeatIdx := nextBeatIdx'; clickedAt := clickedAt'; lastFrame := true |},
   {| clicked := if justClicked then Some (nextBeatIdx st) else None;
      shot := shot_ |}).

(** The frame loop from frame [f] on, for [fuel] frames. *)
Fixpoint captureLoop (localBeats : list Q) (transitionMs : Q) (fuel f : nat)
    (st : Capture) : list FrameEvent :=
  match fuel with
  | O => []
  | S fuel' =>
      let '(st', ev) := captureStep localBeats transitionMs st f in
      ev :: captureLoop localBeats transitionMs fuel' (S f) st'
  end.

(** The beat times shifted so that the first beat is at time 0. *)
Definition localBeatsOf (beatTimes : list Q) : list Q :=
  let sortedBeats := sortAsc beatTimes in
  let timelineOffset := hd 0 sortedBeats in
  map (fun t => t - timelineOffset) sortedBeats.

(** The number of frames of the clip. *)
Definition totalFramesOf (beatTimes : list Q) (transitionMs : Q) : Z :=
  let localBeats := localBeatsOf beatTimes in
  let lastLocalBeat := last localBeats 0 in
  let totalDuration := lastLocalBeat + transitionMs / 1000 + (1 # 2) in
  Qceiling (totalDuration * FPS).

(** [captureFrames(filePath, beatTimes, transitionMs, ...)]: the clicks
    sent to the page and the frames yielded, frame by frame. *)
Definition captureFrames (beatTimes : list Q) (transitionMs : Q)
    : list FrameEvent :=
  captureLoop (localBeatsOf beatTimes) transitionMs
    (Z.to_nat (totalFramesOf beatTimes transitionMs)) 0
    {| nextBeatIdx := 0; clickedAt := None; lastFrame := false |}.

(** Each element of [l] is at least one frame interval after the one
    before it. *)
Fixpoint framesApart (l : list Q) : bool :=
  match l with
  | a :: (b :: _) as r => Qle_bool (a + 1 / FPS) b && framesApart r
  | _ => true
  end.

(** The first frame whose time is not before [t]. *)
Definition frameAt (t : Q) : nat := Z.to_nat (Qceiling (t * FPS)).

(** Before frame [f]: the beats that fall on an earlier frame have been
    clicked, and no other. *)
Definition clicksDone (localBeats : list Q) (f : nat) (st : Capture) : Prop :=
  (nextBeatIdx st <= length localBeats)%nat /\
  (forall k, (k < nextBeatIdx st)%nat -> (frameAt (nth k localBeats 0%Q) < f)%nat) /\
  (forall k, (nextBeatIdx st <= k < length localBeats)%nat ->
             (f <= frameAt (nth k localBeats 0%Q))%nat).

(** ** The text of a cue ([parseSrt], services/srt-parser.js) *)

(** The rest of [s] after its first [>], if it has one. *)
Fixpoint afterClose (s : str) : option str :=
  match s with
  | [] => None
  | c :: r => if ascii_dec c ">" then Some r else afterClose r
  end.

(** [.replace(/<[^>]*>/g, '')]: from left to right, each [<] that has a
    [>] after it is removed with everything up to the first such [>]; a
    [<] that has none stays. *)
Fixpoint stripTagsFrom (fuel : nat) (s : str) : str :=
  match fuel with
  | O => s
  | S fuel' =>
      match s with
      | [] => []
      | c :: r =>
          if ascii_dec c "<" then
            match afterClose r with
            | Some r' => stripTagsFrom fuel' r'
            | None => c :: stripTagsFrom fuel' r
            end
          else c :: stripTagsFrom fuel' r
      end
  end.

Definition stripTags (s : str) : str := stripTagsFrom (length s) s.

(** [cue.text.replace(/<[^>]*>/g, '').trim()] *)
Definition cleanText (raw : str) : str := trim (stripTags raw).

(** [s] holds no tag: no [<] with a [>] somewhere after it. *)
Definition noTag (s : str) : Prop :=
  forall p q r, s <> p ++ "<"%char :: q ++ ">"%char :: r.

(** ** Names of rendered clips
    ([startRender], services/renderer.js; [parseOutputFilename], the
    export route) *)

(** The timeline stamp [_@MMmSSsmmm] that [startRender] puts into the
    name of a clip. *)
Definition timelineStamp (timelineOffset : Q) : str :=
  let tMins := mathFloor (timelineOffset / 60) in
  let tSecs := mathFloor (jsRem timelineOffset 60) in
  let tMs := mathRound (jsRem timelineOffset 1 * 1000) in
  "_"%char :: "@"%char :: padStart0 2 (intToString tMins) ++ "m"%char
    :: padStart0 2 (intToString tSecs) ++ "s"%char
    :: padStart0 3 (intToString tMs).

(** The output name built by [startRender] from the base name of the
    HTML file, the sequence number ([None] is [null]), the time of the
    first beat and the variant label ([None] and the empty string are the
    falsy labels). *)
Definition outputNameOf (baseName : str) (sequenceNum : option nat)
    (timelineOffset : Q) (variantLabel : option str) : str :=
  let outputName := baseName in
  let outputName :=
    match sequenceNum with
    | Some n => padStart0 3 (intToString (Z.of_nat n)) ++ "_"%char :: outputName
    | None => outputName
    end in
  let outputName := outputName ++ timelineStamp timelineOffset in
  let outputName :=
    match variantLabel with
    | Some (c :: v) => outputName ++ "_"%char :: c :: v
    | _ => outputName
    end in
  outputName ++ lit ".mp4".

(** [a / d] for a number [d] above zero. *)
Definition jsDivBy (a : jsnum) (d : Q) : jsnum :=
  match a with
  | Num x => Num (x / d)
  | other => other
  end.

(** The characters that [.] does not match. *)
Definition isLineTerminator (c : ascii) : bool :=
  (code c =? 10)%N || (code c =? 13)%N.

Module ClipName.

(** [(?:_([^.]+))?\.mp4$] at [rest]: the variant, if there is one. *)
Definition matchEnd (rest : str) : option (option str) :=
  match rest with
  | "_"%char :: r =>
      let '(v, r') := span (fun c => negb (Ascii.eqb c ".")) r in
      if nonEmpty v && str_eqb r' (lit ".mp4") then Some (Some v) else None
  | _ => if str_eqb rest (lit ".mp4") then Some None else None
  end.

(** [_@(\d{2})m(\d{2})s(\d{3})(?:_([^.]+))?\.mp4$] at [s]. *)
Definition matchTail (s : str) : option (str * str * str * option str) :=
  match s with
  | u :: a :: m1 :: m2 :: m :: s1 :: s2 :: sc :: f1 :: f2 :: f3 :: rest =>
      if Ascii.eqb u "_" && Ascii.eqb a "@"
         && isDigit m1 && isDigit m2 && Ascii.eqb m "m"
         && isDigit s1 && isDigit s2 && Ascii.eqb sc "s"
         && isDigit f1 && isDigit f2 && isDigit f3
      then
        match matchEnd rest with
        | Some variant => Some ([m1; m2], [s1; s2], [f1; f2; f3], variant)
        | None => None
        end
      else None
  | _ => None
  end.

(** The lazy group [(.+?)]: the base name is [rev acc] so far; it ends
    at the first place where the rest of the pattern matches, and grows by
    one character that is not a line terminator otherwise. *)
Fixpoint matchBase (acc : str) (s : str)
    : option (str * (str * str * str * option str)) :=
  match matchTail s with
  | Some t => Some (rev acc, t)
  | None =>
      match s with
      | [] => None
      | c :: r => if isLineTerminator c then None else matchBase (c :: acc) r
      end
  end.

(** [filename.match(/^(\d{3})_(.+?)_@(\d{2})m(\d{2})s(\d{3})(?:_([^.]+))?\.mp4$/)] *)
Definition matchName (filename : str)
    : option (str * str * (str * str * str * option str)) :=
  match filename with
  | d1 :: d2 :: d3 :: u :: c :: r =>
      if isDigit d1 && isDigit d2 && isDigit d3 && Ascii.eqb u "_"
         && negb (isLineTerminator c)
      then
        match matchBase [c] r with
        | Some (base, t) => Some ([d1; d2; d3], base, t)
        | None => None
        end
      else None
  | _ => None
  end.

Record Parsed : Type := {
  seq : jsnum;
  baseName : str;
  variant : option str;
  offsetSec : jsnum;
  htmlName : str
}.

(** [parseOutputFilename(filename)]; [None] is [null]. *)
Definition parseOutputFilename (filename : str) : option Parsed :=
  match matchName filename with
  | None => None
  | Some (seq_, baseName_, (mm, ss, ms, variant_)) =>
      Some {| seq := parseInt10 seq_;
              baseName := baseName_;
              variant := variant_;
              offsetSec :=
                jsAdd (jsAdd (jsMul (parseInt10 mm) (Num 60)) (parseInt10 ss))
                      (jsDivBy (parseInt10 ms) 1000);
              htmlName := baseName_ ++ lit ".html" |}
  end.

End ClipName.

(** The label that [startRender] writes into a name: [None] when the
    label is falsy. *)
Definition writtenLabel (variantLabel : option str) : option str :=
  match variantLabel with
  | Some (c :: v) => Some (c :: v)
  | _ => None
  end.

(** The part of a name between the stamp and the extension. *)
Definition labelSuffix (variantLabel : option str) : str :=
  match writtenLabel variantLabel with
  | Some v => "_"%char :: v
  | None => []
  end.

(** ** Times in the timing editor ([TimingEditor], public/js/components) *)

(** [x.toFixed(3)] for a number [x]: the nearest multiple of 0.001 (the
    larger one of two), with at least one digit before the point. *)
Definition toFixed3 (x : Q) : str :=
  let body (y : Q) :=
    let n := mathRound (y * 1000) in
    let m := intToString n in
    let m := repeat "0"%char (4 - length m) ++ m in
    let k := length m in
    firstn (k - 3) m ++ "."%char :: skipn (k - 3) m in
  if Qltb x 0 then "-"%char :: body (- x) else body x.

(** [formatTime(seconds)]; [None] stands for [null], [undefined] and
    [NaN]. *)
Definition formatTime (seconds : option Q) : str :=
  match seconds with
  | None => lit "0:00.000"
  | Some x =>
      let m := mathFloor (x / 60) in
      let s := toFixed3 (jsRem x 60) in
      intToString m ++ ":"%char :: padStart0 6 s
  end.

(** [parseTime(str)] *)
Definition parseTime (s : str) : jsnum :=
  let s := trim s in
  if negb (nonEmpty s) then NaN
  else if includes s [":"%char] then
    match split ":" s with
    | [p0; p1; p2] =>
        jsAdd (jsAdd (jsMul (parseInt10 p0) (Num 3600))
                     (jsMul (parseInt10 p1) (Num 60)))
              (parseFloat p2)
    | [p0; p1] => jsAdd (jsMul (parseInt10 p0) (Num 60)) (parseFloat p1)
    | _ => parseFloat s
    end
  else parseFloat s.
(* ================================================================== *)
(** * Properties *)
(* ================================================================== *)

(** ** Lists and arrays *)

Lemma dropWhile_suffix {A : Type} (p : A -> bool) l :
  exists pre, l = pre ++ dropWhile p l.
Proof.
  induction l as [|x t [pre IH]]; simpl.
  - now exists [].
  - destruct (p x).
    + exists (x :: pre). simpl. now f_equal.
    + now exists [].
Qed.

Lemma dropWhile_idem {A : Type} (p : A -> bool) l :
  dropWhile p (dropWhile p l) = dropWhile p l.
Proof.
  induction l as [|x t IH]; simpl; auto.
  destruct (p x) eqn:E; auto. simpl. now rewrite E.
Qed.

Lemma filter_all {A : Type} (p : A -> bool) l :
  (forall x, In x l -> p x = true) -> filter p l = l.
Proof.
  induction l as [|x t IH]; simpl; intros H; auto.
  rewrite (H x) by auto. f_equal. apply IH. auto.
Qed.

Lemma nth_map_seq {A : Type} (f : nat -> A) n j d :
  (j < n)%nat -> nth j (map f (seq 0 n)) d = f j.
Proof.
  intros L.
  rewrite (nth_indep _ d (f 0%nat)) by now rewrite length_map, length_seq.
  rewrite map_nth, seq_nth by auto. reflexivity.
Qed.

Lemma nth_map_in {A B : Type} (f : A -> B) (l : list A) i d d' :
  (i < length l)%nat -> nth i (map f l) d = f (nth i l d').
Proof.
  intros L. rewrite (nth_indep _ d (f d')) by now rewrite length_map.
  apply map_nth.
Qed.

Lemma nth_last_elt {A : Type} (l : list A) d :
  nth (length l - 1) l d = last l d.
Proof.
  induction l as [|x t IH]; simpl; auto.
  destruct t as [|y t]; simpl in *; auto.
  now rewrite Nat.sub_0_r in IH.
Qed.

Lemma map_map_seq {A B : Type} (g : A -> B) (f : nat -> A) n :
  map g (map f (seq 0 n)) = map (fun i => g (f i)) (seq 0 n).
Proof. apply map_map. Qed.

Lemma In_combine_seq {A : Type} (l : list A) : forall i0 k x,
  In (k, x) (combine (seq i0 (length l)) l) <->
  (i0 <= k)%nat /\ nth_error l (k - i0) = Some x.
Proof.
  induction l as [|y t IH]; intros i0 k x; simpl.
  - split; [tauto|]. intros [_ H]. destruct (k - i0)%nat; discriminate.
  - rewrite IH. split.
    + intros [[= <- <-] | [L E]].
      * rewrite Nat.sub_diag. auto.
      * split; [lia|]. replace (k - i0)%nat with (S (k - S i0)) by lia. auto.
    + intros [L E]. destruct (Nat.eq_dec k i0) as [->|N].
      * rewrite Nat.sub_diag in E. simpl in E. left. congruence.
      * right. split; [lia|].
        replace (k - i0)%nat with (S (k - S i0)) in E by lia. auto.
Qed.

Lemma nth_repeat_None {A : Type} n k : nth k (repeat (@None A) n) None = None.
Proof.
  revert k. induction n as [|n IH]; intros [|k]; simpl; auto.
Qed.

Lemma isSome_Some {A : Type} (o : option A) :
  isSome o = true -> exists a, o = Some a.
Proof. destruct o; [eauto | discriminate]. Qed.

Lemma isSome_None {A : Type} (o : option A) : isSome o = false -> o = None.
Proof. destruct o; [discriminate | auto]. Qed.

(** [setAt] *)

Lemma setAt_length {A : Type} (l : list A) : forall i v,
  length (setAt i v l) = length l.
Proof.
  induction l as [|x t IH]; intros [|i] v; simpl; auto.
Qed.

Lemma setAt_beyond {A : Type} (l : list A) : forall i v,
  (length l <= i)%nat -> setAt i v l = l.
Proof.
  induction l as [|x t IH]; intros [|i] v L; simpl in *; auto; try lia.
  f_equal. apply IH. lia.
Qed.

Lemma setAt_middle {A : Type} (pre : list A) x v post :
  setAt (length pre) v (pre ++ x :: post) = pre ++ v :: post.
Proof. induction pre as [|y pre IH]; simpl; auto. now rewrite IH. Qed.

Lemma setAt_nth {A : Type} (l : list A) : forall i d,
  setAt i (nth i l d) l = l.
Proof.
  induction l as [|x t IH]; intros [|i] d; simpl; auto. now rewrite IH.
Qed.

Lemma map_setAt {A B : Type} (f : A -> B) (l : list A) : forall i x,
  map f (setAt i x l) = setAt i (f x) (map f l).
Proof.
  induction l as [|y t IH]; intros [|i] x; simpl; auto. now rewrite IH.
Qed.

Lemma Forall_setAt {A : Type} (P : A -> Prop) (l : list A) : forall i x,
  Forall P l -> P x -> Forall P (setAt i x l).
Proof.
  induction l as [|y t IH]; intros [|i] x F Px; simpl; auto;
    inversion F; subst; constructor; auto.
Qed.

Lemma nth_setAt_same {A : Type} (l : list A) : forall i x d,
  (i < length l)%nat -> nth i (setAt i x l) d = x.
Proof.
  induction l as [|y t IH]; intros [|i] x d L; simpl in *; try lia; auto.
  apply IH. lia.
Qed.

Lemma nth_setAt_other {A : Type} (l : list A) : forall i j x d,
  i <> j -> nth j (setAt i x l) d = nth j l d.
Proof.
  induction l as [|y t IH]; intros [|i] [|j] x d N; simpl; auto; congruence.
Qed.

Lemma nth_error_setAt_same {A : Type} (l : list A) : forall i x,
  (i < length l)%nat -> nth_error (setAt i x l) i = Some x.
Proof.
  induction l as [|y t IH]; intros [|i] x L; simpl in *; try lia; auto.
  apply IH. lia.
Qed.

Lemma nth_error_setAt_other {A : Type} (l : list A) : forall i j x,
  i <> j -> nth_error (setAt i x l) j = nth_error l j.
Proof.
  induction l as [|y t IH]; intros [|i] [|j] x N; simpl; auto; congruence.
Qed.

(** The sign tests of the loop bodies, once the neighbour indices are
    known. *)
Ltac sign_tests :=
  repeat match goal with
         | |- context [(0 <=? -1)%Z] =>
             replace (0 <=? -1)%Z with false by reflexivity
         | |- context [(0 <=? Z.of_nat ?p)%Z] =>
             replace (0 <=? Z.of_nat p)%Z with true
               by (symmetry; apply Z.leb_le; lia)
         | |- context [(0 <? ?e)%Z] =>
             replace (0 <? e)%Z with true by (symmetry; apply Z.ltb_lt; lia)
         end;
  cbn [andb].

(** ** Characters *)

Lemma normChar_lower c : normChar c = true -> lowerChar c = c.
Proof.
  destruct c as [[] [] [] [] [] [] [] []]; vm_compute; congruence.
Qed.

Lemma normChar_keep c : normChar c = true -> (isWord c || isSpace c) = true.
Proof.
  destruct c as [[] [] [] [] [] [] [] []]; vm_compute; congruence.
Qed.

Lemma normChar_of_word c :
  isSpace (lowerChar c) = false ->
  (isWord (lowerChar c) || isSpace (lowerChar c)) = true ->
  normChar (lowerChar c) = true.
Proof.
  destruct c as [[] [] [] [] [] [] [] []]; vm_compute; congruence.
Qed.

(** ** [normalize] *)

Lemma trimStart_suffix s : exists pre, s = pre ++ trimStart s.
Proof. apply dropWhile_suffix. Qed.

Lemma trimEnd_prefix s : exists post, s = trimEnd s ++ post.
Proof.
  unfold trimEnd.
  destruct (dropWhile_suffix isSpace (rev s)) as [pre H].
  exists (rev pre).
  rewrite <- rev_app_distr, <- H. now rewrite rev_involutive.
Qed.

Lemma headOk_trimStart s : headOk (trimStart s).
Proof.
  unfold trimStart. induction s as [|c t IH]; simpl; auto.
  destruct (isSpace c) eqn:E; simpl; auto.
Qed.

Lemma trimStart_fix s : headOk s -> trimStart s = s.
Proof.
  destruct s as [|c t]; simpl; auto.
  unfold trimStart. simpl. now intros ->.
Qed.

Lemma headOk_trimEnd s : headOk s -> headOk (trimEnd s).
Proof.
  intros H. destruct (trimEnd_prefix s) as [post E].
  destruct (trimEnd s) as [|c t]; simpl; auto.
  rewrite E in H. exact H.
Qed.

Lemma trimEnd_idem s : trimEnd (trimEnd s) = trimEnd s.
Proof.
  unfold trimEnd. rewrite rev_involutive. now rewrite dropWhile_idem.
Qed.

Lemma trim_idem s : trim (trim s) = trim s.
Proof.
  unfold trim.
  rewrite (trimStart_fix _ (headOk_trimEnd _ (headOk_trimStart s))).
  apply trimEnd_idem.
Qed.

Lemma sepOk_weaken b s : sepOk b s -> sepOk false s.
Proof.
  destruct s as [|c t]; simpl; auto.
  destruct (isSpace c); auto. intros (? & _ & ?). auto.
Qed.

Lemma sepOk_app_l l1 : forall b l2, sepOk b (l1 ++ l2) -> sepOk b l1.
Proof.
  induction l1 as [|c t IH]; intros b l2; simpl; auto.
  destruct (isSpace c).
  - intros (? & ? & ?). repeat split; eauto.
  - eauto.
Qed.

Lemma sepOk_app_r l1 : forall b l2, sepOk b (l1 ++ l2) -> sepOk false l2.
Proof.
  induction l1 as [|c t IH]; intros b l2; simpl.
  - apply sepOk_weaken.
  - destruct (isSpace c).
    + intros (_ & _ & ?). eauto.
    + eauto.
Qed.

Lemma sepOk_collapseFrom s : forall b, sepOk b (collapseFrom b s).
Proof.
  induction s as [|c t IH]; intros b; simpl; auto.
  destruct (isSpace c) eqn:E.
  - destruct b.
    + (* inside a run: nothing is emitted, the next output follows white space *)
      apply IH.
    + simpl. repeat split; auto.
  - simpl. rewrite E. apply IH.
Qed.

Lemma collapseFrom_fix s : forall b, sepOk b s -> collapseFrom b s = s.
Proof.
  induction s as [|c t IH]; intros b; simpl; auto.
  destruct (isSpace c).
  - intros (-> & -> & H). f_equal. now apply IH.
  - intros H. f_equal. now apply IH.
Qed.

Lemma normChar_collapseFrom s : forall b,
  Forall (fun c => normChar c = true)
         (collapseFrom b (replaceNonWord (toLowerCase s))).
Proof.
  induction s as [|c t IH]; intros b; simpl; auto.
  destruct (isWord (lowerChar c) || isSpace (lowerChar c)) eqn:K.
  - destruct (isSpace (lowerChar c)) eqn:E.
    + destruct b; [apply IH | constructor; [reflexivity | apply IH]].
    + constructor; [| apply IH].
      apply normChar_of_word; [exact E | now rewrite E].
  - change (isSpace SP) with true. cbv iota.
    destruct b; [apply IH | constructor; [reflexivity | apply IH]].
Qed.

Lemma toLowerCase_fix s :
  Forall (fun c => normChar c = true) s -> toLowerCase s = s.
Proof.
  induction 1 as [|c t Hc _ IH]; simpl; auto.
  now rewrite (normChar_lower _ Hc), IH.
Qed.

Lemma replaceNonWord_fix s :
  Forall (fun c => normChar c = true) s -> replaceNonWord s = s.
Proof.
  induction 1 as [|c t Hc _ IH]; simpl; auto.
  now rewrite (normChar_keep _ Hc), IH.
Qed.

(** The shape of every result of [normalize]: lower-case word characters
    separated by single spaces, with no space at either end. *)
Lemma normalize_shape s :
  Forall (fun c => normChar c = true) (normalize s) /\
  sepOk false (normalize s) /\
  trim (normalize s) = normalize s.
Proof.
  unfold normalize.
  set (r := collapseSpaces (replaceNonWord (toLowerCase s))).
  assert (F : Forall (fun c => normChar c = true) r)
    by apply normChar_collapseFrom.
  assert (S : sepOk false r) by apply sepOk_collapseFrom.
  unfold trim at 1 2 3.
  destruct (trimStart_suffix r) as [pre E1].
  destruct (trimEnd_prefix (trimStart r)) as [post E2].
  split; [|split].
  - rewrite E1 in F. apply Forall_app in F as [_ F].
    rewrite E2 in F. now apply Forall_app in F as [F _].
  - rewrite E1 in S. apply sepOk_app_r in S.
    rewrite E2 in S. now apply sepOk_app_l in S.
  - apply (trim_idem r).
Qed.

Lemma normalize_headOk s : headOk (normalize s).
Proof.
  unfold normalize, trim. apply headOk_trimEnd, headOk_trimStart.
Qed.

Lemma nonEmpty_true s : s <> [] -> nonEmpty s = true.
Proof. destruct s; [congruence | reflexivity]. Qed.

(** C8. Normalisation is idempotent: for every string [s],
    [normalize (normalize s) = normalize s]. *)
Theorem normalize_idempotent (s : str) :
  normalize (normalize s) = normalize s.
Proof.
  destruct (normalize_shape s) as (F & S & T).
  unfold normalize at 1.
  rewrite (toLowerCase_fix _ F), (replaceNonWord_fix _ F).
  unfold collapseSpaces. rewrite (collapseFrom_fix _ _ S).
  exact T.
Qed.

(** ** [similarity] *)

Lemma ofNat_nonneg n : 0 <= ofNat n.
Proof.
  unfold ofNat. change 0 with (inject_Z 0). rewrite <- Zle_Qle. lia.
Qed.

Lemma ofNat_pos n : (0 < n)%nat -> 0 < ofNat n.
Proof.
  intros H. unfold ofNat. change 0 with (inject_Z 0). rewrite <- Zlt_Qlt. lia.
Qed.

Lemma ratio_nonneg n a b : 0 <= ratio n a b.
Proof.
  unfold ratio, Qdiv.
  apply Qmult_le_0_compat; [apply ofNat_nonneg|].
  apply Qinv_le_0_compat, ofNat_nonneg.
Qed.

Lemma ratio_self n : (0 < n)%nat -> ratio n n n == 1.
Proof.
  intros H. unfold ratio. rewrite Nat.max_id.
  apply Qmult_inv_r. intros E.
  pose proof (ofNat_pos _ H) as P. rewrite E in P. discriminate.
Qed.

Lemma has_true s w : In w s -> has s w = true.
Proof. unfold has. now destruct (in_dec str_eq_dec w s). Qed.

Lemma countIn_self s : countIn s s = length s.
Proof.
  unfold countIn. rewrite filter_all; auto using has_true.
Qed.

Lemma mkSet_nonempty l : l <> [] -> (0 < length (mkSet l))%nat.
Proof.
  intros H. destruct l as [|x t]; [congruence|].
  assert (I : In x (mkSet (x :: t))) by (apply nodup_In; now left).
  destruct (mkSet (x :: t)); simpl in *; [tauto | lia].
Qed.

Lemma similarity_range a b : 0 <= similarity a b <= 1.
Proof.
  unfold similarity.
  destruct (negb (nonEmpty a) || negb (nonEmpty b)); [split; discriminate|].
  destruct ((length (words a) =? 0)%nat || (length (words b) =? 0)%nat);
    [split; discriminate|].
  cbv zeta. split; [|apply Q.le_min_l].
  apply Q.min_glb; [discriminate|].
  set (j := ratio _ (length (mkSet (words a))) _).
  set (bg := if (0 <? _)%nat then _ else _).
  set (bonus := if _ : bool then _ else _).
  assert (0 <= j) by apply ratio_nonneg.
  assert (0 <= bonus) by (unfold bonus; destruct (_ || _); discriminate).
  pose proof (Q.le_max_l j bg).
  lra.
Qed.

Lemma words_nonempty_nonEmpty a : words a <> [] -> nonEmpty a = true.
Proof. destruct a; [intros H; now elim H | reflexivity]. Qed.

Lemma similarity_self a : words a <> [] -> similarity a a == 1.
Proof.
  intros W. unfold similarity.
  rewrite (words_nonempty_nonEmpty _ W). cbn [negb orb].
  destruct (length (words a) =? 0)%nat eqn:L.
  { apply Nat.eqb_eq in L. destruct (words a); [now elim W | discriminate]. }
  cbn [orb]. cbv zeta.
  rewrite countIn_self.
  set (bg := if (0 <? _)%nat then _ else _).
  set (bonus := if _ : bool then _ else _).
  assert (B : 0 <= bonus) by (unfold bonus; destruct (_ || _); discriminate).
  pose proof (ratio_self _ (mkSet_nonempty _ W)) as J.
  pose proof (Q.le_max_l (ratio (length (mkSet (words a)))
                (length (mkSet (words a))) (length (mkSet (words a)))) bg) as M.
  apply Q.min_l. lra.
Qed.

(** A non-empty result of [normalize] starts with a word. *)
Lemma splitFrom_words sep cur s :
  cur <> [] -> filter nonEmpty (splitFrom sep cur s) <> [].
Proof.
  revert cur. induction s as [|c t IH]; intros cur H; simpl.
  - destruct (rev cur) eqn:E; simpl; [|discriminate].
    apply (f_equal (@rev ascii)) in E. rewrite rev_involutive in E. now elim H.
  - destruct (ascii_dec c sep).
    + simpl. destruct (rev cur) eqn:E; simpl; [|discriminate].
      apply (f_equal (@rev ascii)) in E. rewrite rev_involutive in E.
      now elim H.
    + apply IH. discriminate.
Qed.

Lemma words_headOk s : s <> [] -> headOk s -> words s <> [].
Proof.
  destruct s as [|c t]; [congruence|]. intros _ H. simpl in H.
  unfold words, split. simpl.
  destruct (ascii_dec c SP) as [->|N]; [discriminate H|].
  apply splitFrom_words. discriminate.
Qed.




(** ** Beat aligner: the search cursor *)

Lemma scanCues_range cueTexts beatText fuel :
  forall cueIdx best,
    let r := scanCues cueTexts beatText fuel cueIdx best in
    r = best \/
    (Z.of_nat cueIdx <= fst r < Z.of_nat (cueIdx + fuel))%Z.
Proof.
  induction fuel as [|fuel IH]; intros cueIdx best; simpl; auto.
  match goal with |- context [scanCues _ _ _ _ ?b] => set (best' := b) end.
  destruct (IH (S cueIdx) best') as [E | R].
  - rewrite E. unfold best'.
    destruct (Qltb (snd best) (candidateScore cueTexts beatText cueIdx));
      [right; simpl; lia | now left].
  - right. lia.
Qed.

Lemma bestCandidate_range cueTexts beatText searchStart :
  let r := bestCandidate cueTexts beatText searchStart in
  r = ((-1)%Z, 0) \/
  (Z.of_nat searchStart <= fst r < Z.of_nat (length cueTexts))%Z.
Proof.
  unfold bestCandidate.
  destruct (scanCues_range cueTexts beatText
              (length cueTexts - searchStart) searchStart ((-1)%Z, 0))
    as [E | R]; [now left | right].
  lia.
Qed.

(** What one iteration does to the cursor: a matched beat gets a cue at
    or after the cursor and moves the cursor just past it; any other beat
    leaves the cursor alone. *)
Lemma alignBeat_cursor cues cueTexts beatType beatIdx rawText searchStart :
  let r := alignBeat cues cueTexts beatType beatIdx rawText searchStart in
  match cueIdx (snd r) with
  | Some k => (searchStart <= k < length cueTexts)%nat /\ fst r = S k
  | None => fst r = searchStart
  end.
Proof.
  unfold alignBeat.
  destruct (isType beatType "silent" || isType beatType "data"); simpl; auto.
  destruct (negb (nonEmpty (normalize rawText))); simpl; auto.
  pose proof (bestCandidate_range cueTexts (normalize rawText) searchStart) as R.
  destruct (bestCandidate cueTexts (normalize rawText) searchStart)
    as [bestIdx bestScore].
  destruct (Qle_bool (threshold beatType) bestScore && (0 <=? bestIdx)%Z) eqn:A;
    simpl; auto.
  apply andb_true_iff in A as [_ A]. apply Z.leb_le in A.
  simpl in R. destruct R as [R | R]; [inversion R; lia|].
  split; lia.
Qed.

Lemma alignLoop_sorted cues cueTexts types rest :
  forall beatIdx searchStart,
    let mp := alignLoop cues cueTexts types rest beatIdx searchStart in
    StronglySorted lt (matchedCueIdxs mp) /\
    Forall (fun k => (searchStart <= k)%nat) (matchedCueIdxs mp).
Proof.
  induction rest as [|rawText rest IH]; intros beatIdx searchStart; simpl.
  - split; constructor.
  - pose proof (alignBeat_cursor cues cueTexts (beatTypeAt types beatIdx)
                  beatIdx rawText searchStart) as C.
    destruct (alignBeat cues cueTexts (beatTypeAt types beatIdx) beatIdx
                rawText searchStart) as [searchStart' m].
    simpl in C. simpl.
    destruct (IH (S beatIdx) searchStart') as [Sd F].
    destruct (cueIdx m) as [k|].
    + destruct C as [R ->]. split.
      * constructor; [exact Sd|].
        eapply Forall_impl; [|exact F]. simpl. intros; lia.
      * constructor; [lia|].
        eapply Forall_impl; [|exact F]. simpl. intros; lia.
    + subst. auto.
Qed.

Lemma matchedCueIdxs_In mp m k :
  In m mp -> cueIdx m = Some k -> In k (matchedCueIdxs mp).
Proof.
  induction mp as [|x t IH]; simpl; [tauto|].
  intros [-> | I] E.
  - rewrite E. now left.
  - destruct (cueIdx x); [right|]; auto.
Qed.

Lemma matchedCueIdxs_pairs mp :
  StronglySorted lt (matchedCueIdxs mp) ->
  forall i j mi mj a b,
    (i < j)%nat ->
    nth_error mp i = Some mi -> nth_error mp j = Some mj ->
    cueIdx mi = Some a -> cueIdx mj = Some b -> (a < b)%nat.
Proof.
  induction mp as [|x t IH]; intros S i j mi mj a b L Hi Hj Ea Eb.
  - destruct i; discriminate.
  - destruct j as [|j]; [lia|]. simpl in Hj.
    assert (St : StronglySorted lt (matchedCueIdxs t)).
    { simpl in S. destruct (cueIdx x); auto. now inversion S. }
    destruct i as [|i].
    + simpl in Hi. injection Hi as ->.
      simpl in S. rewrite Ea in S. inversion S as [|? ? _ F]; subst.
      rewrite Forall_forall in F. apply F.
      eapply matchedCueIdxs_In; eauto using nth_error_In.
    + simpl in Hi. eapply (IH St i j); eauto. lia.
Qed.

Lemma mapping_of_result cues beatTexts opts :
  beatTexts <> [] ->
  mapping (mapSrtToBeatsIntelligent cues beatTexts opts)
  = Some (buildMapping cues (beatTypes opts) beatTexts).
Proof.
  intros H. unfold mapSrtToBeatsIntelligent.
  destruct beatTexts; [congruence | reflexivity].
Qed.

Lemma mapping_of_result_inv cues beatTexts opts mp :
  mapping (mapSrtToBeatsIntelligent cues beatTexts opts) = Some mp ->
  mp = buildMapping cues (beatTypes opts) beatTexts.
Proof.
  unfold mapSrtToBeatsIntelligent.
  destruct beatTexts; simpl; congruence.
Qed.

(** C1. Beat monotonicity: in the mapping returned by
    [mapSrtToBeatsIntelligent], for any two beats [i < j] that both
    received a cue, the cue index of beat [i] is strictly below the cue
    index of beat [j]. *)
Theorem beat_monotonicity (cues : list Cue) (beatTexts : list str)
    (opts : Opts) (mp : list BeatMatch) (i j : nat) (mi mj : BeatMatch)
    (a b : nat) :
  mapping (mapSrtToBeatsIntelligent cues beatTexts opts) = Some mp ->
  (i < j)%nat ->
  nth_error mp i = Some mi -> nth_error mp j = Some mj ->
  cueIdx mi = Some a -> cueIdx mj = Some b ->
  (a < b)%nat.
Proof.
  intros M. apply mapping_of_result_inv in M. subst mp.
  apply matchedCueIdxs_pairs.
  apply (alignLoop_sorted cues _ (beatTypes opts) beatTexts 0 0).
Qed.

Lemma beat_monotonicity_witness :
  let mp := buildMapping demoCues None [lit "Apples"; lit ""; lit "Cherries"] in
  cueIdx (nth 0 mp (unmatchedBeat 0 [] None)) = Some 0%nat /\
  cueIdx (nth 2 mp (unmatchedBeat 0 [] None)) = Some 2%nat /\
  (0 < 2)%nat.
Proof.
  intros mp.
  split; [vm_compute; reflexivity|]. split; [vm_compute; reflexivity|].
  apply (@beat_monotonicity demoCues [lit "Apples"; lit ""; lit "Cherries"]
           noOpts mp 0 2 (nth 0 mp (unmatchedBeat 0 [] None))
           (nth 2 mp (unmatchedBeat 0 [] None)) 0 2).
  - vm_compute. reflexivity.
  - lia.
  - vm_compute. reflexivity.
  - vm_compute. reflexivity.
  - vm_compute. reflexivity.
  - vm_compute. reflexivity.
Defined.

(** The first scenario of the specification: three beats, three cues,
    all matched in order. *)
Example scenario_fruits :
  let r := mapSrtToBeatsIntelligent demoCues
             [lit "Apples"; lit "Bananas"; lit "Cherries"] noOpts in
  option_map matchedCueIdxs (mapping r) = Some [0; 1; 2]%nat /\
  map Qred (beatTimes r) = [0; 3; 6].
Proof. vm_compute. split; reflexivity. Qed.

(** ** Beat aligner: acceptance *)

Lemma alignLoop_app cues cueTexts types pre :
  forall rest beatIdx searchStart,
    alignLoop cues cueTexts types (pre ++ rest) beatIdx searchStart
    = alignLoop cues cueTexts types pre beatIdx searchStart
      ++ alignLoop cues cueTexts types rest (beatIdx + length pre)
           (cursorAfter cues cueTexts types pre beatIdx searchStart).
Proof.
  induction pre as [|x pre IH]; intros rest beatIdx searchStart; simpl.
  - now rewrite Nat.add_0_r.
  - destruct (alignBeat cues cueTexts (beatTypeAt types beatIdx) beatIdx x
                searchStart) as [searchStart' m] eqn:E.
    simpl. rewrite IH.
    replace (S beatIdx + length pre)%nat with (beatIdx + S (length pre))%nat
      by lia.
    reflexivity.
Qed.

Lemma alignLoop_length cues cueTexts types rest :
  forall beatIdx searchStart,
    length (alignLoop cues cueTexts types rest beatIdx searchStart)
    = length rest.
Proof.
  induction rest as [|x rest IH]; intros beatIdx searchStart; simpl; auto.
  destruct (alignBeat cues cueTexts (beatTypeAt types beatIdx) beatIdx x
              searchStart) as [searchStart' m].
  simpl. now rewrite IH.
Qed.

Lemma buildMapping_nth cues types pre rawText post d :
  let cueTexts := map (fun c => normalize (text c)) cues in
  nth (length pre) (buildMapping cues types (pre ++ rawText :: post)) d
  = snd (alignBeat cues cueTexts (beatTypeAt types (length pre)) (length pre)
           rawText (cursorAfter cues cueTexts types pre 0 0)).
Proof.
  intros cueTexts. unfold buildMapping. fold cueTexts.
  rewrite alignLoop_app.
  rewrite app_nth2; rewrite alignLoop_length; [|lia].
  rewrite Nat.sub_diag. simpl.
  destruct (alignBeat cues cueTexts (beatTypeAt types (length pre))
              (length pre) rawText (cursorAfter cues cueTexts types pre 0 0)).
  reflexivity.
Qed.

Lemma threshold_pos beatType : 0 < threshold beatType.
Proof. unfold threshold. destruct (isType beatType "label"); reflexivity. Qed.

(** C6. Adaptive threshold: for a beat that is neither [silent] nor
    [data] and whose normalised text is not empty, the entry recorded in
    the mapping carries the best candidate's cue index exactly when the
    best score reaches the threshold, [0.08] for a [label] beat and [0.15]
    for any other; below the threshold the entry has [cueIdx = null].
    The beat is the one after the beats [pre]; [searchStart] is the value
    of the cursor left by them. *)
Theorem adaptive_threshold (cues : list Cue) (types : option (list str))
    (pre : list str) (rawText : str) (post : list str) :
  let cueTexts := map (fun c => normalize (text c)) cues in
  let beatType := beatTypeAt types (length pre) in
  let searchStart := cursorAfter cues cueTexts types pre 0 0 in
  let best := bestCandidate cueTexts (normalize rawText) searchStart in
  let m := nth (length pre) (buildMapping cues types (pre ++ rawText :: post))
             (unmatchedBeat 0 [] None) in
  isType beatType "silent" = false ->
  isType beatType "data" = false ->
  normalize rawText <> [] ->
  threshold beatType = (if isType beatType "label" then 8 # 100 else 15 # 100) /\
  (threshold beatType <= snd best ->
     (0 <= fst best)%Z /\ cueIdx m = Some (Z.to_nat (fst best))) /\
  (~ threshold beatType <= snd best -> cueIdx m = None).
Proof.
  intros cueTexts beatType searchStart best m Hs Hd Hn.
  split; [reflexivity|].
  unfold m. rewrite buildMapping_nth. fold cueTexts beatType searchStart.
  unfold alignBeat. rewrite Hs, Hd, (nonEmpty_true _ Hn). cbn [orb negb].
  fold best.
  pose proof (bestCandidate_range cueTexts (normalize rawText) searchStart) as R.
  fold best in R. cbv zeta in R.
  destruct best as [bestIdx bestScore]. cbn [fst snd] in *.
  destruct (Qle_bool (threshold beatType) bestScore) eqn:T.
  - apply Qle_bool_iff in T.
    assert (P : (0 <= bestIdx)%Z).
    { destruct R as [R | R]; [|lia].
      inversion R; subst. pose proof (threshold_pos beatType). lra. }
    apply Z.leb_le in P as P'. rewrite P'. simpl.
    split; [auto | tauto].
  - simpl. split; [|reflexivity].
    intros L. apply Qle_bool_iff in L. congruence.
Qed.

Lemma adaptive_threshold_witness :
  cueIdx (nth 1 (buildMapping demoCues None [lit "Apples"; lit "Bananas"])
            (unmatchedBeat 0 [] None)) = Some 1%nat.
Proof.
  destruct (adaptive_threshold demoCues None [lit "Apples"] (lit "Bananas") [])
    as (_ & A & _).
  - reflexivity.
  - reflexivity.
  - vm_compute. discriminate.
  - destruct A as [_ A].
    + vm_compute. discriminate.
    + exact A.
Defined.

(** ** Beat aligner: the mapping it builds is well formed *)

Lemma alignBeat_wf cues cueTexts beatType pos rawText searchStart :
  let m := snd (alignBeat cues cueTexts beatType pos rawText searchStart) in
  beatIdx m = pos /\ isSome (cueIdx m) = isSome (time m).
Proof.
  unfold alignBeat.
  destruct (isType beatType "silent" || isType beatType "data"); simpl; auto.
  destruct (negb (nonEmpty (normalize rawText))); simpl; auto.
  destruct (bestCandidate cueTexts (normalize rawText) searchStart) as [bi bs].
  destruct (Qle_bool (threshold beatType) bs && (0 <=? bi)%Z); simpl; auto.
Qed.

Lemma alignLoop_wf cues cueTexts types rest :
  forall pos searchStart,
    wfMappingFrom pos (alignLoop cues cueTexts types rest pos searchStart).
Proof.
  induction rest as [|x rest IH]; intros pos searchStart; simpl; auto.
  pose proof (alignBeat_wf cues cueTexts (beatTypeAt types pos) pos x
                searchStart) as W.
  destruct (alignBeat cues cueTexts (beatTypeAt types pos) pos x
              searchStart) as [searchStart' m].
  simpl in *. destruct W as [W1 W2]. auto.
Qed.

Lemma buildMapping_wf cues types beatTexts :
  wfMapping (buildMapping cues types beatTexts).
Proof. apply alignLoop_wf. Qed.

Lemma alignLoop_times cues cueTexts types rest :
  forall pos searchStart,
    let mp := alignLoop cues cueTexts types rest pos searchStart in
    matchedTimes mp
    = map (fun k => startTime (cueAt cues k)) (matchedCueIdxs mp) /\
    Forall (fun k => (k < length cueTexts)%nat) (matchedCueIdxs mp).
Proof.
  induction rest as [|x rest IH]; intros pos searchStart; simpl; auto.
  pose proof (alignBeat_cursor cues cueTexts (beatTypeAt types pos) pos x
                searchStart) as C.
  unfold alignBeat in *.
  destruct (isType (beatTypeAt types pos) "silent"
            || isType (beatTypeAt types pos) "data"); simpl; [apply IH|].
  destruct (negb (nonEmpty (normalize x))); simpl; [apply IH|].
  destruct (bestCandidate cueTexts (normalize x) searchStart) as [bi bs].
  destruct (Qle_bool (threshold (beatTypeAt types pos)) bs && (0 <=? bi)%Z);
    simpl in *; [|apply IH].
  destruct (IH (S pos) (S (Z.to_nat bi))) as [E F].
  split; [now rewrite E | constructor; [lia | exact F]].
Qed.

(** ** Lengths *)

Lemma fillMatched_length mp : length (fillMatched mp) = length mp.
Proof.
  unfold fillMatched.
  rewrite <- (repeat_length (@None Q) (length mp)) at 2.
  generalize (repeat (@None Q) (length mp)).
  induction mp as [|m t IH]; intros times; simpl; auto.
  rewrite IH. destruct (cueIdx m); auto using setAt_length.
Qed.

Lemma interpolateAt_length floorTime ceilTime times i :
  length (interpolateAt floorTime ceilTime times i) = length times.
Proof.
  unfold interpolateAt.
  repeat match goal with
         | |- context [if ?c then _ else _] => destruct c
         end; auto using setAt_length.
Qed.

Lemma interpolateLoop_length floorTime ceilTime fuel :
  forall i times,
    length (interpolateLoop floorTime ceilTime fuel i times) = length times.
Proof.
  induction fuel as [|fuel IH]; intros i times; simpl; auto.
  now rewrite IH, interpolateAt_length.
Qed.

Lemma spreadEvenly_length floorTime ceilTime total :
  length (spreadEvenly floorTime ceilTime total) = total.
Proof. unfold spreadEvenly. now rewrite length_map, length_seq. Qed.

Lemma filledTimes_length mp cues segStart segEnd :
  length (filledTimes mp cues segStart segEnd) = length mp.
Proof.
  unfold filledTimes. cbv zeta.
  destruct (negb _).
  - now rewrite spreadEvenly_length, fillMatched_length.
  - now rewrite interpolateLoop_length, fillMatched_length.
Qed.

Lemma interpolateMissing_length mp cues segStart segEnd :
  length (interpolateMissing mp cues segStart segEnd) = length mp.
Proof.
  unfold interpolateMissing. now rewrite length_map, filledTimes_length.
Qed.

(** C9, as the specification states it, fails on the empty beat list:
    the fallback returns no mapping ([null]) and one beat time per cue. *)
Lemma empty_beats_fallback :
  let r := mapSrtToBeatsIntelligent demoCues [] noOpts in
  mapping r = None /\ length (beatTimes r) = 3%nat /\
  length (beatTimes r) <> length (@nil str).
Proof. vm_compute. repeat split; discriminate. Qed.

(** C9, amended.  For every cue list and every non-empty list of beat
    texts, [mapSrtToBeatsIntelligent] returns a mapping with one entry
    per beat and a [beatTimes] array of that same length; for the empty
    list it returns [mapping = null] and the start times of the cues as
    [beatTimes]. *)
Theorem result_lengths (cues : list Cue) (beatTexts : list str) (opts : Opts) :
  let r := mapSrtToBeatsIntelligent cues beatTexts opts in
  (beatTexts <> [] ->
     exists mp, mapping r = Some mp /\
                length mp = length beatTexts /\
                length (beatTimes r) = length beatTexts) /\
  (beatTexts = [] ->
     mapping r = None /\ beatTimes r = map startTime cues).
Proof.
  intros r. split.
  - intros H. exists (buildMapping cues (beatTypes opts) beatTexts).
    split; [now apply mapping_of_result|].
    unfold r, mapSrtToBeatsIntelligent, buildMapping.
    destruct beatTexts as [|b bs]; [congruence|].
    cbn [length Nat.eqb beatTimes].
    rewrite interpolateMissing_length, !alignLoop_length. auto.
  - intros ->. split; reflexivity.
Qed.

Lemma result_lengths_witness :
  (exists mp,
     mapping (mapSrtToBeatsIntelligent demoCues [lit "Apples"; lit ""] noOpts)
       = Some mp /\
     length mp = 2%nat /\
     length (beatTimes
               (mapSrtToBeatsIntelligent demoCues [lit "Apples"; lit ""] noOpts))
       = 2%nat) /\
  mapping (mapSrtToBeatsIntelligent demoCues [] noOpts) = None.
Proof.
  split.
  - apply (result_lengths demoCues [lit "Apples"; lit ""] noOpts). discriminate.
  - apply (result_lengths demoCues [] noOpts). reflexivity.
Defined.

(** ** The time array: reading, writing and scanning *)

Lemma slot_setAt_same times : forall i v,
  (i < length times)%nat -> slot (setAt i v times) i = v.
Proof.
  unfold slot.
  induction times as [|x t IH]; intros [|i] v L; simpl in *; try lia; auto.
  apply IH. lia.
Qed.

Lemma slot_setAt_other times : forall i j v,
  i <> j -> slot (setAt i v times) j = slot times j.
Proof.
  unfold slot.
  induction times as [|x t IH]; intros [|i] [|j] v N; simpl; auto;
    try congruence.
Qed.

Lemma slot_beyond times j : (length times <= j)%nat -> slot times j = None.
Proof. intros H. unfold slot. now apply nth_overflow. Qed.

Lemma slot_Some_lt times j a : slot times j = Some a -> (j < length times)%nat.
Proof.
  intros H. destruct (Nat.lt_ge_cases j (length times)) as [L|L]; auto.
  rewrite (slot_beyond _ _ L) in H. discriminate.
Qed.

Lemma slot_setAt_inv times i v j a :
  slot (setAt i (Some v) times) j = Some a ->
  slot times i = None ->
  (j = i /\ a = v) \/ (j <> i /\ slot times j = Some a).
Proof.
  intros H N. destruct (Nat.eq_dec j i) as [->|D].
  - left. split; auto.
    pose proof (slot_Some_lt _ _ _ H) as L. rewrite setAt_length in L.
    rewrite slot_setAt_same in H by auto. congruence.
  - right. split; auto. rewrite slot_setAt_other in H; auto.
Qed.

Lemma numAt_slot times p a : slot times p = Some a -> numAt times (Z.of_nat p) = a.
Proof. intros H. unfold numAt. now rewrite Nat2Z.id, H. Qed.

(** [findPrev] returns the nearest non-null index below [i], or [-1] when
    there is none. *)
Lemma findPrev_spec times i :
  (findPrev times i = (-1)%Z /\
   forall j, (j < i)%nat -> slot times j = None) \/
  (exists p, findPrev times i = Z.of_nat p /\ (p < i)%nat /\
             isSome (slot times p) = true /\
             forall j, (p < j < i)%nat -> slot times j = None).
Proof.
  induction i as [|i IH]; simpl.
  - left. split; auto. intros; lia.
  - destruct (isSome (slot times i)) eqn:E.
    + right. exists i. repeat split; auto. intros; lia.
    + apply isSome_None in E.
      destruct IH as [[-> H] | (p & -> & L & Sp & H)].
      * left. split; auto. intros j Lj.
        destruct (Nat.eq_dec j i) as [->|]; auto. apply H. lia.
      * right. exists p. repeat split; auto.
        intros j Lj. destruct (Nat.eq_dec j i) as [->|]; auto. apply H. lia.
Qed.

Lemma findNextFrom_spec times fuel :
  forall j0,
    (findNextFrom times fuel j0 = (-1)%Z /\
     forall j, (j0 <= j < j0 + fuel)%nat -> slot times j = None) \/
    (exists q, findNextFrom times fuel j0 = Z.of_nat q /\
               (j0 <= q < j0 + fuel)%nat /\
               isSome (slot times q) = true /\
               forall j, (j0 <= j < q)%nat -> slot times j = None).
Proof.
  induction fuel as [|fuel IH]; intros j0; simpl.
  - left. split; auto. intros; lia.
  - destruct (isSome (slot times j0)) eqn:E.
    + right. exists j0. repeat split; auto; intros; lia.
    + apply isSome_None in E.
      destruct (IH (S j0)) as [[-> H] | (q & -> & L & Sq & H)].
      * left. split; auto. intros j Lj.
        destruct (Nat.eq_dec j j0) as [->|]; auto. apply H. lia.
      * right. exists q. repeat split; auto; try lia.
        intros j Lj. destruct (Nat.eq_dec j j0) as [->|]; auto. apply H. lia.
Qed.

(** [findNext] returns the nearest non-null index above [i], or [-1]. *)
Lemma findNext_spec times i :
  (findNext times i = (-1)%Z /\
   forall j, (i < j)%nat -> slot times j = None) \/
  (exists q, findNext times i = Z.of_nat q /\
             (i < q < length times)%nat /\
             isSome (slot times q) = true /\
             forall j, (i < j < q)%nat -> slot times j = None).
Proof.
  unfold findNext.
  destruct (findNextFrom_spec times (length times - S i) (S i))
    as [[E H] | (q & E & L & Sq & H)].
  - left. split; auto. intros j Lj.
    destruct (Nat.lt_ge_cases j (length times)); [apply H; lia|].
    now apply slot_beyond.
  - right. exists q. repeat split; auto; try lia.
Qed.

Lemma existsb_slot times :
  existsb isSome times = true ->
  exists j, isSome (slot times j) = true.
Proof.
  intros H. apply existsb_exists in H as (x & I & Sx).
  destruct (In_nth _ _ None I) as (j & _ & E).
  exists j. unfold slot. now rewrite E.
Qed.

Lemma slot_existsb times j :
  isSome (slot times j) = true -> existsb isSome times = true.
Proof.
  intros H. apply existsb_exists. exists (slot times j). split; auto.
  apply isSome_Some in H as (a & E).
  rewrite E. unfold slot in E. rewrite <- E. apply nth_In.
  apply (slot_Some_lt _ _ _ E).
Qed.

(** ** Arithmetic of the interpolation formulas *)

Lemma frac_bounds d s :
  (0 <= d <= s)%Z -> (0 < s)%Z ->
  0 <= inject_Z d / inject_Z s <= 1.
Proof.
  intros [D1 D2] S0.
  assert (P : 0 < inject_Z s) by (change 0 with (inject_Z 0); now rewrite <- Zlt_Qlt).
  split.
  - apply Qle_shift_div_l; auto. rewrite Qmult_0_l.
    change 0 with (inject_Z 0). now rewrite <- Zle_Qle.
  - apply Qle_shift_div_r; auto. rewrite Qmult_1_l. now rewrite <- Zle_Qle.
Qed.

(** Between two anchors. *)
Lemma lerp_bounds p q d s :
  p <= q -> (0 <= d <= s)%Z -> (0 < s)%Z ->
  p <= p + (inject_Z d / inject_Z s) * (q - p) <= q.
Proof.
  intros L D S0. pose proof (frac_bounds d s D S0) as [F0 F1].
  set (f := inject_Z d / inject_Z s) in *. split; nra.
Qed.

(** After the last anchor. *)
Lemma forward_bounds p hi d u :
  p <= hi -> (0 <= d <= u)%Z -> (0 < u)%Z ->
  p <= p + inject_Z d * ((hi - p) / inject_Z u) <= hi.
Proof.
  intros L D U0.
  assert (E : p + inject_Z d * ((hi - p) / inject_Z u)
              == p + (inject_Z d / inject_Z u) * (hi - p)).
  { assert (inject_Z u > 0)
      by (change 0 with (inject_Z 0); now rewrite <- Zlt_Qlt).
    field. intros Z0. rewrite Z0 in H. discriminate. }
  rewrite E. now apply lerp_bounds.
Qed.

(** Before the first anchor. *)
Lemma backward_bounds lo q d n :
  lo <= q -> (0 <= d <= n)%Z -> (0 < n)%Z ->
  lo <= Qmax lo (q - inject_Z d * ((q - lo) / inject_Z n)) <= q.
Proof.
  intros L D N0. split; [apply Q.le_max_l|].
  apply Q.max_lub; auto.
  pose proof (forward_bounds lo q d n L D N0) as [B1 B2].
  lra.
Qed.

Lemma roundMs_mono a b : a <= b -> roundMs a <= roundMs b.
Proof.
  intros L. unfold roundMs, mathRound, Qdiv.
  apply Qmult_le_compat_r; [|discriminate].
  rewrite <- Zle_Qle. apply Qfloor_resp_le. lra.
Qed.

(** ** The gap-filling loop of [interpolateMissing] *)

Section GapFilling.

Variables lo hi : Q.

Lemma setAt_inv times i v :
  anchorsSorted times -> anchorsWithin lo hi times ->
  slot times i = None ->
  (forall j a, (j < i)%nat -> slot times j = Some a -> a <= v) ->
  (forall k b, (i < k)%nat -> slot times k = Some b -> v <= b) ->
  lo <= v <= hi ->
  anchorsSorted (setAt i (Some v) times) /\
  anchorsWithin lo hi (setAt i (Some v) times).
Proof.
  intros S W N Hl Hr B. split.
  - intros j k a b L Ej Ek.
    destruct (slot_setAt_inv _ _ _ _ _ Ej N) as [[-> ->] | [Dj Ej']];
    destruct (slot_setAt_inv _ _ _ _ _ Ek N) as [[-> ->] | [Dk Ek']].
    + lia.
    + eapply Hr; eauto.
    + eapply Hl; eauto.
    + eapply S; eauto.
  - intros j a Ej.
    destruct (slot_setAt_inv _ _ _ _ _ Ej N) as [[-> ->] | [Dj Ej']]; eauto.
Qed.

(** Filling slot [i] keeps the non-null entries ordered and within the
    bounds. *)
Lemma interpolateAt_inv times i :
  anchorsSorted times -> anchorsWithin lo hi times ->
  anchorsSorted (interpolateAt lo hi times i) /\
  anchorsWithin lo hi (interpolateAt lo hi times i).
Proof.
  intros S W. unfold interpolateAt.
  destruct (isSome (slot times i)) eqn:Ei; auto.
  apply isSome_None in Ei. cbv zeta.
  destruct (findPrev_spec times i) as [[-> Hp] | (p & -> & Lp & Sp & Hp)];
  destruct (findNext_spec times i) as [[-> Hn] | (q & -> & Lq & Sq & Hn)].
  - (* no anchor on either side *) auto.
  - (* before the first anchor *)
    apply isSome_Some in Sq as (b & Eb).
    sign_tests. rewrite (numAt_slot _ _ _ Eb).
    destruct (W _ _ Eb) as [W1 W2].
    pose proof (backward_bounds lo b (Z.of_nat q - Z.of_nat i) (Z.of_nat q)
                  W1 ltac:(lia) ltac:(lia)) as [B1 B2].
    apply setAt_inv; auto.
    + intros j a Lj Ej. rewrite Hp in Ej by auto. discriminate.
    + intros k c Lk Ek.
      destruct (Nat.lt_ge_cases k q) as [Lkq | Lkq].
      * rewrite Hn in Ek by lia. discriminate.
      * destruct (Nat.eq_dec k q) as [->|].
        -- rewrite Eb in Ek. injection Ek as <-. auto.
        -- eapply Qle_trans; [exact B2|]. eapply (S q k); eauto. lia.
    + split; lra.
  - (* after the last anchor *)
    apply isSome_Some in Sp as (a & Ea).
    sign_tests. rewrite (numAt_slot _ _ _ Ea).
    destruct (W _ _ Ea) as [W1 W2].
    destruct (Nat.lt_ge_cases i (length times)) as [Li | Li].
    2:{ (* nothing is written past the end *)
        rewrite setAt_beyond by auto. auto. }
    sign_tests.
    pose proof (forward_bounds a hi (Z.of_nat i - Z.of_nat p)
                  (Z.of_nat (length times) - 1 - Z.of_nat p)
                  W2 ltac:(lia) ltac:(lia)) as [B1 B2].
    apply setAt_inv; auto.
    + intros j c Lj Ej.
      destruct (Nat.lt_ge_cases p j) as [Lpj | Lpj].
      * rewrite Hp in Ej by lia. discriminate.
      * destruct (Nat.eq_dec j p) as [->|].
        -- rewrite Ea in Ej. injection Ej as <-. auto.
        -- eapply Qle_trans; [|exact B1]. eapply (S j p); eauto. lia.
    + intros k c Lk Ek. rewrite Hn in Ek by auto. discriminate.
    + split; lra.
  - (* between two anchors *)
    apply isSome_Some in Sp as (a & Ea).
    apply isSome_Some in Sq as (b & Eb).
    sign_tests. rewrite (numAt_slot _ _ _ Ea), (numAt_slot _ _ _ Eb).
    destruct (W _ _ Ea) as [W1 W2]. destruct (W _ _ Eb) as [W3 W4].
    assert (AB : a <= b) by (eapply (S p q); eauto; lia).
    pose proof (lerp_bounds a b (Z.of_nat i - Z.of_nat p)
                  (Z.of_nat q - Z.of_nat p) AB ltac:(lia) ltac:(lia))
      as [B1 B2].
    apply setAt_inv; auto.
    + intros j c Lj Ej.
      destruct (Nat.lt_ge_cases p j) as [Lpj | Lpj].
      * rewrite Hp in Ej by lia. discriminate.
      * destruct (Nat.eq_dec j p) as [->|].
        -- rewrite Ea in Ej. injection Ej as <-. auto.
        -- eapply Qle_trans; [|exact B1]. eapply (S j p); eauto. lia.
    + intros k c Lk Ek.
      destruct (Nat.lt_ge_cases k q) as [Lkq | Lkq].
      * rewrite Hn in Ek by lia. discriminate.
      * destruct (Nat.eq_dec k q) as [->|].
        -- rewrite Eb in Ek. injection Ek as <-. auto.
        -- eapply Qle_trans; [exact B2|]. eapply (S q k); eauto. lia.
    + split; lra.
Qed.

Lemma interpolateAt_shape times i :
  interpolateAt lo hi times i = times \/
  (slot times i = None /\
   exists v, interpolateAt lo hi times i = setAt i (Some v) times).
Proof.
  unfold interpolateAt.
  destruct (isSome (slot times i)) eqn:E; auto.
  apply isSome_None in E. cbv zeta.
  repeat match goal with
         | |- context [if ?c then _ else _] => destruct c
         end; eauto.
Qed.

Lemma interpolateAt_keeps times i j :
  isSome (slot times j) = true ->
  isSome (slot (interpolateAt lo hi times i) j) = true.
Proof.
  intros H.
  destruct (interpolateAt_shape times i) as [-> | (N & v & ->)]; auto.
  rewrite slot_setAt_other; auto.
  intros ->. rewrite N in H. discriminate.
Qed.

Lemma interpolateAt_fills times i :
  (i < length times)%nat ->
  existsb isSome times = true ->
  isSome (slot (interpolateAt lo hi times i) i) = true.
Proof.
  intros L X. unfold interpolateAt.
  destruct (isSome (slot times i)) eqn:Ei; auto.
  apply isSome_None in Ei. cbv zeta.
  destruct (findPrev_spec times i) as [[-> Hp] | (p & -> & Lp & Sp & Hp)];
  destruct (findNext_spec times i) as [[-> Hn] | (q & -> & Lq & Sq & Hn)].
  - exfalso. apply existsb_slot in X as (j & Sj).
    destruct (Nat.lt_trichotomy j i) as [T | [-> | T]].
    + rewrite Hp in Sj by auto. discriminate.
    + rewrite Ei in Sj. discriminate.
    + rewrite Hn in Sj by auto. discriminate.
  - sign_tests. now rewrite slot_setAt_same.
  - sign_tests. now rewrite slot_setAt_same.
  - sign_tests. now rewrite slot_setAt_same.
Qed.

Lemma interpolateLoop_filled fuel :
  forall i times,
    existsb isSome times = true ->
    (i + fuel = length times)%nat ->
    (forall j, (j < i)%nat -> isSome (slot times j) = true) ->
    forall j, (j < length times)%nat ->
      isSome (slot (interpolateLoop lo hi fuel i times) j) = true.
Proof.
  induction fuel as [|fuel IH]; intros i times X L P j Lj; simpl.
  - apply P. lia.
  - pose proof (interpolateAt_length lo hi times i) as Len.
    apply IH.
    + apply existsb_slot in X as (k & Sk).
      eapply slot_existsb, interpolateAt_keeps, Sk.
    + lia.
    + intros k Lk. destruct (Nat.eq_dec k i) as [->|].
      * apply interpolateAt_fills; auto. lia.
      * apply interpolateAt_keeps, P. lia.
    + lia.
Qed.

Lemma interpolateLoop_inv fuel :
  forall i times,
    anchorsSorted times -> anchorsWithin lo hi times ->
    anchorsSorted (interpolateLoop lo hi fuel i times) /\
    anchorsWithin lo hi (interpolateLoop lo hi fuel i times).
Proof.
  induction fuel as [|fuel IH]; intros i times S W; simpl; auto.
  destruct (interpolateAt_inv times i S W) as [S' W'].
  now apply IH.
Qed.

End GapFilling.

(** ** The anchors of a well-formed mapping *)

Lemma fillMatched_from mp :
  forall pre,
    wfMappingFrom (length pre) mp ->
    fold_left
      (fun times m =>
         match cueIdx m with
         | Some _ => setAt (beatIdx m) (time m) times
         | None => times
         end) mp (pre ++ repeat None (length mp))
    = pre ++ anchorsOf mp.
Proof.
  induction mp as [|m t IH]; intros pre W; simpl; auto.
  destruct W as (Eb & Et & W).
  assert (E : (if isSome (cueIdx m) then time m else None)
              = match cueIdx m with Some _ => time m | None => None end)
    by (destruct (cueIdx m); auto).
  rewrite E.
  specialize (IH (pre ++ [match cueIdx m with Some _ => time m | None => None end])).
  rewrite length_app, Nat.add_1_r, <- !app_assoc in IH. simpl in IH.
  rewrite <- IH by exact W.
  f_equal. destruct (cueIdx m); auto.
  rewrite Eb. apply setAt_middle.
Qed.

Lemma fillMatched_wf mp : wfMapping mp -> fillMatched mp = anchorsOf mp.
Proof. intros W. apply (fillMatched_from mp [] W). Qed.

Lemma fillMatched_none mp :
  Forall (fun m => cueIdx m = None) mp ->
  fillMatched mp = repeat None (length mp).
Proof.
  unfold fillMatched. generalize (repeat (@None Q) (length mp)).
  induction 1 as [|m t E _ IH]; simpl; auto.
  now rewrite E.
Qed.

Lemma existsb_repeat_None n : existsb isSome (repeat (@None Q) n) = false.
Proof. induction n; simpl; auto. Qed.

Lemma anchorsOf_In mp : forall j a,
  slot (anchorsOf mp) j = Some a -> In a (matchedTimes mp).
Proof.
  unfold slot.
  induction mp as [|m t IH]; intros [|j] a; simpl; try discriminate.
  - destruct (cueIdx m); simpl; [|discriminate].
    intros ->. now left.
  - intros H. apply IH in H.
    destruct (cueIdx m), (time m); simpl; auto.
Qed.

Lemma anchorsOf_sorted mp :
  StronglySorted Qle (matchedTimes mp) -> anchorsSorted (anchorsOf mp).
Proof.
  induction mp as [|m t IH]; intros S j k a b L Ej Ek.
  - destruct j; discriminate.
  - destruct k as [|k]; [lia|].
    assert (St : StronglySorted Qle (matchedTimes t)).
    { simpl in S. destruct (cueIdx m), (time m); auto; now inversion S. }
    change (slot (anchorsOf t) k = Some b) in Ek.
    destruct j as [|j].
    + unfold slot in Ej. simpl in Ej, S.
      destruct (cueIdx m); simpl in Ej; [|discriminate].
      rewrite Ej in S. inversion S as [|? ? _ F]; subst.
      rewrite Forall_forall in F. eapply F, anchorsOf_In; eauto.
    + change (slot (anchorsOf t) j = Some a) in Ej.
      eapply (IH St j k); eauto. lia.
Qed.

Lemma anchorsOf_within lo hi mp :
  Forall (fun t => lo <= t <= hi) (matchedTimes mp) ->
  anchorsWithin lo hi (anchorsOf mp).
Proof.
  intros F j a E. rewrite Forall_forall in F. eapply F, anchorsOf_In; eauto.
Qed.

(** ** The even spread *)

Lemma slot_spreadEvenly lo hi total j a :
  slot (spreadEvenly lo hi total) j = Some a ->
  (j < total)%nat /\
  a = (if (total =? 1)%nat then (lo + hi) / 2
       else lo + (ofNat j / ofNat (total - 1)) * (hi - lo)).
Proof.
  intros H. pose proof (slot_Some_lt _ _ _ H) as L.
  rewrite spreadEvenly_length in L. split; auto.
  unfold slot, spreadEvenly in H.
  rewrite nth_map_seq in H by auto. congruence.
Qed.

Lemma spreadEvenly_sorted lo hi total :
  lo <= hi -> anchorsSorted (spreadEvenly lo hi total).
Proof.
  intros L j k a b Ljk Ej Ek.
  apply slot_spreadEvenly in Ej as [Lj ->].
  apply slot_spreadEvenly in Ek as [Lk ->].
  destruct (total =? 1)%nat eqn:T; [apply Nat.eqb_eq in T; lia|].
  assert (D : 0 < ofNat (total - 1)) by (apply ofNat_pos; lia).
  assert (F : ofNat j / ofNat (total - 1) <= ofNat k / ofNat (total - 1)).
  { unfold Qdiv. apply Qmult_le_compat_r.
    - unfold ofNat. rewrite <- Zle_Qle. lia.
    - apply Qinv_le_0_compat. lra. }
  nra.
Qed.

Lemma spreadEvenly_filled lo hi total j :
  (j < total)%nat -> isSome (slot (spreadEvenly lo hi total) j) = true.
Proof.
  intros L. unfold slot, spreadEvenly.
  now rewrite nth_map_seq.
Qed.

(** ** [interpolateMissing] *)

Lemma filledTimes_filled mp cues segStart segEnd j :
  (j < length mp)%nat ->
  isSome (slot (filledTimes mp cues segStart segEnd) j) = true.
Proof.
  intros L. unfold filledTimes. cbv zeta.
  destruct (existsb isSome (fillMatched mp)) eqn:X; cbn [negb].
  - apply interpolateLoop_filled; auto; try lia.
    now rewrite fillMatched_length.
  - apply spreadEvenly_filled. now rewrite fillMatched_length.
Qed.

Lemma filledTimes_sorted mp cues segStart segEnd :
  wfMapping mp ->
  floorTimeOf cues segStart <= ceilTimeOf cues segEnd (length mp) ->
  StronglySorted Qle (matchedTimes mp) ->
  Forall (fun t => floorTimeOf cues segStart <= t
                   <= ceilTimeOf cues segEnd (length mp)) (matchedTimes mp) ->
  anchorsSorted (filledTimes mp cues segStart segEnd).
Proof.
  intros W B S F. unfold filledTimes. cbv zeta.
  destruct (existsb isSome (fillMatched mp)); cbn [negb].
  - rewrite (fillMatched_wf _ W).
    apply interpolateLoop_inv.
    + now apply anchorsOf_sorted.
    + now apply anchorsOf_within.
  - now apply spreadEvenly_sorted.
Qed.

Lemma filled_Forall times :
  (forall j, (j < length times)%nat -> isSome (slot times j) = true) ->
  Forall (fun t => isSome t = true) times.
Proof.
  intros H. apply Forall_forall. intros x I.
  destruct (In_nth _ _ None I) as (j & L & E).
  rewrite <- E. now apply H.
Qed.

Lemma rounded_nonDecreasing times :
  (forall j, (j < length times)%nat -> isSome (slot times j) = true) ->
  anchorsSorted times ->
  nonDecreasing (map roundSlot times).
Proof.
  intros F S i L. rewrite length_map in L.
  rewrite !(nth_indep _ 0 (roundSlot None)) by (rewrite length_map; lia).
  rewrite !map_nth. fold (slot times i) (slot times (Datatypes.S i)).
  destruct (isSome_Some _ (F i ltac:(lia))) as (a & Ea).
  destruct (isSome_Some _ (F (Datatypes.S i) L)) as (b & Eb).
  rewrite Ea, Eb. simpl. apply roundMs_mono.
  eapply (S i (Datatypes.S i)); eauto.
Qed.



(** ** [interpolateSegmentTiming] *)

Lemma interpolateSegmentAt_shape matches i :
  (Segments.interpolateSegmentAt matches i = matches /\
   isSome (slot (map Segments.startTime matches) i) = true) \/
  (exists s e,
     Segments.interpolateSegmentAt matches i
     = setAt i (Segments.setTimes (Segments.matchAt matches (Z.of_nat i)) s e)
         matches).
Proof.
  unfold Segments.interpolateSegmentAt. cbv zeta.
  destruct (isSome (slot (map Segments.startTime matches) i)); auto.
  right.
  repeat match goal with
         | |- context [if ?c then _ else _] => destruct c
         end; eauto.
Qed.

Lemma interpolateSegmentAt_length matches i :
  length (Segments.interpolateSegmentAt matches i) = length matches.
Proof.
  destruct (interpolateSegmentAt_shape matches i) as [[-> _] | (s & e & ->)];
    auto using setAt_length.
Qed.

Lemma interpolateSegmentAt_paired matches i :
  Forall timesPaired matches ->
  Forall timesPaired (Segments.interpolateSegmentAt matches i).
Proof.
  intros F.
  destruct (interpolateSegmentAt_shape matches i) as [[-> _] | (s & e & ->)];
    auto.
  apply Forall_setAt; auto. intros _. reflexivity.
Qed.

Lemma interpolateSegmentAt_fills matches i :
  (i < length matches)%nat ->
  isSome (slot (map Segments.startTime (Segments.interpolateSegmentAt matches i)) i)
  = true.
Proof.
  intros L.
  destruct (interpolateSegmentAt_shape matches i) as [[-> E] | (s & e & ->)];
    auto.
  rewrite map_setAt, slot_setAt_same; auto. now rewrite length_map.
Qed.

Lemma interpolateSegmentAt_keeps matches i j :
  isSome (slot (map Segments.startTime matches) j) = true ->
  isSome (slot (map Segments.startTime (Segments.interpolateSegmentAt matches i)) j)
  = true.
Proof.
  intros H.
  destruct (interpolateSegmentAt_shape matches i) as [[-> E] | (s & e & ->)];
    auto.
  rewrite map_setAt. destruct (Nat.eq_dec i j) as [->|D].
  - destruct (Nat.lt_ge_cases j (length (map Segments.startTime matches))).
    + now rewrite slot_setAt_same.
    + rewrite slot_beyond in H by auto. discriminate.
  - now rewrite slot_setAt_other.
Qed.

Lemma interpolateSegmentLoop_filled fuel :
  forall i matches,
    (i + fuel = length matches)%nat ->
    Forall timesPaired matches ->
    (forall j, (j < i)%nat ->
       isSome (slot (map Segments.startTime matches) j) = true) ->
    let r := Segments.interpolateSegmentLoop fuel i matches in
    length r = length matches /\
    Forall timesPaired r /\
    forall j, (j < length matches)%nat ->
      isSome (slot (map Segments.startTime r) j) = true.
Proof.
  induction fuel as [|fuel IH]; intros i matches L F P; simpl.
  - repeat split; auto. intros j Lj. apply P. lia.
  - pose proof (interpolateSegmentAt_length matches i) as Len.
    destruct (IH (S i) (Segments.interpolateSegmentAt matches i))
      as (R1 & R2 & R3).
    + lia.
    + now apply interpolateSegmentAt_paired.
    + intros j Lj. destruct (Nat.eq_dec j i) as [->|].
      * apply interpolateSegmentAt_fills. lia.
      * apply interpolateSegmentAt_keeps, P. lia.
    + repeat split; auto; try congruence.
      intros j Lj. apply R3. lia.
Qed.

Lemma interpolateSegmentTiming_complete matches :
  Forall timesPaired matches ->
  length (Segments.interpolateSegmentTiming matches) = length matches /\
  Forall timesSet (Segments.interpolateSegmentTiming matches).
Proof.
  intros F. unfold Segments.interpolateSegmentTiming.
  destruct (interpolateSegmentLoop_filled (length matches) 0 matches)
    as (R1 & R2 & R3); auto; try (intros; lia).
  split; auto.
  apply Forall_forall. intros m I.
  destruct (In_nth _ _ (Segments.blank 0) I) as (j & Lj & E).
  rewrite Forall_forall in R2.
  assert (S1 : isSome (Segments.startTime m) = true).
  { rewrite R1 in Lj. specialize (R3 j Lj).
    unfold slot in R3.
    rewrite (nth_indep _ None (Segments.startTime (Segments.blank 0))) in R3
      by (rewrite length_map; lia).
    rewrite map_nth, E in R3. exact R3. }
  split; auto. now apply R2.
Qed.

(** What [mapSrtToSegments] passes to [interpolateSegmentTiming] has
    its times paired. *)
Lemma withTimes_paired cues m :
  (isSome (Segments.startCueIdx m) = true ->
   isSome (Segments.endCueIdx m) = true) ->
  timesPaired (Segments.withTimes cues m).
Proof.
  unfold timesPaired. simpl.
  destruct (Segments.startCueIdx m), (Segments.endCueIdx m); simpl; auto.
Qed.

(** ** Interpolation completeness *)




(** ** Beat times on a cue list in time order *)

Lemma sorted_map_cues cues (ks : list nat) :
  cuesInOrder cues ->
  StronglySorted lt ks ->
  Forall (fun k => (k < length cues)%nat) ks ->
  StronglySorted Qle (map (fun k => startTime (cueAt cues k)) ks).
Proof.
  intros [O _] S. induction S as [|k ks S IH F]; intros B; simpl;
    constructor; inversion B; subst; auto.
  apply Forall_forall. intros t I.
  apply in_map_iff in I as (j & <- & Ij).
  rewrite Forall_forall in F, H2.
  apply O. split; [apply Nat.lt_le_incl, F, Ij | apply H2, Ij].
Qed.

(** On a cue list in time order and without segment bounds, the beat
    times returned by [mapSrtToBeatsIntelligent] never decrease. *)
Corollary beatTimes_in_order (cues : list Cue) (beatTexts : list str)
    (types : option (list str)) :
  cuesInOrder cues ->
  nonDecreasing
    (beatTimes (mapSrtToBeatsIntelligent cues beatTexts (mkOpts types None None))).
Proof.
  intros O. unfold mapSrtToBeatsIntelligent.
  destruct beatTexts as [|b bs]; cbn [length Nat.eqb beatTimes].
  - (* the fallback: the start times of the cues *)
    intros i L. rewrite length_map in L.
    rewrite (nth_map_in startTime cues i 0 noCue) by lia.
    rewrite (nth_map_in startTime cues (S i) 0 noCue) by lia.
    apply (proj1 O). lia.
  - set (mp := buildMapping cues types (b :: bs)).
    destruct (alignLoop_times cues (map (fun c => normalize (text c)) cues)
                types (b :: bs) 0 0) as [E F].
    fold (buildMapping cues types (b :: bs)) in E, F. fold mp in E, F.
    rewrite length_map in F.
    pose proof (alignLoop_sorted cues (map (fun c => normalize (text c)) cues)
                  types (b :: bs) 0 0) as [S _].
    fold (buildMapping cues types (b :: bs)) in S. fold mp in S.
    unfold interpolateMissing. cbn [beatTypes segStart segEnd].
    apply rounded_nonDecreasing.
    + intros j L. rewrite filledTimes_length in L.
      now apply filledTimes_filled.
    + assert (Bounds : Forall (fun t => floorTimeOf cues None <= t
                                 <= ceilTimeOf cues None (length mp))
                         (matchedTimes mp)).
      { rewrite E. apply Forall_forall. intros t I.
        apply in_map_iff in I as (k & <- & Ik).
        rewrite Forall_forall in F. specialize (F k Ik).
        unfold floorTimeOf, ceilTimeOf.
        destruct cues as [|c cs]; [simpl in F; lia|].
        replace (0 <? length (c :: cs))%nat with true by reflexivity.
        split.
        - apply (proj1 O 0%nat k). lia.
        - apply (proj2 O k F). }
      apply filledTimes_sorted; auto.
      * apply buildMapping_wf.
      * unfold floorTimeOf, ceilTimeOf.
        destruct cues as [|c cs].
        -- simpl. apply Qmult_le_0_compat; [apply ofNat_nonneg | discriminate].
        -- replace (0 <? length (c :: cs))%nat with true by reflexivity.
           apply (proj2 O 0%nat). simpl. lia.
      * fold mp. rewrite E. now apply sorted_map_cues.
Qed.

(** ** [interpolateSegmentTiming] without any matched segment *)

Lemma slot_map_startTime matches j :
  slot (map Segments.startTime matches) j
  = Segments.startTime (Segments.matchAt matches (Z.of_nat j)).
Proof.
  unfold slot, Segments.matchAt. rewrite Nat2Z.id.
  destruct (Nat.lt_ge_cases j (length matches)) as [L|L].
  - rewrite (nth_indep _ None
               (Segments.startTime
                  (Segments.mkSegmentMatch 0 false 0 None None None None [])))
      by now rewrite length_map.
    now rewrite map_nth.
  - rewrite !nth_overflow; auto. now rewrite length_map.
Qed.

(** One step on a list whose first [i] entries are already spaced and
    whose other entries have no time yet. *)
Lemma interpolateSegmentAt_spaced matches i :
  (i < length matches)%nat ->
  (forall j, (j < i)%nat ->
     spacedRange j (Segments.matchAt matches (Z.of_nat j))) ->
  (forall j, (i <= j)%nat ->
     Segments.startTime (Segments.matchAt matches (Z.of_nat j)) = None) ->
  let r := Segments.interpolateSegmentAt matches i in
  (forall j, (j < S i)%nat -> spacedRange j (Segments.matchAt r (Z.of_nat j))) /\
  (forall j, (S i <= j)%nat ->
     Segments.startTime (Segments.matchAt r (Z.of_nat j)) = None).
Proof.
  intros L Done Todo.
  assert (Keep : forall x j, j <> i ->
            Segments.matchAt (setAt i x matches) (Z.of_nat j)
            = Segments.matchAt matches (Z.of_nat j)).
  { intros x j N. unfold Segments.matchAt. rewrite !Nat2Z.id.
    now apply nth_setAt_other. }
  assert (New : forall x,
            Segments.matchAt (setAt i x matches) (Z.of_nat i) = x).
  { intros x. unfold Segments.matchAt. rewrite Nat2Z.id.
    now apply nth_setAt_same. }
  assert (Fin : forall s e,
            s == inject_Z (6 * Z.of_nat i) ->
            e == inject_Z (6 * Z.of_nat i + 3) ->
            let r := setAt i (Segments.setTimes
                                (Segments.matchAt matches (Z.of_nat i)) s e)
                       matches in
            (forall j, (j < S i)%nat ->
               spacedRange j (Segments.matchAt r (Z.of_nat j))) /\
            (forall j, (S i <= j)%nat ->
               Segments.startTime (Segments.matchAt r (Z.of_nat j)) = None)).
  { intros s e Es Ee. split; intros j Lj.
    - destruct (Nat.eq_dec j i) as [->|N].
      + rewrite New. exists s, e. simpl. auto.
      + rewrite Keep by auto. apply Done. lia.
    - rewrite Keep by lia. apply Todo. lia. }
  unfold Segments.interpolateSegmentAt. cbv zeta.
  rewrite slot_map_startTime, (Todo i) by lia. cbn [isSome].
  destruct (findNext_spec (map Segments.startTime matches) i)
    as [[-> _] | (q & _ & Lq & Sq & _)].
  2:{ rewrite slot_map_startTime, Todo in Sq by lia. discriminate. }
  sign_tests. rewrite andb_false_r.
  destruct (findPrev_spec (map Segments.startTime matches) i)
    as [[-> Hp] | (p & -> & Lp & Sp & Hp)].
  - (* the first entry *)
    sign_tests.
    assert (i = 0%nat) as ->.
    { destruct i as [|i]; auto.
      specialize (Hp i ltac:(lia)). rewrite slot_map_startTime in Hp.
      destruct (Done i ltac:(lia)) as (s & e & Es & _). congruence. }
    apply Fin; simpl; reflexivity.
  - (* any later entry: the entry just before it is the previous anchor *)
    sign_tests.
    assert (i = S p) as ->.
    { destruct (Nat.eq_dec i (S p)); auto.
      specialize (Hp (i - 1)%nat ltac:(lia)). rewrite slot_map_startTime in Hp.
      destruct (Done (i - 1)%nat ltac:(lia)) as (s & e & Es & _). congruence. }
    destruct (Done p ltac:(lia)) as (s & e & Es & Ee & Qs & Qe).
    rewrite Ee. cbn [Segments.timeNum].
    apply Fin.
    + rewrite Qe.
      replace (Z.of_nat (S p) - Z.of_nat p)%Z with 1%Z by lia.
      replace (6 * Z.of_nat (S p))%Z with (6 * Z.of_nat p + 3 + 3)%Z by lia.
      rewrite !inject_Z_plus. simpl. ring.
    + rewrite Qe.
      replace (Z.of_nat (S p) - Z.of_nat p)%Z with 1%Z by lia.
      replace (6 * Z.of_nat (S p) + 3)%Z with (6 * Z.of_nat p + 3 + 3 + 3)%Z by lia.
      rewrite !inject_Z_plus. simpl. ring.
Qed.

Lemma interpolateSegmentLoop_spaced fuel :
  forall i matches,
    (i + fuel = length matches)%nat ->
    (forall j, (j < i)%nat ->
       spacedRange j (Segments.matchAt matches (Z.of_nat j))) ->
    (forall j, (i <= j)%nat ->
       Segments.startTime (Segments.matchAt matches (Z.of_nat j)) = None) ->
    forall j, (j < length matches)%nat ->
      spacedRange j
        (Segments.matchAt (Segments.interpolateSegmentLoop fuel i matches)
           (Z.of_nat j)).
Proof.
  induction fuel as [|fuel IH]; intros i matches L Done Todo j Lj; simpl.
  - apply Done. lia.
  - destruct (interpolateSegmentAt_spaced matches i ltac:(lia) Done Todo)
      as [D T].
    pose proof (interpolateSegmentAt_length matches i) as Len.
    apply IH; auto; lia.
Qed.

(** With no matched segment at all, the loop gives position [i] the
    range from [6 i] to [6 i + 3] seconds. *)
Lemma unmatched_segments_general matches i :
  Forall (fun m => Segments.startTime m = None) matches ->
  (i < length matches)%nat ->
  spacedRange i
    (Segments.matchAt (Segments.interpolateSegmentTiming matches) (Z.of_nat i)).
Proof.
  intros F L. unfold Segments.interpolateSegmentTiming.
  apply interpolateSegmentLoop_spaced; auto; try (intros; lia).
  intros j _. unfold Segments.matchAt. rewrite Nat2Z.id.
  destruct (Nat.lt_ge_cases j (length matches)) as [Lj|Lj].
  - rewrite Forall_forall in F. apply F, nth_In, Lj.
  - now rewrite nth_overflow.
Qed.

(** C10. The specification reads that, with no matched segment, position
    [i] gets the range from [3 i] to [3 (i + 1)]; the code gives three
    unmatched segments the ranges [0, 3], [6, 9] and [12, 15]: from the
    second entry on, the entry filled just before counts as a matched
    neighbour. *)
Theorem unmatched_segments_spacing :
  map (fun m => (option_map Qred (Segments.startTime m),
                 option_map Qred (Segments.endTime m)))
      (Segments.interpolateSegmentTiming
         [Segments.blank 1; Segments.blank 2; Segments.blank 3])
  = [(Some 0, Some 3); (Some 6, Some 9); (Some 12, Some 15)].
Proof. vm_compute. reflexivity. Qed.

(** ** Pass 1: the windows it reports *)

Lemma growWindow_good cws full content start_ fuel :
  forall end' ww wcw peak noImp best,
    (start_ <= end')%nat -> goodBest best ->
    goodBest (Segments.growWindow cws full content start_ fuel end' ww wcw
                peak noImp best).
Proof.
  induction fuel as [|fuel IH]; intros end' ww wcw peak noImp best L G;
    simpl; auto.
  match goal with
  | |- context [(length ?w =? 0)%nat] => destruct (length w =? 0)%nat
  end.
  - apply IH; auto.
  - match goal with
    | |- context [Qltb peak ?s] => set (score_ := s)
    end.
    assert (G' : goodBest (let '(bestScore, _, _) := best in
                           if Qltb bestScore score_
                           then (score_, Z.of_nat start_, Z.of_nat end')
                           else best)).
    { destruct best as [[bs b1] b2].
      destruct (Qltb bs score_); auto. simpl. right. lia. }
    destruct (Qltb peak score_).
    + cbn [Nat.ltb Nat.leb]. apply IH; auto.
    + destruct (10 <? S noImp)%nat; auto.
Qed.

Lemma scanStarts_good cws full content fuel :
  forall start_ best,
    goodBest best ->
    goodBest (Segments.scanStarts cws full content fuel start_ best).
Proof.
  induction fuel as [|fuel IH]; intros start_ best G; simpl; auto.
  apply IH, growWindow_good; auto.
Qed.

Lemma bestWindow_proper cws seg : properRange (Segments.bestWindow cws seg).
Proof.
  unfold Segments.bestWindow, properRange.
  destruct (negb _ || _); [simpl; discriminate|].
  cbv zeta.
  match goal with
  | |- context [Segments.scanStarts ?a ?b ?c ?d ?e ?f] =>
      pose proof (scanStarts_good a b c d e f) as G;
      destruct (Segments.scanStarts a b c d e f) as [[bs b1] b2]
  end.
  simpl. intros M. rewrite M.
  apply andb_true_iff in M as [_ M]. apply Z.leb_le in M.
  destruct G as [G | G]; [simpl; now left | lia |].
  exists (Z.to_nat b1), (Z.to_nat b2). repeat split. lia.
Qed.

Lemma pass1_proper cues segments :
  Forall properRange (Segments.pass1 cues segments).
Proof.
  unfold Segments.pass1. cbv zeta. apply Forall_forall. intros m I.
  apply in_map_iff in I as (seg & <- & _). apply bestWindow_proper.
Qed.

(** ** Pass 2: conflict resolution *)

Lemma validAgainst_spec assigned :
  forall i0 idx range,
    Segments.validAgainst assigned i0 idx range = true ->
    forall k r, nth k assigned None = Some r ->
      ((i0 + k < idx)%nat ->
       (Segments.idxNum (Segments.end_ r)
        < Segments.idxNum (Segments.start range))%nat) /\
      ((idx < i0 + k)%nat ->
       (Segments.idxNum (Segments.end_ range)
        < Segments.idxNum (Segments.start r))%nat).
Proof.
  induction assigned as [|a t IH]; intros i0 idx range V k r E.
  - destruct k; discriminate.
  - simpl in V. destruct k as [|k]; simpl in E.
    + subst a. rewrite Nat.add_0_r.
      destruct (i0 <? idx)%nat eqn:L1.
      * apply Nat.ltb_lt in L1.
        destruct (Segments.idxNum (Segments.start range)
                  <=? Segments.idxNum (Segments.end_ r))%nat eqn:C;
          [discriminate|].
        apply Nat.leb_gt in C. split; intros; lia.
      * apply Nat.ltb_ge in L1.
        destruct (idx <? i0)%nat eqn:L2.
        -- destruct (Segments.idxNum (Segments.start r)
                     <=? Segments.idxNum (Segments.end_ range))%nat eqn:C;
             [discriminate|].
           apply Nat.leb_gt in C. split; intros; lia.
        -- apply Nat.ltb_ge in L2. split; intros; lia.
    + assert (V' : Segments.validAgainst t (S i0) idx range = true).
      { destruct a as [r0|]; auto.
        repeat match type of V with
               | context [if ?c then _ else _] => destruct c
               end; auto; discriminate. }
      destruct (IH (S i0) idx range V' k r E) as [A B].
      split; intros; [apply A | apply B]; lia.
Qed.

Lemma updateAt_length {A : Type} i (f : A -> A) l :
  length (Segments.updateAt i f l) = length l.
Proof.
  unfold Segments.updateAt. destruct (nth_error l i); auto using setAt_length.
Qed.

Lemma nth_error_updateAt_same {A : Type} i (f : A -> A) l x :
  nth_error (Segments.updateAt i f l) i = Some x ->
  exists y, nth_error l i = Some y /\ x = f y.
Proof.
  unfold Segments.updateAt. destruct (nth_error l i) as [y|] eqn:E.
  - rewrite nth_error_setAt_same.
    + intros [= <-]. eauto.
    + apply nth_error_Some. congruence.
  - congruence.
Qed.

Lemma nth_error_updateAt_other {A : Type} i j (f : A -> A) l :
  i <> j -> nth_error (Segments.updateAt i f l) j = nth_error l j.
Proof.
  intros N. unfold Segments.updateAt.
  destruct (nth_error l i); auto using nth_error_setAt_other.
Qed.

(** An accepted candidate. *)
Lemma resolve_step_valid orig idx m todo assigned raw :
  resolveInv orig ((idx, m) :: todo) assigned raw ->
  Segments.validAgainst assigned 0 idx (rangeOf m) = true ->
  resolveInv orig todo (setAt idx (Some (rangeOf m)) assigned) raw.
Proof.
  intros [T La Lr O R K P] V.
  assert (Hm : nth_error orig idx = Some m) by (apply T; now left).
  assert (Li : (idx < length assigned)%nat).
  { rewrite La. apply nth_error_Some. congruence. }
  constructor; auto.
  - intros; apply T; now right.
  - now rewrite setAt_length.
  - intros i j ri rj L Ei Ej.
    destruct (Nat.eq_dec idx i) as [<-|Ni]; destruct (Nat.eq_dec idx j) as [<-|Nj];
      try lia.
    + rewrite nth_setAt_same in Ei by auto. injection Ei as <-.
      rewrite nth_setAt_other in Ej by auto.
      apply (validAgainst_spec _ _ _ _ V j rj Ej). simpl. lia.
    + rewrite nth_setAt_same in Ej by auto. injection Ej as <-.
      rewrite nth_setAt_other in Ei by auto.
      apply (validAgainst_spec _ _ _ _ V i ri Ei). simpl. lia.
    + rewrite nth_setAt_other in Ei, Ej by auto. eapply O; eauto.
  - intros k r E. destruct (Nat.eq_dec idx k) as [<-|N].
    + rewrite nth_setAt_same in E by auto. injection E as <-. eauto.
    + rewrite nth_setAt_other in E by auto. auto.
  - intros k m' E M. destruct (Nat.eq_dec idx k) as [<-|N].
    + left. rewrite nth_setAt_same by auto. discriminate.
    + rewrite nth_setAt_other by auto.
      destruct (P k m' E M) as [A | [I | I]]; auto.
      injection I as -> ->. congruence.
Qed.

(** A rejected candidate. *)
Lemma resolve_step_invalid orig idx m todo assigned raw :
  resolveInv orig ((idx, m) :: todo) assigned raw ->
  resolveInv orig todo assigned (Segments.updateAt idx Segments.demote raw).
Proof.
  intros [T La Lr O R K P].
  constructor; auto.
  - intros; apply T; now right.
  - now rewrite updateAt_length.
  - intros k m' E M. destruct (Nat.eq_dec idx k) as [<-|N].
    + apply nth_error_updateAt_same in E as (y & _ & ->). discriminate.
    + rewrite nth_error_updateAt_other in E by auto. auto.
  - intros k m' E M. destruct (Nat.eq_dec idx k) as [<-|N].
    + apply nth_error_updateAt_same in E as (y & _ & ->). discriminate.
    + rewrite nth_error_updateAt_other in E by auto.
      destruct (P k m' E M) as [A | [I | I]]; auto.
      injection I as -> ->. congruence.
Qed.

Lemma resolve_inv orig todo :
  forall assigned raw,
    resolveInv orig todo assigned raw ->
    resolveInv orig []
      (fst (Segments.resolve todo assigned raw))
      (snd (Segments.resolve todo assigned raw)).
Proof.
  induction todo as [|[idx m] todo IH]; intros assigned raw I; simpl; auto.
  fold (rangeOf m).
  destruct (Segments.validAgainst assigned 0 idx (rangeOf m)) eqn:V.
  - apply IH. now apply resolve_step_valid.
  - apply IH. eapply resolve_step_invalid; eauto.
Qed.

Lemma insertDesc_In x l y :
  In y (Segments.insertDesc x l) <-> y = x \/ In y l.
Proof.
  induction l as [|z t IH]; simpl.
  - intuition.
  - destruct (Segments.confidence (snd x) <? Segments.confidence (snd z))%Z;
      simpl; rewrite ?IH; intuition.
Qed.

Lemma sortDesc_In l y : In y (Segments.sortDesc l) <-> In y l.
Proof.
  induction l as [|x t IH]; simpl; [tauto|].
  rewrite insertDesc_In, IH. intuition.
Qed.

Lemma matchedIdxs_In raw k m :
  In (k, m) (Segments.matchedIdxs raw) <->
  nth_error raw k = Some m /\ Segments.matched m = true.
Proof.
  unfold Segments.matchedIdxs.
  rewrite sortDesc_In, filter_In, In_combine_seq. simpl.
  rewrite Nat.sub_0_r. intuition. lia.
Qed.

(** Pass 2 keeps matched entries as Pass 1 made them, and the entries it
    leaves matched own ranges that follow the order of the segments. *)
Lemma pass2_spec raw0 :
  let res := Segments.pass2 raw0 in
  length res = length raw0 /\
  (forall k m, nth_error res k = Some m -> Segments.matched m = true ->
     nth_error raw0 k = Some m) /\
  (forall i j a b, (i < j)%nat ->
     nth_error res i = Some a -> nth_error res j = Some b ->
     Segments.matched a = true -> Segments.matched b = true ->
     (Segments.idxNum (Segments.endCueIdx a)
      < Segments.idxNum (Segments.startCueIdx b))%nat).
Proof.
  unfold Segments.pass2.
  assert (I0 : resolveInv raw0 (Segments.matchedIdxs raw0)
                 (repeat None (length raw0)) raw0).
  { constructor; auto.
    - intros idx m I. now apply matchedIdxs_In in I.
    - apply repeat_length.
    - intros i j ri rj _ E. rewrite nth_repeat_None in E. discriminate.
    - intros k r E. rewrite nth_repeat_None in E. discriminate.
    - intros k m E M. right. now apply matchedIdxs_In. }
  apply resolve_inv in I0.
  destruct I0 as [_ La Lr O R K P].
  set (res := snd _) in *. set (asg := fst _) in *.
  cbv zeta. repeat split; auto.
  intros i j a b L Ei Ej Ma Mb.
  assert (Ra : nth i asg None = Some (rangeOf a)).
  { destruct (P i a Ei Ma) as [N | []].
    destruct (nth i asg None) as [r|] eqn:E; [|congruence].
    destruct (R i r E) as (m & Em & ->).
    rewrite (K i a Ei Ma) in Em. congruence. }
  assert (Rb : nth j asg None = Some (rangeOf b)).
  { destruct (P j b Ej Mb) as [N | []].
    destruct (nth j asg None) as [r|] eqn:E; [|congruence].
    destruct (R j r E) as (m & Em & ->).
    rewrite (K j b Ej Mb) in Em. congruence. }
  apply (O i j _ _ L Ra Rb).
Qed.

(** ** The time steps keep the cue ranges *)

Lemma interpolateSegmentAt_key matches i :
  map matchKey (Segments.interpolateSegmentAt matches i) = map matchKey matches.
Proof.
  destruct (interpolateSegmentAt_shape matches i) as [[-> _] | (s & e & ->)];
    auto.
  rewrite map_setAt.
  replace (matchKey (Segments.setTimes (Segments.matchAt matches (Z.of_nat i)) s e))
    with (nth i (map matchKey matches)
            (matchKey (Segments.mkSegmentMatch 0 false 0 None None None None []))).
  - apply setAt_nth.
  - rewrite map_nth. unfold Segments.matchAt. now rewrite Nat2Z.id.
Qed.

Lemma interpolateSegmentLoop_key fuel :
  forall i matches,
    map matchKey (Segments.interpolateSegmentLoop fuel i matches)
    = map matchKey matches.
Proof.
  induction fuel as [|fuel IH]; intros i matches; simpl; auto.
  now rewrite IH, interpolateSegmentAt_key.
Qed.

Lemma segmentMatches_key cues segments :
  map matchKey (Segments.segmentMatches (Segments.mapSrtToSegments cues segments))
  = map matchKey (Segments.pass2 (Segments.pass1 cues segments)).
Proof.
  unfold Segments.mapSrtToSegments, Segments.interpolateSegmentTiming. simpl.
  rewrite interpolateSegmentLoop_key, map_map. reflexivity.
Qed.

Lemma key_lookup (l l' : list Segments.SegmentMatch) i a :
  map matchKey l = map matchKey l' ->
  nth_error l i = Some a ->
  exists a', nth_error l' i = Some a' /\ matchKey a' = matchKey a.
Proof.
  intros E H.
  apply (map_nth_error matchKey) in H. rewrite E in H.
  rewrite nth_error_map in H.
  destruct (nth_error l' i) as [a'|]; [|discriminate].
  exists a'. split; auto. simpl in H. congruence.
Qed.

(** ** Segment non-overlap *)

(** C2. Segment non-overlap: in the result of [mapSrtToSegments], any two
    segments [i < j] that are both still matched after Pass 2 own cue
    ranges [sa..ea] and [sb..eb] with [ea < sb]: the earlier segment's
    range ends strictly before the later segment's range starts, and no
    cue index belongs to both ranges. *)
Theorem segment_non_overlap (cues : list Cue)
    (segments : list Segments.Segment) (i j : nat)
    (a b : Segments.SegmentMatch) :
  let res := Segments.segmentMatches (Segments.mapSrtToSegments cues segments) in
  (i < j)%nat ->
  nth_error res i = Some a -> nth_error res j = Some b ->
  Segments.matched a = true -> Segments.matched b = true ->
  exists sa ea sb eb,
    Segments.startCueIdx a = Some sa /\ Segments.endCueIdx a = Some ea /\
    Segments.startCueIdx b = Some sb /\ Segments.endCueIdx b = Some eb /\
    (sa <= ea)%nat /\ (sb <= eb)%nat /\ (ea < sb)%nat /\
    (forall k, ~ ((sa <= k <= ea)%nat /\ (sb <= k <= eb)%nat)).
Proof.
  intros res L Ei Ej Ma Mb.
  pose proof (segmentMatches_key cues segments) as K. fold res in K.
  destruct (key_lookup _ _ _ _ K Ei) as (a' & Ea' & Ka).
  destruct (key_lookup _ _ _ _ K Ej) as (b' & Eb' & Kb).
  unfold matchKey in Ka, Kb. injection Ka as Ka1 Ka2 Ka3.
  injection Kb as Kb1 Kb2 Kb3.
  destruct (pass2_spec (Segments.pass1 cues segments)) as (_ & Keep & Ord).
  assert (Ma' : Segments.matched a' = true) by congruence.
  assert (Mb' : Segments.matched b' = true) by congruence.
  pose proof (Ord i j a' b' L Ea' Eb' Ma' Mb') as O.
  pose proof (pass1_proper cues segments) as P. rewrite Forall_forall in P.
  destruct (P a' (nth_error_In _ _ (Keep _ _ Ea' Ma')) Ma')
    as (sa & ea & Sa & Ea & La).
  destruct (P b' (nth_error_In _ _ (Keep _ _ Eb' Mb')) Mb')
    as (sb & eb & Sb & Eb & Lb).
  rewrite Ea, Sb in O. simpl in O.
  exists sa, ea, sb, eb.
  repeat split; try congruence; auto.
  intros k. lia.
Qed.

Lemma segment_non_overlap_witness :
  exists sa ea sb eb,
    (sa <= ea)%nat /\ (sb <= eb)%nat /\ (ea < sb)%nat /\
    map matchKey
      (Segments.segmentMatches (Segments.mapSrtToSegments talkCues orderedSegments))
    = [(true, Some sa, Some ea); (false, None, None); (true, Some sb, Some eb)].
Proof.
  set (res := Segments.segmentMatches
                (Segments.mapSrtToSegments talkCues orderedSegments)).
  destruct (segment_non_overlap talkCues orderedSegments 0 2
              (nth 0 res (Segments.blank 0)) (nth 2 res (Segments.blank 0)))
    as (sa & ea & sb & eb & Sa & Ea & Sb & Eb & La & Lb & O & _).
  - lia.
  - vm_compute. reflexivity.
  - vm_compute. reflexivity.
  - vm_compute. reflexivity.
  - vm_compute. reflexivity.
  - exists sa, ea, sb, eb. repeat split; auto.
    vm_compute in Sa, Ea, Sb, Eb.
    injection Sa as <-. injection Ea as <-.
    injection Sb as <-. injection Eb as <-.
    vm_compute. reflexivity.
Defined.

(** The scenario of the specification: the later segment's best window
    comes before the window of the earlier, more confident segment, and
    is rejected. *)
Example scenario_conflict :
  map matchKey (Segments.pass1 talkCues talkSegments)
  = [(true, Some 2%nat, Some 2%nat); (false, None, None);
     (true, Some 1%nat, Some 1%nat)] /\
  map matchKey
    (Segments.segmentMatches (Segments.mapSrtToSegments talkCues talkSegments))
  = [(true, Some 2%nat, Some 2%nat); (false, None, None); (false, None, None)].
Proof. vm_compute. split; reflexivity. Qed.

(** ** [timeToSeconds] *)

Lemma splitFrom_length sep s : forall cur,
  length (splitFrom sep cur s) = S (count_occ ascii_dec s sep).
Proof.
  induction s as [|c t IH]; intros cur; simpl; auto.
  destruct (ascii_dec c sep) as [->|N]; simpl.
  - now rewrite IH.
  - rewrite IH. reflexivity.
Qed.

Lemma split_length sep s :
  length (split sep s) = S (count_occ ascii_dec s sep).
Proof. apply splitFrom_length. Qed.

Lemma count_replaceFirst s :
  count_occ ascii_dec (replaceFirst "," "." s) ":"%char
  = count_occ ascii_dec s ":"%char.
Proof.
  induction s as [|c t IH]; simpl; auto.
  destruct (ascii_dec c ",") as [->|N]; simpl; auto.
  now rewrite IH.
Qed.

Lemma orZero_not_NaN x : orZero x <> NaN.
Proof.
  destruct x as [| | |q]; simpl; try discriminate.
  destruct (Qeq_bool q 0); discriminate.
Qed.

Lemma orZero_cases x : orZero x = Num 0 \/ orZero x = x.
Proof.
  destruct x as [| | |q]; simpl; auto.
  destruct (Qeq_bool q 0); auto.
Qed.

(** Without exactly two colons the string is read by [parseFloat]. *)
Lemma timeToSeconds_fallback s :
  s <> [] ->
  count_occ ascii_dec s ":"%char <> 2%nat ->
  timeToSeconds s = orZero (parseFloat (replaceFirst "," "." s)).
Proof.
  intros Hs Hc. unfold timeToSeconds.
  rewrite (nonEmpty_true _ Hs). cbn [negb]. cbv zeta.
  pose proof (split_length ":" (replaceFirst "," "." s)) as L.
  rewrite count_replaceFirst in L.
  destruct (split ":" (replaceFirst "," "." s)) as [|p0 [|p1 [|p2 [|p3 r]]]];
    auto.
  simpl in L. lia.
Qed.

Lemma trimStart_replaceFirst s :
  trimStart (replaceFirst "," "." s) = replaceFirst "," "." (trimStart s).
Proof.
  unfold trimStart.
  induction s as [|c t IH]; [reflexivity|].
  cbn [replaceFirst].
  destruct (ascii_dec c ",") as [->|N]; [reflexivity|].
  cbn [dropWhile].
  destruct (isSpace c); [exact IH|].
  cbn [replaceFirst]. destruct (ascii_dec c ","); [congruence | reflexivity].
Qed.

Lemma parseFloat_no_start s :
  numericStart s = false -> parseFloat (replaceFirst "," "." s) = NaN.
Proof.
  unfold numericStart, parseFloat.
  rewrite trimStart_replaceFirst.
  destruct (trimStart s) as [|c t]; [reflexivity|].
  intros H. apply orb_false_iff in H as [D H]. simpl in H.
  repeat (apply orb_false_iff in H as [? H]).
  repeat match goal with
         | E : Ascii.eqb _ _ = false |- _ => apply Ascii.eqb_neq in E
         end.
  cbn [replaceFirst].
  destruct (ascii_dec c ","); [congruence|].
  cbn [stripSign].
  destruct (ascii_dec c "-"); [congruence|].
  destruct (ascii_dec c "+"); [congruence|].
  cbn [lit list_ascii_of_string startsWith].
  destruct (ascii_dec c "I"); [congruence|].
  cbn [span]. rewrite D.
  destruct (ascii_dec c "."); [congruence|].
  reflexivity.
Qed.


(** A three-field string whose fields hold no number gives [NaN]. *)
Example three_fields_without_numbers :
  isTimestamp (lit "aa:bb:cc") = false /\
  timeToSeconds (lit "aa:bb:cc") = NaN.
Proof. vm_compute. split; reflexivity. Qed.

(** The timestamps of the specification. *)
Example timestamp_comma : normal (timeToSeconds (lit "00:01:02,500")) = Num (125 # 2).
Proof. vm_compute. reflexivity. Qed.

Example timestamp_point : normal (timeToSeconds (lit "00:01:02.500")) = Num (125 # 2).
Proof. vm_compute. reflexivity. Qed.



(* ================================================================== *)
(** * Further properties of the code *)
(* ================================================================== *)

(** ** [similarity] is symmetric *)

Lemma has_In s w : has s w = true <-> In w s.
Proof.
  unfold has. destruct (in_dec str_eq_dec w s); split; auto; discriminate.
Qed.

Lemma countIn_sym sa sb :
  NoDup sa -> NoDup sb -> countIn sa sb = countIn sb sa.
Proof.
  intros Na Nb. unfold countIn.
  apply Permutation_length, NoDup_Permutation.
  - now apply NoDup_filter.
  - now apply NoDup_filter.
  - intros x. rewrite !filter_In, !has_In. tauto.
Qed.

Lemma mkSet_NoDup l : NoDup (mkSet l).
Proof. apply NoDup_nodup. Qed.

Lemma countIn_nil_r sa : countIn sa [] = 0%nat.
Proof.
  unfold countIn. induction sa as [|x t IH]; simpl; auto.
Qed.

Lemma ratio_zero a b : ratio 0 a b == 0.
Proof. unfold ratio, Qdiv, ofNat. simpl. apply Qmult_0_l. Qed.

Lemma length_zero_nil {A : Type} (l : list A) : (0 <? length l)%nat = false -> l = [].
Proof. destruct l; [auto | discriminate]. Qed.

Lemma ratio_comm n a b : ratio n a b = ratio n b a.
Proof. unfold ratio. now rewrite Nat.max_comm. Qed.

(** The score does not depend on the order of its arguments. *)
Theorem similarity_symmetric (a b : str) : similarity a b == similarity b a.
Proof.
  unfold similarity.
  rewrite (orb_comm (negb (nonEmpty b))).
  destruct (negb (nonEmpty a) || negb (nonEmpty b)); [reflexivity|].
  rewrite (orb_comm (length (words b) =? 0)%nat).
  destruct ((length (words a) =? 0)%nat || (length (words b) =? 0)%nat);
    [reflexivity|].
  cbv zeta.
  rewrite (orb_comm (includes b a)).
  rewrite (countIn_sym (mkSet (words b)) (mkSet (words a)))
    by apply mkSet_NoDup.
  rewrite (ratio_comm _ (length (mkSet (words b)))).
  assert (E : (if (0 <? length (toBigrams a))%nat
               then ratio (countIn (toBigrams a) (toBigrams b))
                      (length (toBigrams a)) (length (toBigrams b))
               else 0)
              == (if (0 <? length (toBigrams b))%nat
                  then ratio (countIn (toBigrams b) (toBigrams a))
                         (length (toBigrams b)) (length (toBigrams a))
                  else 0)).
  { rewrite (countIn_sym (toBigrams b) (toBigrams a)) by apply mkSet_NoDup.
    rewrite (ratio_comm _ (length (toBigrams b))).
    destruct (0 <? length (toBigrams a))%nat eqn:Ea;
      destruct (0 <? length (toBigrams b))%nat eqn:Eb; try reflexivity.
    - apply length_zero_nil in Eb. rewrite Eb, countIn_nil_r.
      apply ratio_zero.
    - apply length_zero_nil in Ea. rewrite Ea. simpl.
      symmetry. apply ratio_zero. }
  rewrite E. reflexivity.
Qed.

(** ** The normal form of [normalize] *)

Lemma normChar_alphabet c : normChar c = true -> normalAlphabet c = true.
Proof.
  destruct c as [[] [] [] [] [] [] [] []]; vm_compute; congruence.
Qed.

Lemma sepOk_no_double_space t : forall b,
  sepOk b t -> includes t [SP; SP] = false.
Proof.
  induction t as [|c r IH]; intros b S; [reflexivity|].
  cbn [includes]. apply orb_false_iff. split.
  - cbn [startsWith]. destruct (ascii_dec c SP) as [->|]; [|reflexivity].
    destruct r as [|d r]; [reflexivity|].
    cbn [startsWith]. destruct (ascii_dec d SP) as [->|]; [|reflexivity].
    change (SP = SP /\ b = false /\ SP = SP /\ true = false /\ sepOk true r)
      in S.
    destruct S as (_ & _ & _ & F & _). discriminate.
  - cbn [sepOk] in S. destruct (isSpace c).
    + destruct S as (_ & _ & S). eauto.
    + eauto.
Qed.

Lemma headOk_rev_trimEnd s : headOk (rev (trimEnd s)).
Proof.
  unfold trimEnd. rewrite rev_involutive. apply headOk_trimStart.
Qed.

(** Every result of [normalize] is made of lower-case letters, digits,
    underscores and single spaces, and neither starts nor ends with a
    space. *)
Theorem normalize_normal_form (s : str) :
  Forall (fun c => normalAlphabet c = true) (normalize s) /\
  includes (normalize s) [SP; SP] = false /\
  headOk (normalize s) /\ headOk (rev (normalize s)).
Proof.
  destruct (normalize_shape s) as (F & S & _).
  repeat split.
  - eapply Forall_impl; [|exact F]. apply normChar_alphabet.
  - eapply sepOk_no_double_space; eauto.
  - apply normalize_headOk.
  - unfold normalize, trim. apply headOk_rev_trimEnd.
Qed.

(** ** [interpolateMissing] keeps the matched times *)

Lemma interpolateAt_keeps_value lo hi times i j a :
  slot times j = Some a -> slot (interpolateAt lo hi times i) j = Some a.
Proof.
  intros H.
  destruct (interpolateAt_shape lo hi times i) as [-> | (N & v & ->)]; auto.
  rewrite slot_setAt_other; auto. congruence.
Qed.

Lemma interpolateLoop_keeps_value lo hi fuel : forall i times j a,
  slot times j = Some a ->
  slot (interpolateLoop lo hi fuel i times) j = Some a.
Proof.
  induction fuel as [|fuel IH]; intros i times j a H; simpl; auto.
  apply IH. now apply interpolateAt_keeps_value.
Qed.

Lemma slot_anchorsOf mp i m :
  nth_error mp i = Some m ->
  slot (anchorsOf mp) i = if isSome (cueIdx m) then time m else None.
Proof.
  intros H. unfold slot, anchorsOf.
  apply nth_error_split in H as (l1 & l2 & -> & <-).
  rewrite map_app, app_nth2; rewrite length_map; [|lia].
  now rewrite Nat.sub_diag.
Qed.

(** A matched beat keeps the start time of its cue (rounded to the
    millisecond): interpolation only fills the unmatched beats. *)
Theorem interpolateMissing_keeps_anchors (mp : list BeatMatch)
    (cues : list Cue) (segStart segEnd : option Q) (i : nat) (m : BeatMatch)
    (k : nat) (t : Q) :
  wfMapping mp ->
  nth_error mp i = Some m -> cueIdx m = Some k -> time m = Some t ->
  nth_error (interpolateMissing mp cues segStart segEnd) i = Some (roundMs t).
Proof.
  intros W Hm Hk Ht.
  assert (A : slot (fillMatched mp) i = Some t).
  { rewrite (fillMatched_wf _ W), (slot_anchorsOf _ _ _ Hm), Hk. exact Ht. }
  unfold interpolateMissing, filledTimes. cbv zeta.
  rewrite (slot_existsb (fillMatched mp) i) by now rewrite A.
  cbn [negb].
  pose proof (interpolateLoop_keeps_value
                (floorTimeOf cues segStart)
                (ceilTimeOf cues segEnd (length mp))
                (length (fillMatched mp)) 0 _ _ _ A) as K.
  set (r := interpolateLoop _ _ _ _ _) in *.
  assert (L : (i < length r)%nat) by (eapply slot_Some_lt; eauto).
  rewrite nth_error_map.
  rewrite (nth_error_nth' r None L). fold (slot r i). rewrite K. reflexivity.
Qed.

Lemma interpolateMissing_keeps_anchors_witness :
  nth_error
    (interpolateMissing
       (buildMapping demoCues None [lit ""; lit "Bananas"; lit ""])
       demoCues None None) 1
  = Some (roundMs 3).
Proof.
  apply (interpolateMissing_keeps_anchors
           (buildMapping demoCues None [lit ""; lit "Bananas"; lit ""])
           demoCues None None 1
           (nth 1 (buildMapping demoCues None [lit ""; lit "Bananas"; lit ""])
              (unmatchedBeat 0 [] None)) 1 3).
  - apply buildMapping_wf.
  - vm_compute. reflexivity.
  - vm_compute. reflexivity.
  - vm_compute. reflexivity.
Defined.

(** ** [interpolateMissing] stays between the floor and the ceiling *)

Lemma spreadEvenly_within lo hi total :
  lo <= hi -> anchorsWithin lo hi (spreadEvenly lo hi total).
Proof.
  intros L j a E. apply slot_spreadEvenly in E as [Lj ->].
  destruct (total =? 1)%nat eqn:T.
  - split.
    + apply Qle_shift_div_l; [reflexivity | lra].
    + apply Qle_shift_div_r; [reflexivity | lra].
  - apply Nat.eqb_neq in T.
    pose proof (frac_bounds (Z.of_nat j) (Z.of_nat (total - 1))
                  ltac:(lia) ltac:(lia)) as [F0 F1].
    fold (ofNat j) (ofNat (total - 1)) in F0, F1.
    set (f := ofNat j / ofNat (total - 1)) in *. split; nra.
Qed.

Lemma filledTimes_within mp cues segStart segEnd :
  wfMapping mp ->
  floorTimeOf cues segStart <= ceilTimeOf cues segEnd (length mp) ->
  StronglySorted Qle (matchedTimes mp) ->
  Forall (fun t => floorTimeOf cues segStart <= t
                   <= ceilTimeOf cues segEnd (length mp)) (matchedTimes mp) ->
  anchorsWithin (floorTimeOf cues segStart)
    (ceilTimeOf cues segEnd (length mp))
    (filledTimes mp cues segStart segEnd).
Proof.
  intros W B S F. unfold filledTimes. cbv zeta.
  destruct (existsb isSome (fillMatched mp)); cbn [negb].
  - rewrite (fillMatched_wf _ W).
    apply interpolateLoop_inv.
    + now apply anchorsOf_sorted.
    + now apply anchorsOf_within.
  - now apply spreadEvenly_within.
Qed.



(** ** What the beat aligner records *)

Lemma withFloor_range t beatText s :
  0 <= s <= 1 -> 0 <= withFloor t beatText s <= 1.
Proof.
  intros [L H]. unfold withFloor.
  destruct (includes t beatText && (3 <=? length beatText)%nat); [|auto].
  split.
  - eapply Qle_trans; [exact L | apply Q.le_max_l].
  - apply Q.max_lub; [exact H | discriminate].
Qed.

Lemma Qmax_range a b : 0 <= a <= 1 -> 0 <= b <= 1 -> 0 <= Qmax a b <= 1.
Proof.
  intros [A0 A1] [B0 B1]. split.
  - eapply Qle_trans; [exact A0 | apply Q.le_max_l].
  - now apply Q.max_lub.
Qed.

Lemma candidateScore_range cueTexts beatText cueIdx :
  0 <= candidateScore cueTexts beatText cueIdx <= 1.
Proof.
  unfold candidateScore. cbv zeta.
  assert (S0 : forall t, 0 <= withFloor t beatText (similarity beatText t) <= 1)
    by (intros; apply withFloor_range, similarity_range).
  destruct (cueIdx + 1 <? length cueTexts)%nat;
    destruct (cueIdx + 2 <? length cueTexts)%nat;
    repeat apply Qmax_range; apply S0.
Qed.

Lemma scanCues_score cueTexts beatText fuel : forall cueIdx best,
  0 <= snd best <= 1 ->
  0 <= snd (scanCues cueTexts beatText fuel cueIdx best) <= 1.
Proof.
  induction fuel as [|fuel IH]; intros cueIdx best B; simpl; auto.
  apply IH.
  destruct (Qltb (snd best) (candidateScore cueTexts beatText cueIdx)); auto.
  simpl. apply candidateScore_range.
Qed.

Lemma mathRound_percent x :
  0 <= x <= 1 -> (0 <= mathRound (x * 100) <= 100)%Z.
Proof.
  intros [L H]. unfold mathRound. split.
  - apply Z.le_trans with (Qfloor (1 # 2)); [discriminate|].
    apply Qfloor_resp_le. lra.
  - apply Z.le_trans with (Qfloor (201 # 2)); [|discriminate].
    apply Qfloor_resp_le. lra.
Qed.

Lemma mathRound_lower (lo : Z) x :
  inject_Z lo <= x * 100 -> (lo <= mathRound (x * 100))%Z.
Proof.
  intros L. unfold mathRound.
  rewrite <- (Qfloor_Z lo). apply Qfloor_resp_le. lra.
Qed.

Lemma threshold_min beatType : 8 # 100 <= threshold beatType.
Proof.
  unfold threshold. destruct (isType beatType "label"); discriminate.
Qed.

Lemma alignBeat_entry cues beatType pos rawText searchStart :
  entryOk cues pos rawText
    (snd (alignBeat cues (map (fun c => normalize (text c)) cues) beatType
            pos rawText searchStart)).
Proof.
  set (cueTexts := map (fun c => normalize (text c)) cues).
  pose proof (alignBeat_cursor cues cueTexts beatType pos rawText searchStart)
    as C.
  unfold alignBeat, entryOk in *.
  destruct (isType beatType "silent" || isType beatType "data");
    [simpl; tauto|].
  destruct (negb (nonEmpty (normalize rawText))); [simpl; tauto|].
  pose proof (scanCues_score cueTexts (normalize rawText)
                (length cueTexts - searchStart) searchStart ((-1)%Z, 0)
                ltac:(simpl; split; discriminate)) as R.
  fold (bestCandidate cueTexts (normalize rawText) searchStart) in R.
  destruct (bestCandidate cueTexts (normalize rawText) searchStart)
    as [bi bs].
  destruct (Qle_bool (threshold beatType) bs && (0 <=? bi)%Z) eqn:A;
    [|simpl; tauto].
  simpl in *. apply andb_true_iff in A as [A _]. apply Qle_bool_iff in A.
  destruct C as [[_ C] _]. unfold cueTexts in C. rewrite length_map in C.
  repeat split; auto.
  - apply mathRound_lower. pose proof (threshold_min beatType).
    change (inject_Z 8) with (8 # 1). lra.
  - apply mathRound_percent, R.
Qed.

Lemma alignLoop_entries cues types rest : forall pos searchStart i m,
  nth_error (alignLoop cues (map (fun c => normalize (text c)) cues) types
               rest pos searchStart) i = Some m ->
  exists rawText,
    nth_error rest i = Some rawText /\ entryOk cues (pos + i) rawText m.
Proof.
  induction rest as [|x rest IH]; intros pos searchStart i m H.
  - destruct i; discriminate.
  - simpl in H.
    pose proof (alignBeat_entry cues (beatTypeAt types pos) pos x searchStart)
      as E.
    destruct (alignBeat cues (map (fun c => normalize (text c)) cues)
                (beatTypeAt types pos) pos x searchStart) as [ss' m0].
    destruct i as [|i]; simpl in *.
    + injection H as <-. exists x. rewrite Nat.add_0_r. auto.
    + apply IH in H as (r & Hr & Hm). exists r.
      replace (pos + S i)%nat with (S pos + i)%nat by lia. auto.
Qed.

(** Entry [i] of the mapping is about beat [i] and keeps its text.  A
    matched entry names a cue that exists and carries that cue's id, text
    and start time, with a score between 8 and 100; an unmatched entry has
    score 0 and no cue data. *)
Theorem mapping_entries (cues : list Cue) (types : option (list str))
    (beatTexts : list str) (i : nat) (m : BeatMatch) :
  nth_error (buildMapping cues types beatTexts) i = Some m ->
  exists rawText,
    nth_error beatTexts i = Some rawText /\ entryOk cues i rawText m.
Proof. intros H. apply (alignLoop_entries cues types beatTexts 0 0 i m H). Qed.

Lemma mapping_entries_witness :
  exists rawText,
    nth_error [lit "Apples"; lit "Bananas"] 1 = Some rawText /\
    entryOk demoCues 1 rawText
      (nth 1 (buildMapping demoCues None [lit "Apples"; lit "Bananas"])
         (unmatchedBeat 0 [] None)).
Proof.
  apply (mapping_entries demoCues None [lit "Apples"; lit "Bananas"] 1).
  vm_compute. reflexivity.
Defined.

Lemma filter_length_all {A : Type} (p : A -> bool) l :
  length (filter p l) = length l <-> forall x, In x l -> p x = true.
Proof.
  induction l as [|x t IH]; simpl; [tauto|].
  pose proof (filter_length_le p t) as Le.
  destruct (p x) eqn:E; simpl.
  - split.
    + intros H y [<- | I]; auto. apply IH; auto.
    + intros H. f_equal. apply IH. auto.
  - split; [lia|]. intros H. rewrite (H x) in E by auto. discriminate.
Qed.

(** The [matched] flag of the result tells that every beat received a
    cue; it is never set on the fallback path. *)
Theorem matched_flag (cues : list Cue) (beatTexts : list str) (opts : Opts) :
  let r := mapSrtToBeatsIntelligent cues beatTexts opts in
  matched r = true <->
  beatTexts <> [] /\
  forall m, In m (buildMapping cues (beatTypes opts) beatTexts) ->
            cueIdx m <> None.
Proof.
  unfold mapSrtToBeatsIntelligent.
  destruct beatTexts as [|b bs]; cbn [length Nat.eqb matched].
  - split; [discriminate | intros [H _]; congruence].
  - set (mp := buildMapping cues (beatTypes opts) (b :: bs)).
    rewrite Nat.eqb_eq.
    assert (L : length mp = S (length bs))
      by apply (alignLoop_length cues _ (beatTypes opts) (b :: bs)).
    rewrite <- L, filter_length_all.
    split.
    + intros H. split; [discriminate|]. intros m I E.
      specialize (H m I). rewrite E in H. discriminate.
    + intros [_ H] m I. specialize (H m I). now destruct (cueIdx m).
Qed.

Lemma matched_flag_witness :
  matched (mapSrtToBeatsIntelligent demoCues [lit "Apples"; lit "Bananas"] noOpts)
  = true.
Proof.
  apply (matched_flag demoCues [lit "Apples"; lit "Bananas"] noOpts).
  split; [discriminate|].
  intros m I. vm_compute in I.
  destruct I as [<- | [<- | []]]; discriminate.
Defined.

(** ** What Pass 1 reports *)

Lemma countIn_le sa sb : (countIn sa sb <= length sa)%nat.
Proof. unfold countIn. apply filter_length_le. Qed.

Lemma coverage_range n d : (n <= d)%nat -> (0 < d)%nat ->
  0 <= ofNat n / ofNat d <= 1.
Proof.
  intros L P. apply (frac_bounds (Z.of_nat n) (Z.of_nat d)); lia.
Qed.

Lemma growWindow_ok cws full content start_ fuel :
  forall end' ww wcw peak noImp best,
    (start_ <= end')%nat ->
    (end' + fuel <= Nat.min (length cws) (start_ + 40))%nat ->
    windowOk (length cws) best ->
    windowOk (length cws)
      (Segments.growWindow cws full content start_ fuel end' ww wcw
         peak noImp best).
Proof.
  induction fuel as [|fuel IH]; intros end' ww wcw peak noImp best L B G;
    simpl; auto.
  match goal with
  | |- context [(length ?w =? 0)%nat] =>
      set (wcw' := w); destruct (length wcw' =? 0)%nat eqn:Z0
  end.
  - apply IH; auto; lia.
  - apply Nat.eqb_neq in Z0.
    match goal with
    | |- context [Qltb peak ?s] => set (score_ := s)
    end.
    assert (Sr : 0 <= score_ <= 1).
    { unfold score_.
      pose proof (coverage_range (countIn wcw' full) (length wcw')
                    (countIn_le _ _) ltac:(lia)) as [A0 A1].
      set (a := ofNat (countIn wcw' full) / ofNat (length wcw')) in *.
      destruct (0 <? length content)%nat eqn:C.
      - apply Nat.ltb_lt in C.
        match goal with
        | |- context [countIn content ?w] =>
            pose proof (coverage_range (countIn content w) (length content)
                          (countIn_le _ _) C) as [B0 B1];
            set (b := ofNat (countIn content w) / ofNat (length content)) in *
        end.
        split; lra.
      - split; lra. }
    assert (G' : windowOk (length cws)
                   (let '(bestScore, _, _) := best in
                    if Qltb bestScore score_
                    then (score_, Z.of_nat start_, Z.of_nat end')
                    else best)).
    { destruct best as [[bs b1] b2].
      destruct (Qltb bs score_); auto.
      simpl. split; auto. right. lia. }
    destruct (Qltb peak score_).
    + cbn [Nat.ltb Nat.leb]. apply IH; auto; lia.
    + destruct (10 <? S noImp)%nat; auto. apply IH; auto; lia.
Qed.

Lemma scanStarts_ok cws full content fuel :
  forall start_ best,
    (start_ + fuel <= length cws)%nat ->
    windowOk (length cws) best ->
    windowOk (length cws)
      (Segments.scanStarts cws full content fuel start_ best).
Proof.
  induction fuel as [|fuel IH]; intros start_ best L G; simpl; auto.
  apply IH; [lia|]. apply growWindow_ok; auto. lia.
Qed.

Lemma bestWindow_ok cws seg :
  rawMatchOk (length cws) seg (Segments.bestWindow cws seg).
Proof.
  unfold Segments.bestWindow, rawMatchOk.
  destruct (negb (nonEmpty (normalize (Segments.script seg)))
            || (length (normalize (Segments.script seg)) <? 10)%nat) eqn:Short.
  { simpl. repeat split; try lia; discriminate. }
  apply orb_false_iff in Short as [_ Short]. apply Nat.ltb_ge in Short.
  cbv zeta.
  match goal with
  | |- context [Segments.scanStarts ?a ?b ?c ?d ?e ?f] =>
      pose proof (scanStarts_ok a b c d e f) as G;
      destruct (Segments.scanStarts a b c d e f) as [[bs b1] b2]
  end.
  destruct G as [Sr W];
    [simpl; lia | simpl; split; [split; discriminate | now left]|].
  cbn [Segments.num Segments.htmlFiles Segments.startTime Segments.endTime
       Segments.confidence Segments.matched Segments.startCueIdx
       Segments.endCueIdx].
  repeat split; try apply (mathRound_percent bs Sr);
    try match goal with M : _ = false |- _ => now rewrite M end.
  intros M. rewrite M.
  apply andb_true_iff in M as [Mq Mz].
  apply Qle_bool_iff in Mq. apply Z.leb_le in Mz.
  destruct W as [W | W]; [lia|].
  exists (Z.to_nat b1), (Z.to_nat b2).
  repeat split; auto; try lia.
  apply mathRound_lower. change (inject_Z 25) with (25 # 1). lra.
Qed.

Lemma pass1_entries cues segments i seg :
  nth_error segments i = Some seg ->
  exists m, nth_error (Segments.pass1 cues segments) i = Some m /\
            rawMatchOk (length cues) seg m.
Proof.
  intros H. unfold Segments.pass1. cbv zeta.
  eexists. split.
  - apply map_nth_error, H.
  - pose proof (bestWindow_ok
                  (map (fun t => mkSet (words t))
                     (map (fun c => normalize (text c)) cues)) seg) as R.
    now rewrite !length_map in R.
Qed.

(** ** What Pass 2 and the time steps change *)

Lemma resolve_entries todo : forall assigned raw k m,
  nth_error (snd (Segments.resolve todo assigned raw)) k = Some m ->
  exists m0, nth_error raw k = Some m0 /\
             (m = m0 \/ m = Segments.demote m0).
Proof.
  induction todo as [|[idx x] todo IH]; intros assigned raw k m H; simpl in H.
  - eauto.
  - destruct (Segments.validAgainst assigned 0 idx _).
    + eauto.
    + apply IH in H as (m1 & H1 & R).
      destruct (Nat.eq_dec idx k) as [->|N].
      * apply nth_error_updateAt_same in H1 as (y & Hy & ->).
        exists y. split; auto. right.
        destruct R as [-> | ->]; reflexivity.
      * rewrite nth_error_updateAt_other in H1 by auto. eauto.
Qed.

Lemma pass2_entries raw0 k m :
  nth_error (Segments.pass2 raw0) k = Some m ->
  exists m0, nth_error raw0 k = Some m0 /\
             (m = m0 \/ m = Segments.demote m0).
Proof. apply resolve_entries. Qed.

Lemma interpolateSegmentAt_cases matches i :
  Segments.interpolateSegmentAt matches i = matches \/
  (Segments.startTime (Segments.matchAt matches (Z.of_nat i)) = None /\
   exists s e,
     Segments.interpolateSegmentAt matches i
     = setAt i (Segments.setTimes (Segments.matchAt matches (Z.of_nat i)) s e)
         matches).
Proof.
  unfold Segments.interpolateSegmentAt. cbv zeta.
  rewrite slot_map_startTime.
  destruct (Segments.startTime (Segments.matchAt matches (Z.of_nat i)));
    cbn [isSome]; auto.
  right. split; auto.
  repeat match goal with
         | |- context [if ?c then _ else _] => destruct c
         end; eauto.
Qed.

Lemma matchAt_nth_error matches j m :
  nth_error matches j = Some m -> Segments.matchAt matches (Z.of_nat j) = m.
Proof.
  intros H. unfold Segments.matchAt. rewrite Nat2Z.id.
  now apply nth_error_nth.
Qed.

Lemma interpolateSegmentAt_entry matches i j m :
  nth_error matches j = Some m ->
  exists m', nth_error (Segments.interpolateSegmentAt matches i) j = Some m' /\
    (m' = m \/
     (Segments.startTime m = None /\
      exists s e, m' = Segments.setTimes m s e)).
Proof.
  intros H.
  destruct (interpolateSegmentAt_cases matches i) as [-> | (N & s & e & ->)];
    [eauto|].
  destruct (Nat.eq_dec i j) as [->|D].
  - rewrite (matchAt_nth_error _ _ _ H) in *.
    rewrite nth_error_setAt_same by (apply nth_error_Some; congruence).
    eauto 7.
  - rewrite nth_error_setAt_other by auto. eauto.
Qed.

Lemma interpolateSegmentLoop_entry fuel : forall i matches j m,
  nth_error matches j = Some m ->
  exists m', nth_error (Segments.interpolateSegmentLoop fuel i matches) j
             = Some m' /\
    (m' = m \/
     (Segments.startTime m = None /\
      exists s e, m' = Segments.setTimes m s e)).
Proof.
  induction fuel as [|fuel IH]; intros i matches j m H; simpl; [eauto|].
  destruct (interpolateSegmentAt_entry matches i j m H) as (m1 & H1 & R1).
  destruct (IH (S i) _ j m1 H1) as (m2 & H2 & R2).
  exists m2. split; auto.
  destruct R1 as [-> | (N & s & e & ->)]; auto.
  destruct R2 as [-> | (N2 & _)]; [eauto 6 | discriminate].
Qed.

Lemma pass1_In cues segments m :
  In m (Segments.pass1 cues segments) ->
  exists seg, rawMatchOk (length cues) seg m.
Proof.
  intros I. destruct (In_nth_error _ _ I) as (k & Hk).
  unfold Segments.pass1 in Hk. cbv zeta in Hk. rewrite nth_error_map in Hk.
  destruct (nth_error segments k) as [seg|] eqn:E; [|discriminate].
  destruct (pass1_entries cues segments k seg E) as (m' & Hm' & R).
  unfold Segments.pass1 in Hm'. cbv zeta in Hm'.
  rewrite nth_error_map, E in Hm'. simpl in Hk, Hm'.
  exists seg. congruence.
Qed.

(** What [mapSrtToSegments] hands to [interpolateSegmentTiming]. *)
Lemma passes_paired cues segments :
  Forall timesPaired
    (map (Segments.withTimes cues)
       (Segments.pass2 (Segments.pass1 cues segments))).
Proof.
  apply Forall_forall. intros x I.
  apply in_map_iff in I as (y & <- & Iy).
  apply withTimes_paired.
  destruct (In_nth_error _ _ Iy) as (k & Hk).
  destruct (pass2_entries _ _ _ Hk) as (y0 & Hy0 & Ry).
  destruct (pass1_In cues segments y0 (nth_error_In _ _ Hy0))
    as (seg & _ & _ & _ & _ & _ & M & U).
  destruct Ry as [-> | ->]; [|simpl; discriminate].
  destruct (Segments.matched y0).
  - destruct (M eq_refl) as (s & e & -> & -> & _). reflexivity.
  - destruct (U eq_refl) as [-> _]. discriminate.
Qed.

Lemma segment_entry_ok (cues : list Cue) (segments : list Segments.Segment)
    (i : nat) (seg : Segments.Segment) :
  nth_error segments i = Some seg ->
  exists m,
    nth_error (Segments.segmentMatches (Segments.mapSrtToSegments cues segments)) i
    = Some m /\
    segmentMatchOk cues seg m.
Proof.
  intros H.
  destruct (pass1_entries cues segments i seg H) as (m0 & H0 & R0).
  assert (L2 : (i < length (Segments.pass2 (Segments.pass1 cues segments)))%nat).
  { rewrite (proj1 (pass2_spec _)). apply nth_error_Some. congruence. }
  destruct (nth_error (Segments.pass2 (Segments.pass1 cues segments)) i)
    as [m1|] eqn:H1; [|apply nth_error_Some in L2; congruence].
  destruct (pass2_entries _ _ _ H1) as (m0' & H0' & R1).
  rewrite H0 in H0'. injection H0' as <-.
  assert (H2 : nth_error
                 (map (Segments.withTimes cues)
                    (Segments.pass2 (Segments.pass1 cues segments))) i
               = Some (Segments.withTimes cues m1))
    by (apply map_nth_error, H1).
  destruct (interpolateSegmentLoop_entry
              (length (map (Segments.withTimes cues)
                         (Segments.pass2 (Segments.pass1 cues segments))))
              0 _ i _ H2) as (m & Hm & R).
  exists m. split; [exact Hm|].
  destruct R0 as (N & F & _ & _ & C & M & U).
  assert (T : timesSet m).
  { pose proof (passes_paired cues segments) as P.
    destruct (interpolateSegmentTiming_complete _ P) as [_ TS].
    rewrite Forall_forall in TS. apply TS.
    apply (nth_error_In _ _ Hm). }
  (* the fields other than the times come from Pass 1 and Pass 2 *)
  assert (K : Segments.num m = Segments.num m1 /\
              Segments.htmlFiles m = Segments.htmlFiles m1 /\
              Segments.confidence m = Segments.confidence m1 /\
              Segments.matched m = Segments.matched m1 /\
              Segments.startCueIdx m = Segments.startCueIdx m1 /\
              Segments.endCueIdx m = Segments.endCueIdx m1).
  { destruct R as [-> | (_ & s & e & ->)]; simpl; auto 10. }
  destruct K as (K1 & K2 & K3 & K4 & K5 & K6).
  unfold segmentMatchOk. rewrite K1, K2, K3, K4, K5, K6.
  destruct R1 as [-> | ->].
  - split; [exact N|]. split; [exact F|].
    split; [exact C|]. split; [exact T|]. split; [|exact U].
    intros Mt. destruct (M Mt) as (s & e & Es & Ee & B1 & B2 & B3 & B4).
    exists s, e.
    assert (Same : m = Segments.withTimes cues m0).
    { destruct R as [-> | (Nn & _)]; auto.
      simpl in Nn. rewrite Es in Nn. discriminate. }
    repeat split; auto; try lia; rewrite Same; simpl.
    + now rewrite Es.
    + now rewrite Ee.
  - simpl. split; [exact N|]. split; [exact F|].
    split; [exact C|]. split; [exact T|].
    split; [discriminate | auto].
Qed.

(** For every segment, in order, [mapSrtToSegments] returns one entry
    with the segment's number and files, a confidence between 0 and 100
    and both times set.  A matched entry has confidence at least 25, a
    script of at least 10 normalised characters and a window of at most
    40 cues inside the cue list, and its times are the start of the
    window's first cue and the end of its last cue; an unmatched entry
    has no cue range. *)
Theorem segment_entries (cues : list Cue) (segments : list Segments.Segment)
    (i : nat) (seg : Segments.Segment) :
  nth_error segments i = Some seg ->
  exists m,
    nth_error (Segments.segmentMatches (Segments.mapSrtToSegments cues segments)) i
    = Some m /\
    segmentMatchOk cues seg m.
Proof. apply segment_entry_ok. Qed.

Lemma segment_entries_witness :
  exists m,
    nth_error
      (Segments.segmentMatches (Segments.mapSrtToSegments talkCues orderedSegments))
      2 = Some m /\
    segmentMatchOk talkCues
      (Segments.mkSegment 3
         (lit "Customers loved the redesigned dashboard experience") []) m.
Proof.
  apply (segment_entries talkCues orderedSegments 2). reflexivity.
Defined.

(** ** Matched segments follow each other in time *)

Lemma segmentMatches_length cues segments :
  length (Segments.segmentMatches (Segments.mapSrtToSegments cues segments))
  = length segments.
Proof.
  pose proof (f_equal (@length _) (segmentMatches_key cues segments)) as E.
  rewrite !length_map in E. rewrite E.
  rewrite (proj1 (pass2_spec _)).
  unfold Segments.pass1. cbv zeta. now rewrite length_map.
Qed.

Lemma segment_entry_of_result cues segments i m :
  nth_error (Segments.segmentMatches (Segments.mapSrtToSegments cues segments)) i
  = Some m ->
  exists seg, nth_error segments i = Some seg /\ segmentMatchOk cues seg m.
Proof.
  intros H.
  assert (L : (i < length segments)%nat).
  { rewrite <- (segmentMatches_length cues). apply nth_error_Some. congruence. }
  destruct (nth_error segments i) as [seg|] eqn:E;
    [|apply nth_error_Some in L; congruence].
  destruct (segment_entry_ok cues segments i seg E) as (m' & Hm' & R).
  exists seg. split; auto. congruence.
Qed.

Lemma segment_ranges_ordered cues segments i j a b :
  let res := Segments.segmentMatches (Segments.mapSrtToSegments cues segments) in
  (i < j)%nat ->
  nth_error res i = Some a -> nth_error res j = Some b ->
  Segments.matched a = true -> Segments.matched b = true ->
  (Segments.idxNum (Segments.endCueIdx a)
   < Segments.idxNum (Segments.startCueIdx b))%nat.
Proof.
  intros res L Ei Ej Ma Mb.
  pose proof (segmentMatches_key cues segments) as K. fold res in K.
  destruct (key_lookup _ _ _ _ K Ei) as (a' & Ea' & Ka).
  destruct (key_lookup _ _ _ _ K Ej) as (b' & Eb' & Kb).
  unfold matchKey in Ka, Kb. injection Ka as Ka1 Ka2 Ka3.
  injection Kb as Kb1 Kb2 Kb3.
  destruct (pass2_spec (Segments.pass1 cues segments)) as (_ & _ & Ord).
  rewrite <- Ka3, <- Kb2.
  apply (Ord i j a' b' L Ea' Eb'); congruence.
Qed.

(** On a cue list in which no cue starts before an earlier one has ended,
    the time ranges of the matched segments follow the order of the
    segments: an earlier matched segment ends no later than a later matched
    segment starts. *)
Theorem matched_segments_in_time_order (cues : list Cue)
    (segments : list Segments.Segment) (i j : nat)
    (a b : Segments.SegmentMatch) :
  let res := Segments.segmentMatches (Segments.mapSrtToSegments cues segments) in
  cuesSequential cues ->
  (i < j)%nat ->
  nth_error res i = Some a -> nth_error res j = Some b ->
  Segments.matched a = true -> Segments.matched b = true ->
  exists ea sb,
    Segments.endTime a = Some ea /\ Segments.startTime b = Some sb /\
    ea <= sb.
Proof.
  intros res Sq L Ei Ej Ma Mb.
  pose proof (segment_ranges_ordered cues segments i j a b L Ei Ej Ma Mb) as O.
  destruct (segment_entry_of_result cues segments i a Ei)
    as (sa & _ & _ & _ & _ & _ & Ra & _).
  destruct (segment_entry_of_result cues segments j b Ej)
    as (sb & _ & _ & _ & _ & _ & Rb & _).
  destruct (Ra Ma) as (s1 & e1 & _ & Ee1 & B1 & _ & _ & _ & _ & Te1).
  destruct (Rb Mb) as (s2 & e2 & Es2 & _ & B2 & _ & _ & _ & Ts2 & _).
  rewrite Ee1, Es2 in O. simpl in O.
  exists (endTime (cueAt cues e1)), (startTime (cueAt cues s2)).
  repeat split; auto. apply Sq. lia.
Qed.

Lemma matched_segments_in_time_order_witness :
  exists ea sb,
    Segments.endTime
      (nth 0 (Segments.segmentMatches
                (Segments.mapSrtToSegments talkCues orderedSegments))
         (Segments.blank 0)) = Some ea /\
    Segments.startTime
      (nth 2 (Segments.segmentMatches
                (Segments.mapSrtToSegments talkCues orderedSegments))
         (Segments.blank 0)) = Some sb /\
    ea <= sb.
Proof.
  apply (matched_segments_in_time_order talkCues orderedSegments 0 2).
  - intros a b [L1 L2]. simpl in L2.
    destruct b as [|[|[|[|b]]]]; try lia;
      destruct a as [|[|[|a]]]; try lia; vm_compute; discriminate.
  - lia.
  - reflexivity.
  - reflexivity.
  - reflexivity.
  - reflexivity.
Defined.

(** ** The most confident match survives Pass 2 *)

Lemma validAgainst_none n : forall i0 idx range,
  Segments.validAgainst (repeat None n) i0 idx range = true.
Proof. induction n as [|n IH]; intros; simpl; auto. Qed.

Lemma resolve_untouched i todo : forall assigned raw,
  (forall p, In p todo -> fst p <> i) ->
  nth_error (snd (Segments.resolve todo assigned raw)) i = nth_error raw i.
Proof.
  induction todo as [|[idx x] todo IH]; intros assigned raw H; simpl; auto.
  assert (N : idx <> i) by (apply (H (idx, x)); now left).
  destruct (Segments.validAgainst assigned 0 idx _).
  - apply IH. intros p I. apply H. now right.
  - rewrite IH by (intros p I; apply H; now right).
    now apply nth_error_updateAt_other.
Qed.

Lemma sortDesc_head l1 : forall x l2,
  (forall y, In y l1 ->
     (Segments.confidence (snd y) < Segments.confidence (snd x))%Z) ->
  (forall y, In y l2 ->
     (Segments.confidence (snd y) <= Segments.confidence (snd x))%Z) ->
  exists r, Segments.sortDesc (l1 ++ x :: l2) = x :: r /\
            forall y, In y r -> In y (l1 ++ l2).
Proof.
  induction l1 as [|a l1 IH]; intros x l2 H1 H2; simpl.
  - destruct (Segments.sortDesc l2) as [|y r] eqn:E; simpl.
    + exists []. split; auto. intros y [].
    + assert (Iy : In y l2) by (apply sortDesc_In; rewrite E; now left).
      destruct (Segments.confidence (snd x) <? Segments.confidence (snd y))%Z
        eqn:C.
      * apply Z.ltb_lt in C. specialize (H2 y Iy). lia.
      * exists (y :: r). split; auto.
        intros z Iz. apply sortDesc_In. now rewrite E.
  - destruct (IH x l2) as (r & E & Hr).
    + intros y I. apply H1. now right.
    + exact H2.
    + fold (Segments.sortDesc (l1 ++ x :: l2)). rewrite E. simpl.
      replace (Segments.confidence (snd a) <? Segments.confidence (snd x))%Z
        with true
        by (symmetry; apply Z.ltb_lt, H1; now left).
      exists (Segments.insertDesc a r). split; auto.
      intros y I. apply insertDesc_In in I as [-> | I]; [now left|].
      right. now apply Hr.
Qed.

Lemma combine_seq_sorted {A : Type} (l : list A) : forall i0,
  StronglySorted (fun p q : nat * A => (fst p < fst q)%nat)
    (combine (seq i0 (length l)) l).
Proof.
  induction l as [|x t IH]; intros i0; simpl; constructor; auto.
  apply Forall_forall. intros [k y] I.
  apply In_combine_seq in I as [L _]. simpl. lia.
Qed.

Lemma StronglySorted_filter {A : Type} (R : A -> A -> Prop) (p : A -> bool) l :
  StronglySorted R l -> StronglySorted R (filter p l).
Proof.
  induction 1 as [|x t S IH F]; simpl; [constructor|].
  destruct (p x); auto. constructor; auto.
  rewrite Forall_forall in *. intros y I. apply F.
  now apply filter_In in I as [I _].
Qed.

Lemma StronglySorted_split {A : Type} (R : A -> A -> Prop) l1 : forall x l2,
  StronglySorted R (l1 ++ x :: l2) ->
  (forall y, In y l1 -> R y x) /\ (forall y, In y l2 -> R x y).
Proof.
  induction l1 as [|a l1 IH]; intros x l2 S; simpl in S.
  - inversion S as [|? ? _ F]; subst. rewrite Forall_forall in F.
    split; [intros y [] | auto].
  - inversion S as [|? ? S' F]; subst. rewrite Forall_forall in F.
    destruct (IH x l2 S') as [A1 A2]. split; auto.
    intros y [<- | I]; auto. apply F. apply in_or_app. right. now left.
Qed.

(** A matched segment whose confidence is the highest (the first one, in
    segment order, when several share it) is still matched, with the same
    cue range, after the conflict resolution of Pass 2. *)
Theorem best_match_survives (rawMatches : list Segments.SegmentMatch)
    (i : nat) (m : Segments.SegmentMatch) :
  nth_error rawMatches i = Some m ->
  Segments.matched m = true ->
  (forall j m', nth_error rawMatches j = Some m' ->
                Segments.matched m' = true ->
                (Segments.confidence m' <= Segments.confidence m)%Z /\
                ((j < i)%nat ->
                 (Segments.confidence m' < Segments.confidence m)%Z)) ->
  nth_error (Segments.pass2 rawMatches) i = Some m.
Proof.
  intros Hi Mi Top. unfold Segments.pass2, Segments.matchedIdxs.
  set (l0 := filter (fun p => Segments.matched (snd p))
               (combine (seq 0 (length rawMatches)) rawMatches)).
  assert (I0 : In (i, m) l0).
  { apply filter_In. split; auto. apply In_combine_seq.
    rewrite Nat.sub_0_r. split; [lia | auto]. }
  assert (S0 : StronglySorted (fun p q => (fst p < fst q)%nat) l0)
    by apply StronglySorted_filter, combine_seq_sorted.
  assert (In0 : forall j m', In (j, m') l0 ->
                  nth_error rawMatches j = Some m' /\
                  Segments.matched m' = true).
  { intros j m' I. apply filter_In in I as [I M].
    apply In_combine_seq in I as [_ I]. rewrite Nat.sub_0_r in I. auto. }
  destruct (in_split _ _ I0) as (l1 & l2 & E). rewrite E in S0.
  destruct (StronglySorted_split _ _ _ _ S0) as [Before After].
  destruct (sortDesc_head l1 (i, m) l2) as (r & Es & Hr).
  - intros [j m'] I. simpl.
    destruct (In0 j m') as [Hj Mj]; [rewrite E; apply in_or_app; now left|].
    apply (Top j m' Hj Mj). apply (Before _ I).
  - intros [j m'] I. simpl.
    destruct (In0 j m') as [Hj Mj];
      [rewrite E; apply in_or_app; right; now right|].
    apply (Top j m' Hj Mj).
  - rewrite E, Es. simpl.
    rewrite validAgainst_none.
    rewrite resolve_untouched; auto.
    intros [j m'] I. simpl. apply Hr in I.
    apply in_app_or in I as [I | I].
    + specialize (Before _ I). simpl in Before. lia.
    + specialize (After _ I). simpl in After. lia.
Qed.

Lemma best_match_survives_witness :
  nth_error (Segments.pass2 (Segments.pass1 talkCues talkSegments)) 0
  = nth_error (Segments.pass1 talkCues talkSegments) 0.
Proof.
  set (raw := Segments.pass1 talkCues talkSegments).
  set (m := nth 0 raw (Segments.blank 0)).
  change (nth_error raw 0) with (Some m).
  apply (best_match_survives raw 0 m).
  - reflexivity.
  - reflexivity.
  - intros j m' Hj Mj.
    destruct j as [|[|[|[|j]]]]; vm_compute in Hj; try discriminate;
      injection Hj as <-; vm_compute; split;
        try discriminate; intros; try lia.
Defined.

(** ** [interpolateSegmentTiming] only fills in missing times *)

(** An entry that comes with a start time is returned unchanged; any
    other entry changes in its two times only. *)
Theorem interpolateSegmentTiming_keeps (matches : list Segments.SegmentMatch)
    (j : nat) (m : Segments.SegmentMatch) :
  nth_error matches j = Some m ->
  exists m',
    nth_error (Segments.interpolateSegmentTiming matches) j = Some m' /\
    (Segments.startTime m <> None -> m' = m) /\
    Segments.num m' = Segments.num m /\
    Segments.matched m' = Segments.matched m /\
    Segments.confidence m' = Segments.confidence m /\
    Segments.startCueIdx m' = Segments.startCueIdx m /\
    Segments.endCueIdx m' = Segments.endCueIdx m /\
    Segments.htmlFiles m' = Segments.htmlFiles m.
Proof.
  intros H. unfold Segments.interpolateSegmentTiming.
  destruct (interpolateSegmentLoop_entry (length matches) 0 matches j m H)
    as (m' & Hm' & R).
  exists m'. split; auto.
  destruct R as [-> | (N & s & e & ->)]; simpl; repeat split; auto.
  intros C. congruence.
Qed.

Lemma interpolateSegmentTiming_keeps_witness :
  exists m',
    nth_error
      (Segments.interpolateSegmentTiming
         [Segments.blank 1; Segments.setTimes (Segments.blank 2) 10 12]) 1
    = Some m' /\
    m' = Segments.setTimes (Segments.blank 2) 10 12.
Proof.
  destruct (interpolateSegmentTiming_keeps
              [Segments.blank 1; Segments.setTimes (Segments.blank 2) 10 12] 1
              (Segments.setTimes (Segments.blank 2) 10 12) eq_refl)
    as (m' & H & K & _).
  exists m'. split; auto. apply K. discriminate.
Defined.

(** ** Decimal digits *)

Lemma isDigit_facts c :
  isDigit c = true ->
  isSpace c = false /\ c <> "-"%char /\ c <> "+"%char /\ c <> "I"%char /\
  c <> "."%char /\ c <> ":"%char /\ c <> ","%char /\
  (0 <= digitVal c <= 9)%Z.
Proof.
  destruct c as [[] [] [] [] [] [] [] []]; vm_compute; intros H;
    try discriminate H; repeat split; discriminate.
Qed.

Lemma digitChar_digit d : (d < 10)%N ->
  isDigit (digitChar d) = true /\ digitVal (digitChar d) = Z.of_N d.
Proof.
  intros L.
  assert (E : (d = 0 \/ d = 1 \/ d = 2 \/ d = 3 \/ d = 4 \/ d = 5 \/ d = 6
               \/ d = 7 \/ d = 8 \/ d = 9)%N) by lia.
  repeat destruct E as [-> | E]; try subst d; split; reflexivity.
Qed.

Lemma digitsVal_from acc (ds : str) :
  fold_left (fun a c => (a * 10 + digitVal c)%Z) ds acc
  = (acc * 10 ^ Z.of_nat (length ds) + digitsVal ds)%Z.
Proof.
  unfold digitsVal. revert acc.
  induction ds as [|d ds IH]; intros acc; simpl fold_left.
  - simpl. lia.
  - rewrite IH.
    match goal with
    | |- _ = (_ + fold_left _ _ ?a)%Z => rewrite (IH a)
    end.
    change (length (d :: ds)) with (S (length ds)).
    rewrite Nat2Z.inj_succ, Z.pow_succ_r by lia. lia.
Qed.

Lemma digitsVal_cons d ds :
  digitsVal (d :: ds)
  = (digitVal d * 10 ^ Z.of_nat (length ds) + digitsVal ds)%Z.
Proof.
  unfold digitsVal at 1. simpl fold_left. rewrite digitsVal_from. lia.
Qed.

Lemma digitsVal_app ds es :
  digitsVal (ds ++ es)
  = (digitsVal ds * 10 ^ Z.of_nat (length es) + digitsVal es)%Z.
Proof.
  unfold digitsVal at 1. rewrite fold_left_app.
  fold (digitsVal ds). apply digitsVal_from.
Qed.

Lemma digitsVal_nonneg ds :
  Forall (fun c => isDigit c = true) ds -> (0 <= digitsVal ds)%Z.
Proof.
  induction 1 as [|d ds Hd _ IH]; [reflexivity|].
  rewrite digitsVal_cons.
  destruct (isDigit_facts d Hd) as (_ & _ & _ & _ & _ & _ & _ & V).
  assert (0 <= 10 ^ Z.of_nat (length ds))%Z by (apply Z.pow_nonneg; lia).
  nia.
Qed.

Lemma digitsFuel_spec fuel : forall n acc,
  (n < 2 ^ N.of_nat fuel)%N ->
  Forall (fun c => isDigit c = true) acc ->
  Forall (fun c => isDigit c = true) (digitsFuel fuel n acc) /\
  digitsVal (digitsFuel fuel n acc)
  = (Z.of_N n * 10 ^ Z.of_nat (length acc) + digitsVal acc)%Z.
Proof.
  induction fuel as [|fuel IH]; intros n acc L F.
  - simpl in *. assert (n = 0%N) by lia. subst. simpl. auto.
  - cbn [digitsFuel].
    destruct (digitChar_digit (n mod 10)) as [D V];
      [apply N.mod_upper_bound; lia|].
    assert (F' : Forall (fun c => isDigit c = true)
                   (digitChar (n mod 10) :: acc)) by (constructor; auto).
    assert (Val : digitsVal (digitChar (n mod 10) :: acc)
                  = (Z.of_N (n mod 10) * 10 ^ Z.of_nat (length acc)
                     + digitsVal acc)%Z)
      by (rewrite digitsVal_cons, V; reflexivity).
    pose proof (N.div_mod n 10 ltac:(lia)) as DM.
    destruct (n / 10 =? 0)%N eqn:Z0.
    + apply N.eqb_eq in Z0. split; auto.
      rewrite Val. f_equal. f_equal. lia.
    + apply N.eqb_neq in Z0.
      destruct (IH (n / 10)%N (digitChar (n mod 10) :: acc)) as [F2 V2];
        auto.
      * rewrite Nat2N.inj_succ, N.pow_succ_r' in L.
        apply N.Div0.div_lt_upper_bound. lia.
      * split; auto. rewrite V2, Val.
        change (length (digitChar (n mod 10) :: acc)) with (S (length acc)).
        rewrite Nat2Z.inj_succ, Z.pow_succ_r by lia.
        assert (Z.of_N n = 10 * Z.of_N (n / 10) + Z.of_N (n mod 10))%Z by lia.
        lia.
Qed.

Lemma digitsFuel_length fuel : forall k n acc,
  (n < 10 ^ N.of_nat (S k))%N ->
  (length (digitsFuel (S fuel) n acc) <= S k + length acc)%nat /\
  (1 + length acc <= length (digitsFuel (S fuel) n acc))%nat.
Proof.
  induction fuel as [|fuel IH]; intros k n acc L; cbn [digitsFuel].
  - destruct (n / 10 =? 0)%N; simpl; lia.
  - destruct (n / 10 =? 0)%N eqn:Z0; [simpl; lia|].
    apply N.eqb_neq in Z0.
    destruct k as [|k].
    + exfalso. apply Z0. apply N.div_small. simpl in L. lia.
    + destruct (IH k (n / 10)%N (digitChar (n mod 10) :: acc)) as [A B].
      * rewrite (Nat2N.inj_succ (S k)), N.pow_succ_r' in L.
        apply N.Div0.div_lt_upper_bound. lia.
      * cbn [digitsFuel] in A, B. simpl length in A, B. lia.
Qed.

Lemma digitsFuel_grows fuel : forall n acc,
  (length acc <= length (digitsFuel fuel n acc))%nat.
Proof.
  induction fuel as [|fuel IH]; intros n acc; cbn [digitsFuel]; auto.
  destruct (n / 10 =? 0)%N; simpl; [lia|].
  specialize (IH (n / 10)%N (digitChar (n mod 10) :: acc)). simpl in IH. lia.
Qed.

(** The digits written for a non-negative integer: at least one, all
    decimal, and they read back as the integer. *)
Lemma intToString_digits z :
  (0 <= z)%Z ->
  intToString z <> [] /\
  Forall (fun c => isDigit c = true) (intToString z) /\
  digitsVal (intToString z) = z.
Proof.
  intros P. unfold intToString.
  replace (z <? 0)%Z with false by (symmetry; apply Z.ltb_ge; lia).
  set (n := Z.to_N z).
  destruct (digitsFuel_spec (S (N.to_nat (N.log2 n))) n []) as [F V].
  - rewrite Nat2N.inj_succ, N2Nat.id.
    destruct (N.eq_dec n 0) as [->|Nz]; [reflexivity|].
    apply N.log2_spec. lia.
  - constructor.
  - split; [|split; auto].
    + intros E.
      pose proof (digitsFuel_grows (S (N.to_nat (N.log2 n))) n []) as B.
      cbn [digitsFuel] in B, E.
      destruct (n / 10 =? 0)%N; [discriminate|].
      pose proof (digitsFuel_grows (N.to_nat (N.log2 n)) (n / 10)%N
                    [digitChar (n mod 10)]) as B'.
      rewrite E in B'. simpl in B'. lia.
    + rewrite V. unfold n. cbn [length Z.of_nat Z.pow digitsVal fold_left].
      rewrite Z2N.id by lia. lia.
Qed.

Lemma intToString_short z k :
  (0 <= z < 10 ^ Z.of_nat (S k))%Z -> (length (intToString z) <= S k)%nat.
Proof.
  intros [P L]. unfold intToString.
  replace (z <? 0)%Z with false by (symmetry; apply Z.ltb_ge; lia).
  destruct (digitsFuel_length (N.to_nat (N.log2 (Z.to_N z))) k (Z.to_N z) [])
    as [A _];
    [|change (length (@nil ascii)) with 0%nat in A;
      rewrite Nat.add_0_r in A; exact A].
  apply N2Z.inj_lt. rewrite Z2N.id by lia.
  rewrite N2Z.inj_pow, nat_N_Z. exact L.
Qed.

(** ** Reading runs of digits *)

Lemma span_digits ds : forall r,
  Forall (fun c => isDigit c = true) ds ->
  match r with [] => True | c :: _ => isDigit c = false end ->
  span isDigit (ds ++ r) = (ds, r).
Proof.
  induction ds as [|d ds IH]; intros r F R.
  - destruct r as [|c t]; simpl; auto. now rewrite R.
  - inversion F as [|? ? Hd F']; subst. simpl. rewrite Hd.
    now rewrite (IH r F' R).
Qed.

Lemma span_digits_all ds :
  Forall (fun c => isDigit c = true) ds -> span isDigit ds = (ds, []).
Proof.
  intros F. rewrite <- (app_nil_r ds) at 1. now apply span_digits.
Qed.

Lemma parseInt10_digits ds :
  ds <> [] -> Forall (fun c => isDigit c = true) ds ->
  parseInt10 ds = Num (inject_Z (digitsVal ds)).
Proof.
  intros N F. unfold parseInt10.
  destruct ds as [|d ds]; [congruence|].
  inversion F as [|? ? Hd F']; subst.
  destruct (isDigit_facts d Hd) as (Sp & Mi & Pl & _).
  unfold trimStart. cbn [dropWhile]. rewrite Sp.
  cbn [stripSign].
  destruct (ascii_dec d "-"); [congruence|].
  destruct (ascii_dec d "+"); [congruence|].
  rewrite (span_digits_all _ F). reflexivity.
Qed.

Lemma parseFloat_decimal ds fs :
  ds <> [] ->
  Forall (fun c => isDigit c = true) ds ->
  Forall (fun c => isDigit c = true) fs ->
  exists v,
    parseFloat (ds ++ "."%char :: fs) = Num v /\
    v == inject_Z (digitsVal ds)
         + inject_Z (digitsVal fs) / inject_Z (10 ^ Z.of_nat (length fs)).
Proof.
  intros N F G. unfold parseFloat.
  destruct ds as [|d ds]; [congruence|].
  inversion F as [|? ? Hd F']; subst.
  destruct (isDigit_facts d Hd) as (Sp & Mi & Pl & In & _).
  unfold trimStart. cbn [app dropWhile]. rewrite Sp.
  cbn [stripSign].
  destruct (ascii_dec d "-"); [congruence|].
  destruct (ascii_dec d "+"); [congruence|].
  cbn [lit list_ascii_of_string startsWith].
  destruct (ascii_dec d "I"); [congruence|].
  change (d :: ds ++ "."%char :: fs) with ((d :: ds) ++ "."%char :: fs).
  rewrite (span_digits (d :: ds) ("."%char :: fs) F eq_refl).
  destruct (ascii_dec "." ".") as [_|C]; [|congruence].
  rewrite (span_digits_all _ G).
  eexists. split; [reflexivity|].
  cbn [exponentPart Qpower]. ring.
Qed.

Lemma splitFrom_field sep xs : forall cur rest,
  Forall (fun c => c <> sep) xs ->
  splitFrom sep cur (xs ++ sep :: rest)
  = (rev cur ++ xs) :: splitFrom sep [] rest.
Proof.
  induction xs as [|x xs IH]; intros cur rest F; simpl.
  - destruct (ascii_dec sep sep); [|congruence]. now rewrite app_nil_r.
  - inversion F; subst. destruct (ascii_dec x sep); [congruence|].
    rewrite IH by auto. simpl. now rewrite <- app_assoc.
Qed.

Lemma splitFrom_last sep xs : forall cur,
  Forall (fun c => c <> sep) xs ->
  splitFrom sep cur xs = [rev cur ++ xs].
Proof.
  induction xs as [|x xs IH]; intros cur F; simpl.
  - now rewrite app_nil_r.
  - inversion F; subst. destruct (ascii_dec x sep); [congruence|].
    rewrite IH by auto. simpl. now rewrite <- app_assoc.
Qed.

Lemma replaceFirst_at a b p : forall t,
  Forall (fun c => c <> a) p ->
  replaceFirst a b (p ++ a :: t) = p ++ b :: t.
Proof.
  induction p as [|x p IH]; intros t F; simpl.
  - destruct (ascii_dec a a); [reflexivity | congruence].
  - inversion F; subst. destruct (ascii_dec x a); [congruence|].
    now rewrite IH.
Qed.

Lemma replaceFirst_absent a b s :
  Forall (fun c => c <> a) s -> replaceFirst a b s = s.
Proof.
  induction 1 as [|x s Hx _ IH]; simpl; auto.
  destruct (ascii_dec x a); [congruence|]. now rewrite IH.
Qed.

Lemma digits_not (a : ascii) ds :
  isDigit a = false ->
  Forall (fun c => isDigit c = true) ds -> Forall (fun c => c <> a) ds.
Proof.
  intros Ha F. eapply Forall_impl; [|exact F].
  simpl. intros c Hc ->. congruence.
Qed.

(** A timestamp made of three non-empty runs of digits separated by
    colons, then a comma or a point and a run of fraction digits, is read
    as hours, minutes, seconds and fraction. *)
Lemma timeToSeconds_clock hs ms ss fs sep :
  hs <> [] -> ms <> [] -> ss <> [] ->
  Forall (fun c => isDigit c = true) hs ->
  Forall (fun c => isDigit c = true) ms ->
  Forall (fun c => isDigit c = true) ss ->
  Forall (fun c => isDigit c = true) fs ->
  sep = ","%char \/ sep = "."%char ->
  exists q,
    timeToSeconds (hs ++ ":"%char :: ms ++ ":"%char :: ss ++ sep :: fs) = Num q
    /\ q == clockValue hs ms ss fs.
Proof.
  intros Nh Nm Ns Fh Fm Fs Ff Sep.
  set (clean := hs ++ ":"%char :: ms ++ ":"%char :: ss ++ "."%char :: fs).
  assert (NC : forall ds, Forall (fun c => isDigit c = true) ds ->
                 Forall (fun c => c <> ","%char) ds)
    by (intros; now apply digits_not).
  assert (NK : forall ds, Forall (fun c => isDigit c = true) ds ->
                 Forall (fun c => c <> ":"%char) ds)
    by (intros; now apply digits_not).
  assert (Cl : replaceFirst "," "."
                 (hs ++ ":"%char :: ms ++ ":"%char :: ss ++ sep :: fs) = clean).
  { destruct Sep as [-> | ->].
    - replace (hs ++ ":"%char :: ms ++ ":"%char :: ss ++ ","%char :: fs)
        with ((hs ++ ":"%char :: ms ++ ":"%char :: ss) ++ ","%char :: fs)
        by (rewrite <- !app_assoc; simpl; now rewrite <- !app_assoc).
      rewrite replaceFirst_at.
      + unfold clean. rewrite <- !app_assoc. simpl. now rewrite <- !app_assoc.
      + repeat (apply Forall_app; split; auto);
          constructor; try discriminate.
        apply Forall_app. split; auto. constructor; [discriminate|auto].
    - apply replaceFirst_absent.
      repeat (apply Forall_app; split; auto);
        constructor; try discriminate.
      apply Forall_app. split; auto. constructor; [discriminate|].
      apply Forall_app. split; auto. constructor; [discriminate|auto]. }
  unfold timeToSeconds.
  replace (nonEmpty (hs ++ ":"%char :: ms ++ ":"%char :: ss ++ sep :: fs))
    with true by (destruct hs; [congruence | reflexivity]).
  cbn [negb]. cbv zeta. rewrite Cl. unfold clean, split.
  rewrite splitFrom_field, splitFrom_field, splitFrom_last; auto.
  2:{ apply Forall_app. split; auto. constructor; [discriminate|auto]. }
  cbn [rev app].
  rewrite (parseInt10_digits hs Nh Fh), (parseInt10_digits ms Nm Fm).
  destruct (parseFloat_decimal ss fs Ns Fs Ff) as (v & -> & Ev).
  cbn [jsMul jsAdd]. eexists. split; [reflexivity|].
  unfold clockValue. rewrite Ev. reflexivity.
Qed.

(** Every well-formed timestamp [HH:MM:SS,mmm] or [HH:MM:SS.mmm] is read
    as the number of seconds it writes. *)
Theorem timeToSeconds_timestamp (s : str) :
  isTimestamp s = true ->
  exists q, timeToSeconds s = Num q /\ q == timestampValue s.
Proof.
  unfold isTimestamp.
  destruct s as [|h1 [|h2 [|c1 [|m1 [|m2 [|c2 [|s1 [|s2 [|sep
                 [|f1 [|f2 [|f3 [|x r]]]]]]]]]]]]]; try discriminate.
  intros H.
  apply andb_true_iff in H as [H Hsep].
  apply andb_true_iff in H as [H Hc2].
  apply andb_true_iff in H as [H Hc1].
  apply Ascii.eqb_eq in Hc1, Hc2. subst c1 c2.
  cbn [forallb] in H.
  apply andb_true_iff in H as [D1 H]. apply andb_true_iff in H as [D2 H].
  apply andb_true_iff in H as [D3 H]. apply andb_true_iff in H as [D4 H].
  apply andb_true_iff in H as [D5 H]. apply andb_true_iff in H as [D6 H].
  apply andb_true_iff in H as [D7 H]. apply andb_true_iff in H as [D8 H].
  apply andb_true_iff in H as [D9 _].
  assert (Sep : sep = ","%char \/ sep = "."%char).
  { apply orb_true_iff in Hsep as [E | E]; apply Ascii.eqb_eq in E; auto. }
  destruct (timeToSeconds_clock [h1; h2] [m1; m2] [s1; s2] [f1; f2; f3] sep)
    as (q & E & V); try discriminate; auto.
  exists q. split; [exact E | exact V].
Qed.

Lemma timeToSeconds_timestamp_witness :
  exists q, timeToSeconds (lit "01:02:05,042") = Num q /\
            q == timestampValue (lit "01:02:05,042").
Proof.
  apply (timeToSeconds_timestamp (lit "01:02:05,042")). reflexivity.
Defined.

(** ** Writing a time and reading it back *)

Lemma Qfloor_unique (y : Q) (z : Z) :
  inject_Z z <= y -> y < inject_Z (z + 1) -> Qfloor y = z.
Proof.
  intros L U.
  assert (A : (z <= Qfloor y)%Z).
  { rewrite <- (Qfloor_Z z). now apply Qfloor_resp_le. }
  assert (B : (Qfloor y < z + 1)%Z).
  { rewrite Zlt_Qlt. eapply Qle_lt_trans; [apply Qfloor_le | exact U]. }
  lia.
Qed.

Lemma Qfloor_bounds (x : Q) :
  inject_Z (Qfloor x) <= x /\ x < inject_Z (Qfloor x) + 1.
Proof.
  split; [apply Qfloor_le|].
  generalize (Qlt_floor x). rewrite inject_Z_plus. auto.
Qed.

Lemma Qfloor_nonneg (x : Q) : 0 <= x -> (0 <= Qfloor x)%Z.
Proof.
  intros H. change 0%Z with (Qfloor 0). now apply Qfloor_resp_le.
Qed.

(** The integer part of an integer plus a fraction, divided by a
    positive integer. *)
Lemma Qfloor_div (n : Z) (f : Q) (d : Z) :
  (0 < d)%Z -> 0 <= f -> f < 1 ->
  Qfloor ((inject_Z n + f) / inject_Z d) = (n / d)%Z.
Proof.
  intros D F0 F1.
  assert (Dq : 0 < inject_Z d) by (change 0 with (inject_Z 0); now rewrite <- Zlt_Qlt).
  pose proof (Z.div_mod n d ltac:(lia)) as E.
  pose proof (Z.mod_pos_bound n d D) as B.
  apply Qfloor_unique.
  - apply Qle_shift_div_l; [exact Dq|].
    rewrite <- inject_Z_mult.
    apply Qle_trans with (inject_Z n); [|lra].
    rewrite <- Zle_Qle. nia.
  - apply Qlt_shift_div_r; [exact Dq|].
    rewrite <- inject_Z_mult.
    apply Qlt_le_trans with (inject_Z n + 1); [lra|].
    change 1 with (inject_Z 1). rewrite <- inject_Z_plus.
    rewrite <- Zle_Qle. nia.
Qed.

Lemma mathRound_comp (a b : Q) : a == b -> mathRound a = mathRound b.
Proof. intros E. unfold mathRound. now rewrite E. Qed.

Lemma mathRound_shift (n : Z) (y : Q) :
  mathRound (inject_Z n + y) = (n + mathRound y)%Z.
Proof.
  unfold mathRound.
  destruct (Qfloor_bounds (y + (1 # 2))) as [L U].
  apply Qfloor_unique.
  - rewrite inject_Z_plus. lra.
  - rewrite !inject_Z_plus. change (inject_Z 1) with 1. lra.
Qed.

Lemma padStart0_digits n s :
  Forall (fun c => isDigit c = true) s ->
  Forall (fun c => isDigit c = true) (padStart0 n s).
Proof.
  intros F. unfold padStart0. apply Forall_app. split; [|exact F].
  apply Forall_forall. intros c H. apply repeat_spec in H. now subst.
Qed.

Lemma digitsVal_zeros k : digitsVal (repeat "0"%char k) = 0%Z.
Proof.
  induction k as [|k IH]; [reflexivity|].
  cbn [repeat]. rewrite digitsVal_cons, IH. reflexivity.
Qed.

Lemma padStart0_val n s : digitsVal (padStart0 n s) = digitsVal s.
Proof.
  unfold padStart0. rewrite digitsVal_app, digitsVal_zeros. lia.
Qed.

Lemma padStart0_nonempty n s : s <> [] -> padStart0 n s <> [].
Proof.
  unfold padStart0. intros N E. apply app_eq_nil in E. tauto.
Qed.

Lemma padStart0_length n s : length (padStart0 n s) = Nat.max n (length s).
Proof.
  unfold padStart0. rewrite length_app, repeat_length. lia.
Qed.

(** The fields written by [secondsToSrtTime] for a time that is not
    negative: whole hours, minutes and seconds of the integer part, and
    the rounded thousandths of the fraction. *)
Lemma secondsToSrtTime_fields (x : Q) :
  0 <= x ->
  let n := Qfloor x in
  let ms := mathRound ((x - inject_Z n) * 1000) in
  secondsToSrtTime x
  = padStart0 2 (intToString (n / 3600)) ++ ":"%char
      :: padStart0 2 (intToString ((n mod 3600) / 60)) ++ ":"%char
      :: padStart0 2 (intToString (n mod 60)) ++ ","%char
      :: padStart0 3 (intToString ms).
Proof.
  intros X n ms.
  destruct (Qfloor_bounds x) as [L U]. fold n in L, U.
  set (f := x - inject_Z n).
  assert (F0 : 0 <= f) by (unfold f; lra).
  assert (F1 : f < 1) by (unfold f; lra).
  assert (Ex : x == inject_Z n + f) by (unfold f; ring).
  assert (H : mathFloor (x / 3600) = (n / 3600)%Z).
  { unfold mathFloor. rewrite Ex.
    exact (Qfloor_div n f 3600 eq_refl F0 F1). }
  assert (T : forall d : Z, (0 < d)%Z ->
            truncate (x / inject_Z d) = (n / d)%Z).
  { intros d D. unfold truncate.
    assert (Dq : 0 < inject_Z d)
      by (change 0 with (inject_Z 0); now rewrite <- Zlt_Qlt).
    replace (Qle_bool 0 (x / inject_Z d)) with true.
    - rewrite Ex. now apply Qfloor_div.
    - symmetry. apply Qle_bool_iff. apply Qle_shift_div_l; [exact Dq | lra]. }
  assert (R : forall d : Z, (0 < d)%Z ->
            jsRem x (inject_Z d) == inject_Z (n mod d) + f).
  { intros d D. unfold jsRem. rewrite (T d D).
    pose proof (Z.div_mod n d ltac:(lia)) as E.
    assert (E' : inject_Z n == inject_Z d * inject_Z (n / d) + inject_Z (n mod d)).
    { rewrite <- inject_Z_mult, <- inject_Z_plus. now rewrite <- E. }
    rewrite Ex at 1. rewrite E'. ring. }
  assert (M : mathFloor (jsRem x 3600 / 60) = ((n mod 3600) / 60)%Z).
  { unfold mathFloor.
    change 3600 with (inject_Z 3600). rewrite (R 3600%Z eq_refl).
    exact (Qfloor_div (n mod 3600) f 60 eq_refl F0 F1). }
  assert (S : mathFloor (jsRem x 60) = (n mod 60)%Z).
  { unfold mathFloor.
    change 60 with (inject_Z 60). rewrite (R 60%Z eq_refl).
    apply Qfloor_unique; [lra|]. rewrite inject_Z_plus.
    change (inject_Z 1) with 1. lra. }
  assert (MS : mathRound ((jsRem x 60 - inject_Z (mathFloor (jsRem x 60))) * 1000)
               = ms).
  { unfold ms. apply mathRound_comp. rewrite S.
    change 60 with (inject_Z 60). rewrite (R 60%Z eq_refl).
    fold f. ring. }
  unfold secondsToSrtTime. cbv zeta. rewrite MS, H, M, S. reflexivity.
Qed.

(** What [timeToSeconds] reads in the timestamp written for [x]. *)
Lemma secondsToSrtTime_reads (x : Q) :
  0 <= x ->
  let n := Qfloor x in
  let ms := mathRound ((x - inject_Z n) * 1000) in
  exists q,
    timeToSeconds (secondsToSrtTime x) = Num q /\
    q == inject_Z n
         + inject_Z ms
           / inject_Z (10 ^ Z.of_nat (Nat.max 3 (length (intToString ms)))).
Proof.
  intros X n ms.
  pose proof (Qfloor_nonneg x X) as N0. fold n in N0.
  destruct (Qfloor_bounds x) as [L U]. fold n in L, U.
  assert (MS0 : (0 <= ms)%Z).
  { unfold ms, mathRound. apply Qfloor_nonneg. nra. }
  pose proof (Z.div_pos n 3600 N0 eq_refl) as H0.
  pose proof (Z.mod_pos_bound n 3600 eq_refl) as B1.
  pose proof (Z.mod_pos_bound n 60 eq_refl) as B2.
  assert (M0 : (0 <= (n mod 3600) / 60)%Z) by (apply Z.div_pos; lia).
  destruct (intToString_digits _ H0) as (Nh & Fh & Vh).
  destruct (intToString_digits _ M0) as (Nm & Fm & Vm).
  destruct (intToString_digits (n mod 60)%Z ltac:(lia)) as (Ns & Fs & Vs).
  destruct (intToString_digits _ MS0) as (Nf & Ff & Vf).
  rewrite (secondsToSrtTime_fields x X). fold n. fold ms.
  destruct (timeToSeconds_clock
              (padStart0 2 (intToString (n / 3600)))
              (padStart0 2 (intToString ((n mod 3600) / 60)))
              (padStart0 2 (intToString (n mod 60)))
              (padStart0 3 (intToString ms)) ","%char)
    as (q & E & V);
    auto using padStart0_digits, padStart0_nonempty.
  exists q. split; [exact E|].
  rewrite V. unfold clockValue.
  rewrite !padStart0_val, padStart0_length, Vh, Vm, Vs, Vf.
  assert (D : (n = n / 3600 * 3600 + (n mod 3600) / 60 * 60 + n mod 60)%Z).
  { pose proof (Z.div_mod n 3600 ltac:(lia)).
    pose proof (Z.div_mod (n mod 3600) 60 ltac:(lia)).
    assert ((n mod 3600) mod 60 = n mod 60)%Z.
    { apply Z.mod_unique with (n / 3600 * 60 + (n mod 3600) / 60)%Z.
      - left. apply Z.mod_pos_bound. lia.
      - pose proof (Z.div_mod (n mod 3600) 60 ltac:(lia)). lia. }
    lia. }
  rewrite D at 4.
  rewrite !inject_Z_plus, !inject_Z_mult.
  change (inject_Z 3600) with 3600. change (inject_Z 60) with 60. ring.
Qed.





(** ** Beat times spread over a segment *)

Lemma roundMs_eq (a b : Q) : a == b -> roundMs a = roundMs b.
Proof.
  intros E. unfold roundMs.
  rewrite (mathRound_comp (a * 1000) (b * 1000)); [reflexivity|].
  now rewrite E.
Qed.

Lemma Qmax_one_pred (n : nat) :
  (2 <= n)%nat -> Qmax 1 (ofNat n - 1) == ofNat n - 1.
Proof.
  intros N. apply Q.max_r. unfold ofNat.
  assert (H : inject_Z 2 <= inject_Z (Z.of_nat n)) by (rewrite <- Zle_Qle; lia).
  change (inject_Z 2) with 2 in H. lra.
Qed.

Lemma distributeBeats_many (s e : Q) (n : nat) :
  (2 <= n)%nat ->
  distributeBeats s e n
  = map (fun i => roundMs (s + (ofNat i / (ofNat n - 1)) * (e - s))) (seq 0 n).
Proof.
  intros N. unfold distributeBeats.
  destruct (Nat.ltb_spec 0 n); [|lia].
  destruct (Nat.eqb_spec n 1); [lia|].
  apply map_ext. intros i. apply roundMs_eq.
  now rewrite (Qmax_one_pred n N).
Qed.

Lemma even_position (s e : Q) (n i : nat) :
  (2 <= n)%nat -> (i < n)%nat -> s <= e ->
  s <= s + (ofNat i / (ofNat n - 1)) * (e - s) <= e.
Proof.
  intros N I L.
  assert (E : ofNat n - 1 == inject_Z (Z.of_nat n - 1)).
  { unfold ofNat, Z.sub. rewrite inject_Z_plus. reflexivity. }
  rewrite E. unfold ofNat. apply lerp_bounds; [exact L | lia | lia].
Qed.

Lemma even_position_mono (s e : Q) (n i : nat) :
  (2 <= n)%nat -> s <= e ->
  s + (ofNat i / (ofNat n - 1)) * (e - s)
  <= s + (ofNat (S i) / (ofNat n - 1)) * (e - s).
Proof.
  intros N L.
  assert (P : 0 < ofNat n - 1).
  { unfold ofNat.
    assert (H : inject_Z 2 <= inject_Z (Z.of_nat n)) by (rewrite <- Zle_Qle; lia).
    change (inject_Z 2) with 2 in H. lra. }
  assert (I : ofNat i <= ofNat (S i)) by (unfold ofNat; rewrite <- Zle_Qle; lia).
  assert (D : ofNat i / (ofNat n - 1) <= ofNat (S i) / (ofNat n - 1)).
  { unfold Qdiv. apply Qmult_le_compat_r; [exact I|].
    apply Qlt_le_weak, Qinv_lt_0_compat, P. }
  nra.
Qed.



(** [POST /rematch-segment] spreads the beats of a file over the new
    range exactly as [POST /match-srt] spreads them over the matched
    range. *)
Theorem rematch_same_spread (startTime endTime : Q) (beatCount : nat) :
  redistributeBeats startTime endTime (Nat.max 1 beatCount)
  = distributeBeats startTime endTime beatCount.
Proof.
  destruct (Nat.le_gt_cases 2 beatCount) as [N | N].
  - rewrite (distributeBeats_many _ _ _ N).
    replace (Nat.max 1 beatCount) with beatCount by lia.
    unfold redistributeBeats.
    destruct (Nat.ltb_spec 1 beatCount); [reflexivity | lia].
  - destruct beatCount as [|[|k]]; [reflexivity | reflexivity | lia].
Qed.

(** ** The cue closest to a time *)

Lemma mathAbs_nonneg x : 0 <= mathAbs x.
Proof.
  unfold mathAbs. destruct (Qle_bool 0 x) eqn:E.
  - now apply Qle_bool_iff.
  - assert (~ 0 <= x) by (rewrite <- Qle_bool_iff; congruence). lra.
Qed.

Lemma Qltb_spec a b : Qltb a b = true <-> a < b.
Proof.
  unfold Qltb. rewrite negb_true_iff. split.
  - intros H. apply Qnot_le_lt. rewrite <- Qle_bool_iff. congruence.
  - intros H. destruct (Qle_bool b a) eqn:E; [|reflexivity].
    apply Qle_bool_iff in E. lra.
Qed.

(** The state of the [reduce] after the cues [done_] (the cues seen so
    far, in order): [best] is the first cue of [c0 :: done_] whose start
    is nearest to [t]. *)
Lemma closest_fold (t : Q) (rest : list Cue) : forall (seen : list Cue) (i : nat) (best : Cue),
  nth_error seen i = Some best ->
  (forall j c', nth_error seen j = Some c' ->
     mathAbs (startTime best - t) <= mathAbs (startTime c' - t) /\
     ((j < i)%nat -> mathAbs (startTime best - t) < mathAbs (startTime c' - t))) ->
  exists i' c,
    fold_left (closerCue t) rest best = c /\
    nth_error (seen ++ rest) i' = Some c /\
    (forall j c', nth_error (seen ++ rest) j = Some c' ->
       mathAbs (startTime c - t) <= mathAbs (startTime c' - t) /\
       ((j < i')%nat -> mathAbs (startTime c - t) < mathAbs (startTime c' - t))).
Proof.
  induction rest as [|x rest IH]; intros seen i best Hi Hb.
  - exists i, best. rewrite app_nil_r. auto.
  - cbn [fold_left].
    replace (seen ++ x :: rest) with ((seen ++ [x]) ++ rest)
      by (rewrite <- app_assoc; reflexivity).
    assert (Li : (i < length seen)%nat)
      by (apply nth_error_Some; congruence).
    unfold closerCue at 2.
    destruct (Qltb (mathAbs (startTime x - t)) (mathAbs (startTime best - t)))
      eqn:C.
    + apply Qltb_spec in C.
      apply (IH (seen ++ [x]) (length seen) x).
      * rewrite nth_error_app2, Nat.sub_diag by lia. reflexivity.
      * intros j c' Hj.
        destruct (Nat.lt_ge_cases j (length seen)) as [J | J].
        -- rewrite nth_error_app1 in Hj by exact J.
           destruct (Hb j c' Hj) as [B _]. split; [lra | intros _; lra].
        -- rewrite nth_error_app2 in Hj by exact J.
           destruct (j - length seen)%nat as [|k] eqn:K;
             [|destruct k; discriminate].
           injection Hj as <-. split; [lra | lia].
    + assert (C' : mathAbs (startTime best - t) <= mathAbs (startTime x - t)).
      { apply Qnot_lt_le. rewrite <- Qltb_spec. congruence. }
      apply (IH (seen ++ [x]) i best).
      * rewrite nth_error_app1 by exact Li. exact Hi.
      * intros j c' Hj.
        destruct (Nat.lt_ge_cases j (length seen)) as [J | J].
        -- rewrite nth_error_app1 in Hj by exact J. exact (Hb j c' Hj).
        -- rewrite nth_error_app2 in Hj by exact J.
           destruct (j - length seen)%nat as [|k] eqn:K;
             [|destruct k; discriminate].
           injection Hj as <-. split; [exact C' | lia].
Qed.

(** On a cue list that is not empty, the cue that [POST /rematch-segment]
    takes for the new start time is a cue of the list whose start is
    nearest to that time, and the first such cue of the list. *)
Theorem closestCue_nearest (allCues : list Cue) (newStartTime : Q) :
  allCues <> [] ->
  exists i c,
    closestCue allCues newStartTime = Some c /\
    nth_error allCues i = Some c /\
    (forall j c', nth_error allCues j = Some c' ->
       mathAbs (startTime c - newStartTime)
       <= mathAbs (startTime c' - newStartTime) /\
       ((j < i)%nat ->
        mathAbs (startTime c - newStartTime)
        < mathAbs (startTime c' - newStartTime))).
Proof.
  intros N. destruct allCues as [|c0 rest]; [congruence|].
  unfold closestCue. cbn [fold_left].
  assert (E : closerCue newStartTime c0 c0 = c0).
  { unfold closerCue. destruct (Qltb _ _); reflexivity. }
  rewrite E.
  destruct (closest_fold newStartTime rest [c0] 0 c0 eq_refl) as (i & c & F & Hi & H).
  - intros j c' Hj. destruct j as [|[|j]]; try discriminate.
    injection Hj as <-. split; [apply Qle_refl | lia].
  - exists i, c. rewrite F. auto.
Qed.

Lemma closestCue_nearest_witness :
  exists i c,
    closestCue demoCues 4 = Some c /\
    nth_error demoCues i = Some c /\
    (forall j c', nth_error demoCues j = Some c' ->
       mathAbs (startTime c - 4) <= mathAbs (startTime c' - 4) /\
       ((j < i)%nat ->
        mathAbs (startTime c - 4) < mathAbs (startTime c' - 4))).
Proof.
  apply (closestCue_nearest demoCues 4). discriminate.
Defined.

(** ** The frame schedule *)

Lemma Qceiling_le_iff (x : Q) (z : Z) :
  (Qceiling x <= z)%Z <-> x <= inject_Z z.
Proof.
  split; intros H.
  - apply Qle_trans with (inject_Z (Qceiling x)); [apply Qle_ceiling|].
    now rewrite <- Zle_Qle.
  - rewrite <- (Qceiling_Z z). now apply Qceiling_resp_le.
Qed.

Lemma frameAt_le_iff (t : Q) (f : nat) :
  (frameAt t <= f)%nat <-> t * FPS <= ofNat f.
Proof.
  unfold frameAt, ofNat. rewrite <- Qceiling_le_iff. lia.
Qed.

(** The test of the loop: the time of frame [f] has reached [beat]. *)
Lemma click_time (beat : Q) (f : nat) :
  Qle_bool beat (ofNat f * (1000 / FPS) / 1000) = true <->
  (frameAt beat <= f)%nat.
Proof.
  rewrite Qle_bool_iff, frameAt_le_iff. unfold FPS.
  assert (E : ofNat f * (1000 / 30) / 1000 == ofNat f / 30) by (field; discriminate).
  rewrite E. split; intros H.
  - apply Qmult_le_r with (z := / 30); [reflexivity|].
    rewrite <- Qmult_assoc, Qmult_inv_r, Qmult_1_r by discriminate. exact H.
  - apply Qmult_le_r with (z := / 30) in H; [|reflexivity].
    rewrite <- Qmult_assoc, Qmult_inv_r, Qmult_1_r in H by discriminate. exact H.
Qed.

Lemma frameAt_apart (a b : Q) :
  0 <= a -> a + 1 / FPS <= b -> (frameAt a < frameAt b)%nat.
Proof.
  intros A H. unfold frameAt, FPS in *.
  assert (L : (Qceiling (a * 30) + 1 <= Qceiling (b * 30))%Z).
  { replace (Qceiling (a * 30) + 1)%Z with (Qceiling (a * 30 + 1)).
    - apply Qceiling_resp_le.
      assert (E : 1 / 30 == 1 # 30) by reflexivity. rewrite E in H. lra.
    - unfold Qceiling.
      assert (E : - (a * 30 + 1) == - (a * 30) + inject_Z (-1)).
      { change (inject_Z (-1)) with (-1 # 1). ring. }
      rewrite E.
      assert (F : forall y z, Qfloor (y + inject_Z z) = (Qfloor y + z)%Z).
      { intros y z. destruct (Qfloor_bounds y).
        apply Qfloor_unique; rewrite !inject_Z_plus;
          [lra | change (inject_Z 1) with 1; lra]. }
      rewrite F. lia. }
  assert (P : (0 <= Qceiling (a * 30))%Z).
  { change 0%Z with (Qceiling 0). apply Qceiling_resp_le. lra. }
  lia.
Qed.

Lemma framesApart_step (l : list Q) :
  framesApart l = true ->
  forall i, (S i < length l)%nat -> nth i l 0 + 1 / FPS <= nth (S i) l 0.
Proof.
  induction l as [|a [|b r] IH]; intros H i L; cbn [length] in L; try lia.
  change (framesApart (a :: b :: r))
    with (Qle_bool (a + 1 / FPS) b && framesApart (b :: r)) in H.
  apply andb_true_iff in H as [H1 H2].
  destruct i as [|i].
  - cbn [nth]. now apply Qle_bool_iff.
  - change (nth (S i) (a :: b :: r) 0) with (nth i (b :: r) 0).
    change (nth (S (S i)) (a :: b :: r) 0) with (nth (S i) (b :: r) 0).
    apply IH; [exact H2 | cbn [length]; lia].
Qed.

Lemma framesApart_far (l : list Q) :
  framesApart l = true ->
  forall j i, (i < j < length l)%nat -> nth i l 0 + 1 / FPS <= nth j l 0.
Proof.
  intros H. pose proof (framesApart_step l H) as S1.
  assert (P : 0 <= 1 / FPS) by discriminate.
  induction j as [|j IH]; intros i [I J]; [lia|].
  destruct (Nat.eq_dec i j) as [-> | N].
  - now apply S1.
  - specialize (IH i ltac:(lia)). specialize (S1 j J). lra.
Qed.

Lemma insertAsc_length x l : length (insertAsc x l) = S (length l).
Proof.
  induction l as [|y r IH]; [reflexivity|].
  cbn [insertAsc]. destruct (Qltb x y); cbn [length]; [reflexivity|].
  now rewrite IH.
Qed.

Lemma sortAsc_length l : length (sortAsc l) = length l.
Proof.
  unfold sortAsc.
  assert (G : forall acc, length (fold_left (fun acc x => insertAsc x acc) l acc)
                          = (length acc + length l)%nat).
  { induction l as [|x l IH]; intros acc; cbn [fold_left length]; [lia|].
    rewrite IH, insertAsc_length. lia. }
  now rewrite G.
Qed.

Lemma localBeatsOf_length l : length (localBeatsOf l) = length l.
Proof. unfold localBeatsOf. now rewrite length_map, sortAsc_length. Qed.

Lemma localBeatsOf_nth l k :
  (k < length l)%nat ->
  nth k (localBeatsOf l) 0 = nth k (sortAsc l) 0 - hd 0 (sortAsc l).
Proof.
  intros K. unfold localBeatsOf.
  rewrite (nth_indep _ 0 (0 - hd 0 (sortAsc l)))
    by (rewrite length_map, sortAsc_length; exact K).
  now rewrite (map_nth (fun t => t - hd 0 (sortAsc l))).
Qed.

(** With beats one frame apart or more, the local beats start at 0 and
    fall on frames that increase strictly. *)
Lemma localBeats_frames l :
  framesApart (sortAsc l) = true ->
  forall i j, (i < j < length l)%nat ->
    0 <= nth i (localBeatsOf l) 0 /\
    (frameAt (nth i (localBeatsOf l) 0%Q) < frameAt (nth j (localBeatsOf l) 0%Q))%nat.
Proof.
  intros H i j [I J].
  pose proof (framesApart_far _ H) as Far.
  rewrite !localBeatsOf_nth by lia.
  assert (Hd : hd 0 (sortAsc l) = nth 0 (sortAsc l) 0)
    by (destruct (sortAsc l); reflexivity).
  rewrite Hd.
  assert (P : 0 <= 1 / FPS) by discriminate.
  assert (A : nth 0 (sortAsc l) 0 <= nth i (sortAsc l) 0).
  { destruct i as [|i]; [apply Qle_refl|].
    specialize (Far (S i) 0%nat). rewrite sortAsc_length in Far.
    specialize (Far ltac:(lia)). lra. }
  specialize (Far j i). rewrite sortAsc_length in Far.
  specialize (Far ltac:(lia)).
  split; [lra|]. apply frameAt_apart; lra.
Qed.

Section FrameLoop.

Variable localBeats : list Q.
Variable transitionMs : Q.
Hypothesis transition_nonneg : 0 <= transitionMs.
Hypothesis frames_increase : forall i j,
  (i < j < length localBeats)%nat ->
  (frameAt (nth i localBeats 0%Q) < frameAt (nth j localBeats 0%Q))%nat.

Lemma captureStep_spec (f : nat) (st : Capture) :
  clicksDone localBeats f st ->
  let '(st', ev) := captureStep localBeats transitionMs st f in
  clicksDone localBeats (S f) st' /\
  (forall k, clicked ev = Some k <->
             (k < length localBeats)%nat /\ frameAt (nth k localBeats 0%Q) = f) /\
  (clicked ev <> None -> shot ev = Screenshot).
Proof.
  intros (B & Lo & Hi). unfold captureStep. cbv zeta.
  set (idx := nextBeatIdx st) in *.
  destruct (nth_error localBeats idx) as [beat|] eqn:E.
  - assert (Li : (idx < length localBeats)%nat)
      by (apply nth_error_Some; congruence).
    assert (Eb : nth idx localBeats 0 = beat) by (now apply nth_error_nth).
    pose proof (Hi idx ltac:(lia)) as Hf. rewrite Eb in Hf.
    destruct (Qle_bool beat (ofNat f * (1000 / FPS) / 1000)) eqn:C.
    + apply click_time in C.
      assert (Ef : frameAt beat = f) by lia.
      unfold clicksDone. cbn [nextBeatIdx clicked shot].
      split; [|split].
      * split; [lia|]. split.
        -- intros k K. destruct (Nat.eq_dec k idx) as [-> | N].
           ++ rewrite Eb. lia.
           ++ specialize (Lo k ltac:(lia)). lia.
        -- intros k K.
           pose proof (frames_increase idx k ltac:(lia)) as F.
           rewrite Eb in F. lia.
      * intros k. split.
        -- intros [= <-]. rewrite Eb. auto.
        -- intros [K Fk]. f_equal.
           destruct (Nat.lt_trichotomy k idx) as [T | [T | T]]; [|auto|].
           ++ specialize (Lo k T). lia.
           ++ pose proof (frames_increase idx k ltac:(lia)) as F.
              rewrite Eb in F. lia.
      * intros _.
        replace (Qle_bool 0 (ofNat f * (1000 / FPS) - ofNat f * (1000 / FPS)))
          with true by (symmetry; apply Qle_bool_iff; lra).
        replace (Qle_bool (ofNat f * (1000 / FPS) - ofNat f * (1000 / FPS))
                   transitionMs)
          with true by (symmetry; apply Qle_bool_iff; lra).
        reflexivity.
    + assert (Nf : ~ (frameAt beat <= f)%nat)
        by (rewrite <- click_time; congruence).
      unfold clicksDone. cbn [nextBeatIdx clicked shot]. fold idx.
      split; [|split].
      * split; [lia|]. split.
        -- intros k K. specialize (Lo k K). lia.
        -- intros k K. destruct (Nat.eq_dec k idx) as [-> | N].
           ++ rewrite Eb. lia.
           ++ pose proof (frames_increase idx k ltac:(lia)) as F.
              rewrite Eb in F. lia.
      * intros k. split; [discriminate|].
        intros [K Fk]. exfalso.
        destruct (Nat.lt_trichotomy k idx) as [T | [T | T]].
        -- specialize (Lo k T). lia.
        -- subst k. rewrite Eb in Fk. lia.
        -- pose proof (frames_increase idx k ltac:(lia)) as F.
           rewrite Eb in F. lia.
      * intros N. congruence.
  - assert (Li : (length localBeats <= idx)%nat) by (now apply nth_error_None).
    unfold clicksDone. cbn [nextBeatIdx clicked shot]. fold idx.
    split; [|split].
    + split; [lia|]. split.
      * intros k K. specialize (Lo k K). lia.
      * intros k K. lia.
    + intros k. split; [discriminate|].
      intros [K Fk]. specialize (Lo k ltac:(lia)). lia.
    + intros N. congruence.
Qed.

Lemma captureLoop_length (fuel : nat) : forall f st,
  length (captureLoop localBeats transitionMs fuel f st) = fuel.
Proof.
  induction fuel as [|fuel IH]; intros f st; [reflexivity|].
  cbn [captureLoop].
  destruct (captureStep localBeats transitionMs st f) as [st' ev].
  cbn [length]. now rewrite IH.
Qed.

Lemma captureLoop_spec (fuel : nat) : forall f st,
  clicksDone localBeats f st ->
  forall j ev,
    nth_error (captureLoop localBeats transitionMs fuel f st) j = Some ev ->
    (forall k, clicked ev = Some k <->
               (k < length localBeats)%nat /\
               frameAt (nth k localBeats 0%Q) = (f + j)%nat) /\
    (clicked ev <> None -> shot ev = Screenshot).
Proof.
  induction fuel as [|fuel IH]; intros f st Inv j ev Hj.
  - destruct j; discriminate.
  - cbn [captureLoop] in Hj.
    pose proof (captureStep_spec f st Inv) as S1.
    destruct (captureStep localBeats transitionMs st f) as [st' ev0].
    destruct S1 as (Inv' & Cl & Sh).
    destruct j as [|j].
    + injection Hj as <-. rewrite Nat.add_0_r. auto.
    + cbn [nth_error] in Hj.
      replace (f + S j)%nat with (S f + j)%nat by lia.
      exact (IH (S f) st' Inv' j ev Hj).
Qed.

End FrameLoop.

Lemma last_nth (l : list Q) : last l 0 = nth (length l - 1) l 0.
Proof.
  induction l as [|a [|b r] IH]; try reflexivity.
  change (last (a :: b :: r) 0) with (last (b :: r) 0). rewrite IH.
  cbn [length nth Nat.sub]. now rewrite Nat.sub_0_r.
Qed.



(** ** The text of a cue *)

Lemma afterClose_None s : afterClose s = None <-> ~ In ">"%char s.
Proof.
  induction s as [|c r IH]; cbn [afterClose In]; [tauto|].
  destruct (ascii_dec c ">") as [-> | N].
  - split; [discriminate | intros H; exfalso; apply H; now left].
  - rewrite IH. split; [intros H [E | I]; [congruence | tauto] | tauto].
Qed.

Lemma afterClose_Some s r :
  afterClose s = Some r ->
  (exists q, s = q ++ ">"%char :: r) /\ (length r < length s)%nat.
Proof.
  revert r. induction s as [|c t IH]; intros r H; cbn [afterClose] in H;
    [discriminate|].
  destruct (ascii_dec c ">") as [-> | N].
  - injection H as <-. split; [now exists [] | cbn; lia].
  - destruct (IH r H) as [[q E] L]. split; [|cbn [length]; lia].
    exists (c :: q). now rewrite E.
Qed.

Lemma noTag_nil : noTag [].
Proof. intros p q r E. destruct p; discriminate. Qed.

Lemma noTag_cons c s :
  noTag (c :: s) <-> (c = "<"%char -> ~ In ">"%char s) /\ noTag s.
Proof.
  split.
  - intros H. split.
    + intros -> I. apply in_split in I as (q & r & E).
      apply (H [] q r). now rewrite E.
    + intros p q r E. apply (H (c :: p) q r). now rewrite E.
  - intros [H1 H2] p q r E. destruct p as [|x p].
    + injection E as -> E. apply H1; [reflexivity|].
      rewrite E. apply in_or_app. right. now left.
    + injection E as _ E. exact (H2 p q r E).
Qed.

Lemma noTag_part pre s post : noTag (pre ++ s ++ post) -> noTag s.
Proof.
  intros H p q r E. apply (H (pre ++ p) q (r ++ post)).
  rewrite E, <- !app_assoc. cbn [app]. rewrite <- !app_assoc. reflexivity.
Qed.

Lemma stripTagsFrom_In fuel : forall s x,
  In x (stripTagsFrom fuel s) -> In x s.
Proof.
  induction fuel as [|fuel IH]; intros s x H; [exact H|].
  destruct s as [|c r]; [exact H|]. cbn [stripTagsFrom] in H.
  destruct (ascii_dec c "<").
  - destruct (afterClose r) as [r'|] eqn:E.
    + destruct (afterClose_Some _ _ E) as [[q Eq] _].
      right. rewrite Eq. apply in_or_app. right. right. now apply IH.
    + destruct H as [H | H]; [now left | right; now apply IH].
  - destruct H as [H | H]; [now left | right; now apply IH].
Qed.

Lemma stripTagsFrom_noTag fuel : forall s,
  (length s <= fuel)%nat -> noTag (stripTagsFrom fuel s).
Proof.
  induction fuel as [|fuel IH]; intros s L.
  - destruct s; [apply noTag_nil | cbn in L; lia].
  - destruct s as [|c r]; [apply noTag_nil|]. cbn [stripTagsFrom].
    cbn [length] in L.
    destruct (ascii_dec c "<") as [-> | N].
    + destruct (afterClose r) as [r'|] eqn:E.
      * destruct (afterClose_Some _ _ E) as [_ Lr]. apply IH. lia.
      * apply noTag_cons. split; [|apply IH; lia].
        intros _ I. apply stripTagsFrom_In in I.
        now apply afterClose_None in E.
    + apply noTag_cons. split; [congruence | apply IH; lia].
Qed.

Lemma stripTagsFrom_fix fuel : forall s,
  noTag s -> stripTagsFrom fuel s = s.
Proof.
  induction fuel as [|fuel IH]; intros s H; [reflexivity|].
  destruct s as [|c r]; [reflexivity|]. cbn [stripTagsFrom].
  apply noTag_cons in H as [H1 H2].
  destruct (ascii_dec c "<") as [E | N].
  - replace (afterClose r) with (@None str)
      by (symmetry; apply afterClose_None; auto).
    now rewrite IH.
  - now rewrite IH.
Qed.

Lemma trim_part s : exists pre post, s = pre ++ trim s ++ post.
Proof.
  unfold trim. destruct (trimStart_suffix s) as [pre E].
  destruct (trimEnd_prefix (trimStart s)) as [post F].
  exists pre, post. now rewrite <- F.
Qed.

Lemma cleanText_noTag raw : noTag (cleanText raw).
Proof.
  unfold cleanText. destruct (trim_part (stripTags raw)) as (pre & post & E).
  apply (noTag_part pre _ post). rewrite <- E.
  now apply stripTagsFrom_noTag.
Qed.

(** The text that [parseSrt] keeps for a cue holds no tag (no [<] with a
    [>] after it) and neither starts nor ends with white space; cleaning
    it again changes nothing, and a text without [<] is only trimmed. *)
Theorem cleanText_clean (raw : str) :
  noTag (cleanText raw) /\
  headOk (cleanText raw) /\ headOk (rev (cleanText raw)) /\
  cleanText (cleanText raw) = cleanText raw /\
  (~ In "<"%char raw -> cleanText raw = trim raw).
Proof.
  split; [apply cleanText_noTag|].
  split; [apply headOk_trimEnd, headOk_trimStart|].
  split; [apply headOk_rev_trimEnd|].
  split.
  - unfold cleanText at 1. unfold stripTags.
    rewrite (stripTagsFrom_fix _ _ (cleanText_noTag raw)).
    unfold cleanText. apply trim_idem.
  - intros H. unfold cleanText, stripTags. f_equal.
    apply stripTagsFrom_fix. intros p q r E. apply H.
    rewrite E. apply in_or_app. right. now left.
Qed.

Lemma cleanText_clean_witness :
  noTag (cleanText (lit " 3 > 2 ")) /\
  headOk (cleanText (lit " 3 > 2 ")) /\ headOk (rev (cleanText (lit " 3 > 2 "))) /\
  cleanText (cleanText (lit " 3 > 2 ")) = cleanText (lit " 3 > 2 ") /\
  (~ In "<"%char (lit " 3 > 2 ") -> cleanText (lit " 3 > 2 ") = trim (lit " 3 > 2 ")).
Proof.
  apply (cleanText_clean (lit " 3 > 2 ")).
Defined.

(** ** Names of rendered clips *)

Lemma jsRem_split (x : Q) (d : Z) :
  0 <= x -> (0 < d)%Z ->
  jsRem x (inject_Z d)
  == inject_Z (Qfloor x mod d) + (x - inject_Z (Qfloor x)).
Proof.
  intros X D.
  destruct (Qfloor_bounds x) as [L U].
  set (n := Qfloor x) in *. set (f := x - inject_Z n).
  assert (F0 : 0 <= f) by (unfold f; lra).
  assert (F1 : f < 1) by (unfold f; lra).
  assert (Ex : x == inject_Z n + f) by (unfold f; ring).
  assert (Dq : 0 < inject_Z d)
    by (change 0 with (inject_Z 0); now rewrite <- Zlt_Qlt).
  assert (T : truncate (x / inject_Z d) = (n / d)%Z).
  { unfold truncate.
    replace (Qle_bool 0 (x / inject_Z d)) with true.
    - rewrite Ex. now apply Qfloor_div.
    - symmetry. apply Qle_bool_iff. apply Qle_shift_div_l; [exact Dq | lra]. }
  unfold jsRem. rewrite T.
  pose proof (Z.div_mod n d ltac:(lia)) as E.
  assert (E' : inject_Z n == inject_Z d * inject_Z (n / d) + inject_Z (n mod d)).
  { rewrite <- inject_Z_mult, <- inject_Z_plus. now rewrite <- E. }
  rewrite Ex at 1. rewrite E'. ring.
Qed.

(** The fields of the stamp for a time that is not negative. *)
Lemma timelineStamp_fields (x : Q) :
  0 <= x ->
  let n := Qfloor x in
  let ms := mathRound ((x - inject_Z n) * 1000) in
  timelineStamp x
  = "_"%char :: "@"%char :: padStart0 2 (intToString (n / 60)) ++ "m"%char
      :: padStart0 2 (intToString (n mod 60)) ++ "s"%char
      :: padStart0 3 (intToString ms).
Proof.
  intros X n ms.
  destruct (Qfloor_bounds x) as [L U]. fold n in L, U.
  set (f := x - inject_Z n).
  assert (F0 : 0 <= f) by (unfold f; lra).
  assert (F1 : f < 1) by (unfold f; lra).
  assert (Ex : x == inject_Z n + f) by (unfold f; ring).
  assert (M : mathFloor (x / 60) = (n / 60)%Z).
  { unfold mathFloor. rewrite Ex. exact (Qfloor_div n f 60 eq_refl F0 F1). }
  assert (S : mathFloor (jsRem x 60) = (n mod 60)%Z).
  { unfold mathFloor. change 60 with (inject_Z 60).
    rewrite (jsRem_split x 60 X eq_refl). fold n. fold f.
    pose proof (Z.mod_pos_bound n 60 eq_refl).
    apply Qfloor_unique; [lra|]. rewrite inject_Z_plus.
    change (inject_Z 1) with 1. lra. }
  assert (MS : mathRound (jsRem x 1 * 1000) = ms).
  { unfold ms. apply mathRound_comp. change 1 with (inject_Z 1) at 1.
    rewrite (jsRem_split x 1 X eq_refl). fold n.
    rewrite Z.mod_1_r. change (inject_Z 0) with 0. ring. }
  unfold timelineStamp. cbv zeta. rewrite M, S, MS. reflexivity.
Qed.

Lemma fixed_digits (k : nat) (z : Z) :
  (0 <= z < 10 ^ Z.of_nat (S k))%Z ->
  length (padStart0 (S k) (intToString z)) = S k /\
  Forall (fun c => isDigit c = true) (padStart0 (S k) (intToString z)) /\
  digitsVal (padStart0 (S k) (intToString z)) = z.
Proof.
  intros H. destruct (intToString_digits z ltac:(lia)) as (_ & F & V).
  pose proof (intToString_short z k H) as L.
  split; [rewrite padStart0_length; lia|].
  split; [now apply padStart0_digits|].
  now rewrite padStart0_val.
Qed.

Lemma two_digits (z : Z) :
  (0 <= z < 100)%Z ->
  exists a b, padStart0 2 (intToString z) = [a; b] /\
              isDigit a = true /\ isDigit b = true /\ digitsVal [a; b] = z.
Proof.
  intros H. destruct (fixed_digits 1 z H) as (L & F & V).
  destruct (padStart0 2 (intToString z)) as [|a [|b [|c r]]]; try discriminate.
  exists a, b. inversion F as [|? ? Fa F']; subst.
  inversion F' as [|? ? Fb _]; subst. auto.
Qed.

Lemma three_digits (z : Z) :
  (0 <= z < 1000)%Z ->
  exists a b c, padStart0 3 (intToString z) = [a; b; c] /\
                isDigit a = true /\ isDigit b = true /\ isDigit c = true /\
                digitsVal [a; b; c] = z.
Proof.
  intros H. destruct (fixed_digits 2 z H) as (L & F & V).
  destruct (padStart0 3 (intToString z)) as [|a [|b [|c [|d r]]]];
    try discriminate.
  exists a, b, c. inversion F as [|? ? Fa F']; subst.
  inversion F' as [|? ? Fb F'']; subst.
  inversion F'' as [|? ? Fc _]; subst. auto.
Qed.

Lemma span_app {A : Type} (p : A -> bool) (v r : list A) :
  Forall (fun c => p c = true) v ->
  match r with [] => True | c :: _ => p c = false end ->
  span p (v ++ r) = (v, r).
Proof.
  intros F R. induction F as [|x v Hx _ IH]; cbn [app span].
  - destruct r as [|c t]; [reflexivity|]. cbn [span]. now rewrite R.
  - now rewrite Hx, IH.
Qed.

Lemma matchEnd_label (vl : option str) :
  (forall v, vl = Some v -> ~ In "."%char v) ->
  ClipName.matchEnd (labelSuffix vl ++ lit ".mp4") = Some (writtenLabel vl).
Proof.
  intros H. unfold labelSuffix.
  destruct vl as [[|c v]|]; cbn [writtenLabel]; try reflexivity.
  cbn [app ClipName.matchEnd].
  change (c :: v ++ lit ".mp4") with ((c :: v) ++ lit ".mp4").
  rewrite span_app.
  - cbn [nonEmpty andb]. unfold str_eqb.
    destruct (str_eq_dec (lit ".mp4") (lit ".mp4")); [reflexivity | congruence].
  - apply Forall_forall. intros x I. apply negb_true_iff.
    apply Ascii.eqb_neq. intros ->. exact (H _ eq_refl I).
  - reflexivity.
Qed.

Lemma matchTail_stamp m1 m2 s1 s2 f1 f2 f3 rest variant :
  isDigit m1 = true -> isDigit m2 = true ->
  isDigit s1 = true -> isDigit s2 = true ->
  isDigit f1 = true -> isDigit f2 = true -> isDigit f3 = true ->
  ClipName.matchEnd rest = Some variant ->
  ClipName.matchTail
    ("_"%char :: "@"%char :: [m1; m2] ++ "m"%char :: [s1; s2] ++ "s"%char
       :: [f1; f2; f3] ++ rest)
  = Some ([m1; m2], [s1; s2], [f1; f2; f3], variant).
Proof.
  intros M1 M2 S1 S2 F1 F2 F3 E.
  cbn [app ClipName.matchTail].
  rewrite M1, M2, S1, S2, F1, F2, F3, E. reflexivity.
Qed.

Lemma matchTail_no_at x y r :
  y <> "@"%char -> ClipName.matchTail (x :: y :: r) = None.
Proof.
  intros N. unfold ClipName.matchTail.
  destruct r as [|m1 [|m2 [|m [|s1 [|s2 [|sc [|f1 [|f2 [|f3 rest]]]]]]]]];
    try reflexivity.
  replace (Ascii.eqb y "@") with false
    by (symmetry; now apply Ascii.eqb_neq).
  now rewrite andb_false_r.
Qed.

Lemma matchTail_short x : ClipName.matchTail [x] = None.
Proof. reflexivity. Qed.

(** The lazy group runs over a base name without [@] and line
    terminators up to the stamp. *)
Lemma matchBase_skip (b : str) : forall acc t,
  Forall (fun c => isLineTerminator c = false /\ c <> "@"%char) b ->
  ClipName.matchBase acc (b ++ "_"%char :: t)
  = ClipName.matchBase (rev b ++ acc) ("_"%char :: t).
Proof.
  induction b as [|x b IH]; intros acc t F; [reflexivity|].
  inversion F as [|? ? [Lx _] F']; subst.
  cbn [app rev]. rewrite <- app_assoc. cbn [app].
  rewrite <- (IH (x :: acc) t F').
  assert (N : ClipName.matchTail (x :: b ++ "_"%char :: t) = None).
  { destruct b as [|y b]; cbn [app].
    - apply matchTail_no_at. discriminate.
    - apply matchTail_no_at. inversion F' as [|? ? [_ Ny] _]; subst. exact Ny. }
  cbn [ClipName.matchBase]. rewrite N, Lx. reflexivity.
Qed.

Lemma outputNameOf_shape (b : str) (n : nat) (x : Q) (vl : option str) :
  outputNameOf b (Some n) x vl
  = padStart0 3 (intToString (Z.of_nat n)) ++ "_"%char
      :: b ++ timelineStamp x ++ labelSuffix vl ++ lit ".mp4".
Proof.
  unfold outputNameOf, labelSuffix. cbv zeta.
  destruct vl as [[|c v]|]; cbn [writtenLabel];
    repeat (rewrite <- ?app_assoc; cbn [app]); reflexivity.
Qed.



Lemma digit_neq (a c : ascii) :
  isDigit a = false -> isDigit c = true -> Ascii.eqb c a = false.
Proof.
  intros A C. apply Ascii.eqb_neq. intros ->. congruence.
Qed.

Lemma digitsVal_lt ds :
  Forall (fun c => isDigit c = true) ds ->
  (digitsVal ds < 10 ^ Z.of_nat (length ds))%Z.
Proof.
  induction 1 as [|d ds Hd _ IH]; [reflexivity|].
  rewrite digitsVal_cons. cbn [length]. rewrite Nat2Z.inj_succ, Z.pow_succ_r by lia.
  destruct (isDigit_facts d Hd) as (_ & _ & _ & _ & _ & _ & _ & B).
  assert (P : (0 < 10 ^ Z.of_nat (length ds))%Z) by (apply Z.pow_pos_nonneg; lia).
  nia.
Qed.

Lemma intToString_long (z : Z) :
  (100 <= z)%Z -> (3 <= length (intToString z))%nat.
Proof.
  intros H. destruct (intToString_digits z ltac:(lia)) as (_ & F & V).
  pose proof (digitsVal_lt _ F) as B. rewrite V in B.
  destruct (intToString z) as [|a [|b [|c r]]]; cbn [length] in *;
    try lia; cbn in B; lia.
Qed.

Lemma matchBase_cons acc c r :
  ClipName.matchBase acc (c :: r)
  = match ClipName.matchTail (c :: r) with
    | Some t => Some (rev acc, t)
    | None =>
        if isLineTerminator c then None else ClipName.matchBase (c :: acc) r
    end.
Proof. reflexivity. Qed.

(** Without an [@] after its first character, no part of [s] matches the
    stamp. *)
Lemma matchBase_no_at (s : str) : forall acc,
  Forall (fun c => c <> "@"%char) (tl s) -> ClipName.matchBase acc s = None.
Proof.
  induction s as [|x s IH]; intros acc F; [reflexivity|].
  cbn [tl] in F.
  assert (N : ClipName.matchTail (x :: s) = None).
  { destruct s as [|y s]; [reflexivity|].
    apply matchTail_no_at. now inversion F. }
  cbn [ClipName.matchBase]. rewrite N.
  destruct (isLineTerminator x); [reflexivity|].
  apply IH. destruct s as [|y s]; [constructor | now inversion F].
Qed.

Lemma labelSuffix_no_at (vl : option str) :
  (forall v, vl = Some v -> ~ In "@"%char v) ->
  Forall (fun c => c <> "@"%char) (labelSuffix vl ++ lit ".mp4").
Proof.
  intros H. apply Forall_app. split.
  - unfold labelSuffix. destruct vl as [[|c v]|]; cbn [writtenLabel];
      try constructor; [discriminate|].
    apply Forall_forall. intros x I ->. exact (H _ eq_refl I).
  - repeat constructor; discriminate.
Qed.

Lemma outputNameOf_layout (b : str) (n : nat) (x : Q) (vl : option str) :
  0 <= x ->
  let z := Qfloor x in
  let ms := mathRound ((x - inject_Z z) * 1000) in
  outputNameOf b (Some n) x vl
  = padStart0 3 (intToString (Z.of_nat n)) ++ "_"%char
      :: b ++ "_"%char :: "@"%char
      :: padStart0 2 (intToString (z / 60)) ++ "m"%char
      :: padStart0 2 (intToString (z mod 60)) ++ "s"%char
      :: padStart0 3 (intToString ms) ++ labelSuffix vl ++ lit ".mp4".
Proof.
  intros X z ms. rewrite outputNameOf_shape, (timelineStamp_fields x X).
  fold z. fold ms. cbn [app]. rewrite <- !app_assoc. cbn [app].
  rewrite <- !app_assoc. cbn [app]. reflexivity.
Qed.



(** ** Times in the timing editor *)

Lemma trimEnd_fix s : headOk (rev s) -> trimEnd s = s.
Proof.
  intros H. unfold trimEnd.
  rewrite (trimStart_fix (rev s) H : dropWhile isSpace (rev s) = rev s).
  apply rev_involutive.
Qed.

Lemma includes_char (c : ascii) (p r : str) :
  includes (p ++ c :: r) [c] = true.
Proof.
  induction p as [|x p IH]; cbn [app includes startsWith].
  - destruct (ascii_dec c c); [destruct r; reflexivity | congruence].
  - rewrite IH. apply orb_true_r.
Qed.

(** The digits written by [toFixed(3)] for a number that is not
    negative. *)
Lemma toFixed3_digits (y : Q) :
  0 <= y ->
  exists A B,
    toFixed3 y = A ++ "."%char :: B /\ A <> [] /\
    Forall (fun c => isDigit c = true) A /\
    Forall (fun c => isDigit c = true) B /\
    length B = 3%nat /\
    (digitsVal A * 1000 + digitsVal B)%Z = mathRound (y * 1000).
Proof.
  intros Y. unfold toFixed3.
  replace (Qltb y 0) with false
    by (symmetry; unfold Qltb; apply negb_false_iff, Qle_bool_iff; exact Y).
  set (n := mathRound (y * 1000)).
  assert (N0 : (0 <= n)%Z).
  { unfold n, mathRound. apply Qfloor_nonneg. nra. }
  destruct (intToString_digits n N0) as (_ & F & V).
  set (m := repeat "0"%char (4 - length (intToString n)) ++ intToString n).
  assert (Fm : Forall (fun c => isDigit c = true) m).
  { unfold m. apply Forall_app. split; [|exact F].
    apply Forall_forall. intros c H. apply repeat_spec in H. now subst. }
  assert (Vm : digitsVal m = n).
  { unfold m. rewrite digitsVal_app, digitsVal_zeros. lia. }
  assert (Lm : (4 <= length m)%nat).
  { unfold m. rewrite length_app, repeat_length. lia. }
  exists (firstn (length m - 3) m), (skipn (length m - 3) m).
  assert (Ls : length (skipn (length m - 3) m) = 3%nat)
    by (rewrite length_skipn; lia).
  split; [reflexivity|].
  split.
  { intros E. apply (f_equal (@length ascii)) in E.
    rewrite length_firstn in E. cbn [length] in E. lia. }
  rewrite <- (firstn_skipn (length m - 3) m) in Fm, Vm.
  apply Forall_app in Fm as [Fa Fb].
  split; [exact Fa|]. split; [exact Fb|]. split; [exact Ls|].
  rewrite digitsVal_app, Ls in Vm. exact Vm.
Qed.


